(** * UnderstandPDF: the document-to-insights pipeline

    A shallow embedding of the two server modules of the repository,

    - the RAG module ([estimateTokens], [chunkText], [generateEmbeddings],
      [processDocument]), and
    - the insights module ([getInsightPlan], [extractGroupInsights],
      [mergeAndCacheInsights], [generateInsights]),

    followed by the properties the specification states about them.

    Conventions.  A JavaScript string is a [string]; one character stands
    for one UTF-16 code unit below 256.  Integral JavaScript numbers (page
    numbers, lengths, counts, token estimates) are [Z] or [nat]; they stay
    far below 2^53, where the double arithmetic the code performs on them
    ([x / 4], [x / 10], [Math.ceil]) is exact, so the quotient is taken in
    [Q].  Asynchronous functions become computations in a state-and-exception
    monad over the database tables and a log of the requests sent to the
    remote services; the services answer through an environment record. *)

From Stdlib Require Import Ascii QArith Qround.
From stdpp Require Import base list strings gmap pretty sorting.

Open Scope Z_scope.

(** ** JavaScript built-ins used by the code *)

Module JS.

(** [\s] of a regular expression and the characters [trim] removes
    (WhiteSpace and LineTerminator), among the code units below 256. *)
Definition is_white_space (c : ascii) : bool :=
  bool_decide (N_of_ascii c ∈ [9; 10; 11; 12; 13; 32; 160]%N).

Fixpoint trimStart (s : string) : string :=
  match s with
  | String c r => if is_white_space c then trimStart r else s
  | EmptyString => EmptyString
  end.

Definition trimEnd (s : string) : string :=
  String.rev (trimStart (String.rev s)).

(** [s.trim()] *)
Definition trim (s : string) : string := trimEnd (trimStart s).

(** [xs.join(sep)] *)
Definition join (sep : string) (xs : list string) : string :=
  String.concat sep xs.

(** [s.slice(0, n)] *)
Definition slice0 (n : nat) (s : string) : string := String.substring 0 n s.

(** [Math.ceil(n / d)] on integral [n] and [d]. *)
Definition ceil_div (n d : Z) : Z := Qceiling (inject_Z n / inject_Z d).

(** The character class [[.!?]]. *)
Definition is_terminal (c : ascii) : bool :=
  bool_decide (c ∈ ["."; "!"; "?"]%char).

(** [s.split(/(?<=[.!?])\s+/)].  A separator is a maximal run of white
    space that directly follows a terminal punctuation character; such a
    run can only start where the white space starts, so the scan keeps
    whether the previous character was terminal ([after_terminal]) and
    whether it is inside a separator ([in_separator]).  The piece after
    the last separator is always produced, also when it is empty. *)
Fixpoint split_scan (after_terminal in_separator : bool)
    (piece : string) (s : string) : list string :=
  match s with
  | EmptyString => [piece]
  | String c r =>
      if is_white_space c then
        if in_separator then split_scan false true piece r
        else if after_terminal then piece :: split_scan false true "" r
        else split_scan false false (piece +:+ String c "") r
      else split_scan (is_terminal c) false (piece +:+ String c "") r
  end.

Definition split_sentences (s : string) : list string :=
  split_scan false false "" s.

End JS.

(** ** The data of the insights module and of the database *)

Module Schema.

(** JavaScript numbers that the code only carries around (embedding
    values, the sampling temperature). *)
Definition number : Type := Q.

Module LocalSource.
(** The [type] field is the constant ["local"]. *)
Record t := { page : Z; section : string; quote : string }.
End LocalSource.

Module ResearchDirection.
Record t := { category : string; title : string; description : string }.
End ResearchDirection.

Module Insight.
Record t := {
  id : string;
  title : string;
  description : string;
  sources : list LocalSource.t;
  researchDirections : list ResearchDirection.t
}.

(** [{ ...item, id: newId }] *)
Definition with_id (item : t) (newId : string) : t :=
  {| id := newId;
     title := title item;
     description := description item;
     sources := sources item;
     researchDirections := researchDirections item |}.
End Insight.

(** An insight before the assignment of its id, as parsed from a model
    response; the two lists may be missing ([item.sources ?? []]). *)
Module RawInsight.
Record t := {
  title : string;
  description : string;
  sources : option (list LocalSource.t);
  researchDirections : option (list ResearchDirection.t)
}.
End RawInsight.

Module InsightPlan.
Record t := { totalChunks : Z; totalGroups : Z }.
End InsightPlan.

Inductive Status := uploading | processing | ready | failed.

(** A row of [documents], keyed by its [id].  The columns that decide
    nothing here are left out: owner, name, size, and the time stamps
    ([updated_at] is set to the current time by every status update). *)
Module Document.
Record t := {
  file_url : string;
  total_pages : option Z;
  status : Status
}.
End Document.

(** A row of [document_chunks]; [embedding] is the vector that the code
    serializes with [JSON.stringify], absent when [embeddings[i]] is
    [undefined]. *)
Module ChunkRow.
Record t := {
  document_id : string;
  chunk_index : nat;
  content : string;
  page_start : Z;
  page_end : Z;
  token_count : Z;
  embedding : option (list number)
}.
End ChunkRow.

#[global] Instance Status_eq_dec : EqDecision Status.
Proof. solve_decision. Defined.

End Schema.

(** ** The remote services and the monad of the server actions *)

Module Effects.
Import Schema.

Inductive TaskType := RETRIEVAL_DOCUMENT | RETRIEVAL_QUERY.

(** The two system instructions are fixed texts; only which one is sent
    matters here. *)
Inductive SystemInstruction := EXTRACT_PROMPT | MERGE_PROMPT.

(** [getGenerativeModel({...}).generateContent(prompt)] *)
Record GenerateRequest := {
  model : string;
  systemInstruction : SystemInstruction;
  temperature : number;
  maxOutputTokens : Z;
  responseMimeType : string;
  prompt : string
}.

(** What is sent over the network: to the database, to the storage
    bucket, to the embedding endpoint and to the generative model. *)
Inductive Request :=
| SelectDocument (id : string)
| UpdateDocument (id : string) (status : Status) (total_pages : option Z)
| Download (path : string)
| CountChunks (document_id : string)
| RangeChunks (document_id : string) (from to : nat)
| InsertChunks (rows : list ChunkRow.t)
| SelectInsights (document_id : string)
| UpsertInsights (document_id : string) (insights : list Insight.t)
| DeleteInsights (document_id : string)
| BatchEmbedContents (texts : list string) (taskType : TaskType)
| GenerateContent (req : GenerateRequest).

(** A thrown value: an [Error] (or an instance of a subclass, such as the
    [SyntaxError] of [JSON.parse]) with its message, or anything else. *)
Inductive Exn :=
| Error (message : string)
| NonError.

(** The answer of the embedding endpoint to one [fetch]: an ok response
    with the [values] of its [data.embeddings], in order; a response that
    is not ok, with its status and body text; or a thrown value, when
    [fetch] rejects or the body of an ok response has another shape. *)
Inductive EmbedReply :=
| EmbedOk (embeddings : list (list number))
| EmbedStatus (status : nat) (body : string)
| EmbedThrows (e : Exn).

(** The result of [parser.getText]. *)
Module TextResult.
Record page := { num : Z; text : string }.
Record t := { pages : list page; total : Z }.
End TextResult.

(** The environment of a run.  The remote services see the requests made
    so far (the log) and the new request. *)
Record Env := {
  (** [process.env.GEMINI_API_KEY] *)
  GEMINI_API_KEY : option string;
  (** the error, if any, with which the database answers a request *)
  db_error : list Request → Request → option string;
  (** the storage bucket ["pdfs"]: an error message or the file *)
  storage_download : list Request → string → string + list Byte.byte;
  (** [new PDFParse({data}).getText(...)], then [destroy()] *)
  getText : list Byte.byte → Exn + TextResult.t;
  batchEmbedContents : list Request → list string → TaskType → EmbedReply;
  (** [generateContent(...)] followed by [result.response.text()] *)
  generateContent : list Request → GenerateRequest → Exn + string;
  (** [JSON.parse(text) as RawInsight[]]: the message of the [SyntaxError],
      or the value, taken at the type the code asserts *)
  JSON_parse : string → string + list RawInsight.t;
  (** [JSON.stringify(stripped, null, 2)] *)
  JSON_stringify : list RawInsight.t → string
}.

(** The database, and the log of the requests made so far. *)
Record World := {
  documents : gmap string Document.t;
  document_chunks : list ChunkRow.t;
  document_insights : gmap string (list Insight.t);
  log : list Request
}.

Definition set_documents (f : gmap string Document.t → gmap string Document.t)
    (w : World) : World :=
  {| documents := f (documents w);
     document_chunks := document_chunks w;
     document_insights := document_insights w;
     log := log w |}.

Definition set_document_chunks (f : list ChunkRow.t → list ChunkRow.t)
    (w : World) : World :=
  {| documents := documents w;
     document_chunks := f (document_chunks w);
     document_insights := document_insights w;
     log := log w |}.

Definition set_document_insights
    (f : gmap string (list Insight.t) → gmap string (list Insight.t))
    (w : World) : World :=
  {| documents := documents w;
     document_chunks := document_chunks w;
     document_insights := f (document_insights w);
     log := log w |}.

Definition set_log (f : list Request → list Request) (w : World) : World :=
  {| documents := documents w;
     document_chunks := document_chunks w;
     document_insights := document_insights w;
     log := f (log w) |}.

(** *** The monad: state, and a result or a thrown value *)

Inductive Outcome (A : Type) :=
| Return (a : A)
| Throw (e : Exn).
Arguments Return {A} a.
Arguments Throw {A} e.

Definition M (A : Type) : Type := World → Outcome A * World.

#[global] Instance M_ret : MRet M := λ A a w, (Return a, w).

#[global] Instance M_bind : MBind M := λ A B f m w,
  match m w with
  | (Return a, w') => f a w'
  | (Throw e, w') => (Throw e, w')
  end.

Definition throw {A} (e : Exn) : M A := λ w, (Throw e, w).

(** [try { body } catch (err) { handler(err) }] *)
Definition try_catch {A} (body : M A) (handler : Exn → M A) : M A := λ w,
  match body w with
  | (Return a, w') => (Return a, w')
  | (Throw e, w') => handler e w'
  end.

Definition get_world : M World := λ w, (Return w, w).
Definition modify_world (f : World → World) : M unit := λ w, (Return (), f w).

(** The world once [req] has been sent. *)
Definition logged (req : Request) (w : World) : World :=
  set_log (λ l, l ++ [req]) w.

(** Sends a request; the result is the log the service has seen. *)
Definition send (req : Request) : M (list Request) := λ w,
  (Return (log w), logged req w).

(** *** Vocabulary for statements about runs *)

(** The requests made by a run from [w] to [w']. *)
Definition new_requests (w w' : World) : list Request :=
  drop (length (log w)) (log w').

Definition is_generate (req : Request) : bool :=
  match req with
  | GenerateContent _ => true
  | _ => false
  end.

Definition is_insert (req : Request) : bool :=
  match req with
  | InsertChunks _ => true
  | _ => false
  end.

Definition same_tables (w w' : World) : Prop :=
  documents w' = documents w
  ∧ document_chunks w' = document_chunks w
  ∧ document_insights w' = document_insights w.

Definition preserves_tables {A} (m : M A) : Prop :=
  ∀ w, same_tables w (m w).2.

(** [process.env.GEMINI_API_KEY] is set and not empty. *)
Definition has_api_key (env : Env) : bool :=
  match GEMINI_API_KEY env with
  | Some apiKey => negb (bool_decide (apiKey = ""))
  | None => false
  end.

End Effects.

(** ** The database client *)

Module Supabase.
Import Schema Effects.

(** [{ data, error, count }] as the client returns it. *)
Record Response (A : Type) := {
  data : option A;
  error : option string;
  count : option nat
}.
Arguments data {A} _.
Arguments error {A} _.
Arguments count {A} _.

Definition succeed {A} (a : A) : Response A :=
  {| data := Some a; error := None; count := None |}.
Definition fail {A} (message : string) : Response A :=
  {| data := None; error := Some message; count := None |}.

(** The error of [.single()] when the filter selects no row. *)
Definition NO_ROWS : string := "JSON object requested, multiple (or no) rows returned".

(** The rows of a document, [order("chunk_index", { ascending: true })]. *)
Definition index_le (r1 r2 : ChunkRow.t) : Prop :=
  (ChunkRow.chunk_index r1 ≤ ChunkRow.chunk_index r2)%nat.

#[global] Instance index_le_dec : RelDecision index_le.
Proof. intros r1 r2. unfold index_le. apply _. Defined.

Definition rows_of (documentId : string) (rows : list ChunkRow.t) : list ChunkRow.t :=
  filter (λ r, ChunkRow.document_id r = documentId) rows.

Definition ordered_rows_of (documentId : string) (rows : list ChunkRow.t)
    : list ChunkRow.t :=
  merge_sort index_le (rows_of documentId rows).

(** [.range(from, to)], both ends included. *)
Definition range {A} (from to : nat) (l : list A) : list A :=
  take (to + 1 - from) (drop from l).

Section WithEnv.
Context (env : Env).

(** [from("documents").select("*").eq("id", id).single()] *)
Definition select_document (id : string) : M (Response Document.t) :=
  seen ← send (SelectDocument id);
  w ← get_world;
  mret (match db_error env seen (SelectDocument id) with
        | Some e => fail e
        | None => match documents w !! id with
                  | Some d => succeed d
                  | None => fail NO_ROWS
                  end
        end).

(** [from("documents").update({ status, updated_at, ...extraFields }).eq("id", id)] *)
Definition update_document (id : string) (status : Status)
    (total_pages : option Z) : M (Response unit) :=
  let req := UpdateDocument id status total_pages in
  seen ← send req;
  match db_error env seen req with
  | Some e => mret (fail e)
  | None =>
      modify_world (set_documents (alter (λ d,
        {| Document.file_url := Document.file_url d;
           Document.total_pages :=
             match total_pages with
             | Some n => Some n
             | None => Document.total_pages d
             end;
           Document.status := status |}) id));;
      mret (succeed ())
  end.

(** [storage.from("pdfs").download(path)] *)
Definition download (path : string) : M (Response (list Byte.byte)) :=
  seen ← send (Download path);
  mret (match storage_download env seen path with
        | inl e => fail e
        | inr file => succeed file
        end).

(** [from("document_chunks").select("id", { count: "exact", head: true })
    .eq("document_id", documentId)] *)
Definition count_chunks (documentId : string) : M (Response unit) :=
  seen ← send (CountChunks documentId);
  w ← get_world;
  mret (match db_error env seen (CountChunks documentId) with
        | Some e => fail e
        | None => {| data := None; error := None;
                     count := Some (length (rows_of documentId (document_chunks w))) |}
        end).

(** [from("document_chunks").select(...).eq("document_id", documentId)
    .order("chunk_index", { ascending: true }).range(from, to)] *)
Definition range_chunks (documentId : string) (from to : nat)
    : M (Response (list ChunkRow.t)) :=
  seen ← send (RangeChunks documentId from to);
  w ← get_world;
  mret (match db_error env seen (RangeChunks documentId from to) with
        | Some e => fail e
        | None => succeed (range from to
                             (ordered_rows_of documentId (document_chunks w)))
        end).

(** [from("document_chunks").insert(batch)] *)
Definition insert_chunks (batch : list ChunkRow.t) : M (Response unit) :=
  seen ← send (InsertChunks batch);
  match db_error env seen (InsertChunks batch) with
  | Some e => mret (fail e)
  | None =>
      modify_world (set_document_chunks (λ rows, rows ++ batch));;
      mret (succeed ())
  end.

(** [from("document_insights").select("insights").eq("document_id", documentId).single()] *)
Definition select_insights (documentId : string) : M (Response (list Insight.t)) :=
  seen ← send (SelectInsights documentId);
  w ← get_world;
  mret (match db_error env seen (SelectInsights documentId) with
        | Some e => fail e
        | None => match document_insights w !! documentId with
                  | Some insights => succeed insights
                  | None => fail NO_ROWS
                  end
        end).

(** [from("document_insights").upsert({ document_id, insights },
    { onConflict: "document_id" })] *)
Definition upsert_insights (documentId : string) (insights : list Insight.t)
    : M (Response unit) :=
  seen ← send (UpsertInsights documentId insights);
  match db_error env seen (UpsertInsights documentId insights) with
  | Some e => mret (fail e)
  | None =>
      modify_world (set_document_insights (insert documentId insights));;
      mret (succeed ())
  end.

(** [from("document_insights").delete().eq("document_id", documentId)] *)
Definition delete_insights (documentId : string) : M (Response unit) :=
  seen ← send (DeleteInsights documentId);
  match db_error env seen (DeleteInsights documentId) with
  | Some e => mret (fail e)
  | None =>
      modify_world (set_document_insights (delete documentId));;
      mret (succeed ())
  end.

End WithEnv.

End Supabase.

(** ** The documents module *)

Module Documents.
Import Schema Effects Supabase.

Section WithEnv.
Context (env : Env).

(** [extraFields] is [{ total_pages }] when given. *)
Definition updateDocumentStatus (documentId : string) (status : Status)
    (extraFields : option Z) : M bool :=
  r ← update_document env documentId status extraFields;
  mret (negb (bool_decide (is_Some (error r)))).

End WithEnv.

End Documents.

(** ** The RAG module *)

Module Rag.
Import Schema Effects Supabase.

(** Config *)
Definition CHUNK_SIZE : Z := 800.
Definition CHUNK_OVERLAP : Z := 100.
Definition EMBEDDING_BATCH_SIZE : nat := 20.

Record TextChunk := {
  content : string;
  page_start : Z;
  page_end : Z;
  token_count : Z
}.

(** Also the type of the entries of the sentence stream, which the code
    writes structurally as [{ text: string; page: number }]. *)
Record PageText := {
  page : Z;
  text : string
}.

(** [Math.ceil(text.length / 4)] *)
Definition estimateTokens (text : string) : Z :=
  JS.ceil_div (Z.of_nat (String.length text)) 4.

(** The sentences of one page: split, trim, keep the non-empty ones. *)
Definition page_sentences (p : PageText) : list PageText :=
  omap (λ part,
          let trimmed := JS.trim part in
          if bool_decide (0 < String.length trimmed)%nat
          then Some {| text := trimmed; page := page p |}
          else None)
       (JS.split_sentences (text p)).

Definition sentence_stream (pages : list PageText) : list PageText :=
  pages ≫= page_sentences.

(** The backward loop that builds the overlap.  [overlap_loop cur n ot os]
    is the loop about to test [i >= 0] with [i + 1 = n]; it returns the
    final [(overlapTokens, overlapStart)]. *)
Fixpoint overlap_loop (currentChunk : list string) (n : nat)
    (overlapTokens : Z) (overlapStart : nat) : Z * nat :=
  match n with
  | O => (overlapTokens, overlapStart)
  | S i =>
      let t := estimateTokens (currentChunk !!! i) in
      if bool_decide (overlapTokens + t > CHUNK_OVERLAP)
      then (overlapTokens, overlapStart)
      else overlap_loop currentChunk i (overlapTokens + t) i
  end.

Definition overlap (currentChunk : list string) : Z * nat :=
  overlap_loop currentChunk (length currentChunk) 0 (length currentChunk).

(** The variables of the main loop. *)
Record ChunkState := {
  chunks : list TextChunk;
  currentChunk : list string;
  currentTokens : Z;
  chunkPageStart : Z;
  chunkPageEnd : Z
}.

(** The chunk pushed from the current variables. *)
Definition current_as_chunk (st : ChunkState) : TextChunk :=
  let content := JS.join " " (currentChunk st) in
  {| content := content;
     page_start := chunkPageStart st;
     page_end := chunkPageEnd st;
     token_count := estimateTokens content |}.

(** Whether the loop body finalizes the current chunk at [sentence]. *)
Definition must_finalize (st : ChunkState) (sentence : PageText) : bool :=
  bool_decide (currentTokens st + estimateTokens (text sentence) > CHUNK_SIZE)
  && bool_decide (0 < length (currentChunk st))%nat.

(** The body of the [if]: push the chunk, keep the overlap. *)
Definition finalize (st : ChunkState) (sentence : PageText) : ChunkState :=
  let '(overlapTokens, overlapStart) := overlap (currentChunk st) in
  {| chunks := chunks st ++ [current_as_chunk st];
     currentChunk := drop overlapStart (currentChunk st);
     currentTokens := overlapTokens;
     chunkPageStart := page sentence;
     chunkPageEnd := chunkPageEnd st |}.

(** The three statements after the [if]. *)
Definition append_sentence (st : ChunkState) (sentence : PageText) : ChunkState :=
  {| chunks := chunks st;
     currentChunk := currentChunk st ++ [text sentence];
     currentTokens := currentTokens st + estimateTokens (text sentence);
     chunkPageStart := chunkPageStart st;
     chunkPageEnd := page sentence |}.

(** One iteration of [for (const sentence of sentences)]. *)
Definition chunk_step (st : ChunkState) (sentence : PageText) : ChunkState :=
  append_sentence
    (if must_finalize st sentence then finalize st sentence else st)
    sentence.

Definition chunk_init (first : PageText) : ChunkState :=
  {| chunks := [];
     currentChunk := [];
     currentTokens := 0;
     chunkPageStart := page first;
     chunkPageEnd := page first |}.

Definition chunk_finish (st : ChunkState) : list TextChunk :=
  if bool_decide (0 < length (currentChunk st))%nat
  then chunks st ++ [current_as_chunk st]
  else chunks st.

Definition chunk_sentences (sentences : list PageText) : list TextChunk :=
  match sentences with
  | [] => []
  | first :: _ => chunk_finish (foldl chunk_step (chunk_init first) sentences)
  end.

Definition chunkText (pages : list PageText) : list TextChunk :=
  chunk_sentences (sentence_stream pages).

(** *** Vocabulary for statements about chunks *)

(** The sum of the token estimates of some sentences. *)
Definition tokens_of (sentences : list string) : Z :=
  foldr (λ s acc, estimateTokens s + acc) 0 sentences.

(** [drop k cur] is the longest trailing run of [cur] within the overlap
    budget. *)
Definition is_overlap_start (cur : list string) (k : nat) : Prop :=
  (k ≤ length cur)%nat
  ∧ tokens_of (drop k cur) ≤ CHUNK_OVERLAP
  ∧ ∀ j, (j < k)%nat → CHUNK_OVERLAP < tokens_of (drop j cur).

Definition starts_le (c1 c2 : TextChunk) : Prop := page_start c1 ≤ page_start c2.
Definition pages_le (s1 s2 : PageText) : Prop := page s1 ≤ page s2.

(** The invariant of the main loop on the page variables. *)
Record pages_inv (st : ChunkState) : Prop := {
  inv_sorted : StronglySorted starts_le (chunks st);
  inv_below : ∀ c, c ∈ chunks st → page_start c ≤ chunkPageStart st;
  inv_range : ∀ c, c ∈ chunks st → page_start c ≤ page_end c;
  inv_current : chunkPageStart st ≤ chunkPageEnd st
}.

(** *** Embedding and the processing pipeline *)

Inductive ProcessResult :=
| Success
| Failure (error : string).

Definition NO_API_KEY : string := "GEMINI_API_KEY environment variable is not set.".

Definition embedding_error (status : nat) (errorBody : string) : Exn :=
  Error ("Gemini embedding API error (" +:+ pretty status +:+ "): " +:+ errorBody).

(** The rows built from the chunks and their embeddings. *)
Definition chunk_rows (documentId : string) (chunks : list TextChunk)
    (embeddings : list (list number)) : list ChunkRow.t :=
  imap (λ i chunk,
          {| ChunkRow.document_id := documentId;
             ChunkRow.chunk_index := i;
             ChunkRow.content := content chunk;
             ChunkRow.page_start := page_start chunk;
             ChunkRow.page_end := page_end chunk;
             ChunkRow.token_count := token_count chunk;
             ChunkRow.embedding := embeddings !! i |})
       chunks.

Definition BATCH_SIZE : nat := 50.

(** The [k]-th batch of [texts]: [texts.slice(20 k, 20 k + 20)]. *)
Definition batch_at (texts : list string) (k : nat) : list string :=
  take EMBEDDING_BATCH_SIZE (drop (k * EMBEDDING_BATCH_SIZE) texts).

Definition batch_count (texts : list string) : nat :=
  ((length texts + (EMBEDDING_BATCH_SIZE - 1)) / EMBEDDING_BATCH_SIZE)%nat.

Definition batches (texts : list string) : list (list string) :=
  batch_at texts <$> seq 0 (batch_count texts).

Definition embed_requests (taskType : TaskType) (bs : list (list string))
    : list Request :=
  (λ b, BatchEmbedContents b taskType) <$> bs.

(** The answer to the [k]-th batch of [bs], sent after the [k] batches
    before it. *)
Definition reply_at (env : Env) (w : World) (taskType : TaskType)
    (bs : list (list string)) (k : nat) : EmbedReply :=
  batchEmbedContents env (log w ++ embed_requests taskType (take k bs))
    (bs !!! k) taskType.

Section WithEnv.
Context (env : Env).

(** An empty key is falsy as well. *)
Definition getGeminiApiKey : M string :=
  match GEMINI_API_KEY env with
  | Some apiKey =>
      if bool_decide (apiKey = "") then throw (Error NO_API_KEY) else mret apiKey
  | None => throw (Error NO_API_KEY)
  end.

Definition extractTextFromPdf (buffer : list Byte.byte)
    : M (list PageText * Z) :=
  match getText env buffer with
  | inl e => throw e
  | inr textResult =>
      mret ((λ p, {| page := TextResult.num p; text := TextResult.text p |})
              <$> TextResult.pages textResult,
            TextResult.total textResult)
  end.

(** [for (let i = 0; i < texts.length; i += EMBEDDING_BATCH_SIZE)], from
    the state [(i, allEmbeddings)].  [fuel] bounds the number of
    iterations; [texts.length] of them are more than the loop makes. *)
Fixpoint embed_loop (fuel : nat) (texts : list string) (taskType : TaskType)
    (i : nat) (allEmbeddings : list (list number)) : M (list (list number)) :=
  match fuel with
  | O => mret allEmbeddings
  | S fuel' =>
      if bool_decide (i < length texts)%nat then
        let batch := take EMBEDDING_BATCH_SIZE (drop i texts) in
        seen ← send (BatchEmbedContents batch taskType);
        match batchEmbedContents env seen batch taskType with
        | EmbedThrows e => throw e
        | EmbedStatus status errorBody => throw (embedding_error status errorBody)
        | EmbedOk embeddings =>
            embed_loop fuel' texts taskType (i + EMBEDDING_BATCH_SIZE)
              (allEmbeddings ++ embeddings)
        end
      else mret allEmbeddings
  end.

Definition generateEmbeddings (texts : list string) (taskType : TaskType)
    : M (list (list number)) :=
  _ ← getGeminiApiKey;
  embed_loop (length texts) texts taskType 0 [].

(** The loop of [generateEmbeddings] told batch by batch; the loop above
    is shown below to run exactly like it. *)
Fixpoint embed_batches (taskType : TaskType) (bs : list (list string))
    (acc : list (list number)) : M (list (list number)) :=
  match bs with
  | [] => mret acc
  | batch :: rest =>
      seen ← send (BatchEmbedContents batch taskType);
      match batchEmbedContents env seen batch taskType with
      | EmbedThrows e => throw e
      | EmbedStatus status errorBody => throw (embedding_error status errorBody)
      | EmbedOk embeddings => embed_batches taskType rest (acc ++ embeddings)
      end
  end.

(** Every batch of [bs] is answered with the vectors of [vss], in turn. *)
Fixpoint all_answered (taskType : TaskType) (seen : list Request)
    (bs : list (list string)) (vss : list (list (list number))) : Prop :=
  match bs, vss with
  | [], [] => True
  | b :: bs', vs :: vss' =>
      batchEmbedContents env seen b taskType = EmbedOk vs
      ∧ all_answered taskType (seen ++ [BatchEmbedContents b taskType]) bs' vss'
  | _, _ => False
  end.

(** The database after [updateDocumentStatus(id, status)]. *)
Definition status_updated (id : string) (status : Status) (w : World) : World :=
  match db_error env (log w) (UpdateDocument id status None) with
  | Some _ => logged (UpdateDocument id status None) w
  | None =>
      set_documents
        (alter (λ d, {| Document.file_url := Document.file_url d;
                        Document.total_pages := Document.total_pages d;
                        Document.status := status |}) id)
        (logged (UpdateDocument id status None) w)
  end.

(** [for (let i = 0; i < rows.length; i += BATCH_SIZE)]; the result is
    the value the loop body returns from [processDocument], if it does. *)
Fixpoint insert_loop (fuel : nat) (documentId : string) (rows : list ChunkRow.t)
    (i : nat) : M (option ProcessResult) :=
  match fuel with
  | O => mret None
  | S fuel' =>
      if bool_decide (i < length rows)%nat then
        let batch := take BATCH_SIZE (drop i rows) in
        r ← insert_chunks env batch;
        match error r with
        | Some message =>
            _ ← Documents.updateDocumentStatus env documentId failed None;
            mret (Some (Failure ("Failed to store chunks: " +:+ message)))
        | None => insert_loop fuel' documentId rows (i + BATCH_SIZE)
        end
      else mret None
  end.

Definition processDocument (documentId : string) : M ProcessResult :=
  try_catch
    (r ← select_document env documentId;
     match error r, data r with
     | None, Some doc =>
         d ← download env (Document.file_url doc);
         match error d, data d with
         | None, Some fileData =>
             '(pages, totalPages) ← extractTextFromPdf fileData;
             if bool_decide (length pages = 0%nat) then
               _ ← Documents.updateDocumentStatus env documentId failed None;
               mret (Failure "Could not extract any text from the PDF.")
             else
               _ ← Documents.updateDocumentStatus env documentId processing
                     (Some totalPages);
               let chunks := chunkText pages in
               if bool_decide (length chunks = 0%nat) then
                 _ ← Documents.updateDocumentStatus env documentId failed None;
                 mret (Failure "No text chunks could be generated.")
               else
                 embeddings ← generateEmbeddings (content <$> chunks)
                                RETRIEVAL_DOCUMENT;
                 let rows := chunk_rows documentId chunks embeddings in
                 returned ← insert_loop (length rows) documentId rows 0;
                 match returned with
                 | Some result => mret result
                 | None =>
                     _ ← Documents.updateDocumentStatus env documentId ready None;
                     mret Success
                 end
         | _, _ =>
             _ ← Documents.updateDocumentStatus env documentId failed None;
             mret (Failure ("Failed to download PDF: "
                            +:+ default "unknown" (error d)))
         end
     | _, _ => mret (Failure "Document not found.")
     end)
    (λ err,
       _ ← Documents.updateDocumentStatus env documentId failed None;
       mret (Failure match err with
                     | Error message => message
                     | NonError => "Unknown processing error."
                     end)).

End WithEnv.

End Rag.


(** ** The insights module *)

Module Insights.
Import Schema Effects Supabase.

(** Number of chunks to process per batch *)
Definition CHUNKS_PER_GROUP : nat := 10.

Definition LF : string := String (ascii_of_N 10) EmptyString.

(** [`insight-${documentId.slice(0, 8)}-${index}`] *)
Definition final_id (documentId : string) (index : nat) : string :=
  "insight-" +:+ JS.slice0 8 documentId +:+ "-" +:+ pretty index.

(** [`insight-${documentId.slice(0, 8)}-g${groupIndex}-${i}`] *)
Definition group_id (documentId : string) (groupIndex i : nat) : string :=
  "insight-" +:+ JS.slice0 8 documentId +:+ "-g" +:+ pretty groupIndex
  +:+ "-" +:+ pretty i.

Definition copy_source (s : LocalSource.t) : LocalSource.t :=
  {| LocalSource.page := LocalSource.page s;
     LocalSource.section := LocalSource.section s;
     LocalSource.quote := LocalSource.quote s |}.

Definition copy_direction (rd : ResearchDirection.t) : ResearchDirection.t :=
  {| ResearchDirection.category := ResearchDirection.category rd;
     ResearchDirection.title := ResearchDirection.title rd;
     ResearchDirection.description := ResearchDirection.description rd |}.

(** The object literal that both [assignIds] and [extractGroupInsights]
    build from a raw insight. *)
Definition typed (newId : string) (item : RawInsight.t) : Insight.t :=
  {| Insight.id := newId;
     Insight.title := RawInsight.title item;
     Insight.description := RawInsight.description item;
     Insight.sources := copy_source <$> default [] (RawInsight.sources item);
     Insight.researchDirections :=
       copy_direction <$> default [] (RawInsight.researchDirections item) |}.

(** Convert raw insights to typed Insight objects with IDs *)
Definition assignIds (raw : list RawInsight.t) (documentId : string)
    : list Insight.t :=
  imap (λ index item, typed (final_id documentId index) item) raw.

(** [allInsights.map((item, index) => ({ ...item, id: ... }))] *)
Definition reassign_ids (documentId : string) (allInsights : list Insight.t)
    : list Insight.t :=
  imap (λ index item, Insight.with_id item (final_id documentId index)) allInsights.

(** [({ id: _id, ...rest }) => rest] *)
Definition strip_id (item : Insight.t) : RawInsight.t :=
  {| RawInsight.title := Insight.title item;
     RawInsight.description := Insight.description item;
     RawInsight.sources := Some (Insight.sources item);
     RawInsight.researchDirections := Some (Insight.researchDirections item) |}.

Definition chunk_label (c : ChunkRow.t) : string :=
  "[Chunk " +:+ pretty (ChunkRow.chunk_index c)
  +:+ ", Pages " +:+ pretty (ChunkRow.page_start c)
  +:+ "-" +:+ pretty (ChunkRow.page_end c) +:+ "]" +:+ LF
  +:+ ChunkRow.content c.

Definition extract_request (groupIndex totalGroups : nat)
    (chunks : list ChunkRow.t) : GenerateRequest :=
  let context := JS.join (LF +:+ LF +:+ "---" +:+ LF +:+ LF) (chunk_label <$> chunks) in
  {| model := "gemini-2.5-flash";
     systemInstruction := EXTRACT_PROMPT;
     temperature := 4 # 10;
     maxOutputTokens := 16000;
     responseMimeType := "application/json";
     prompt :=
       "Here are text chunks from section " +:+ pretty (groupIndex + 1)%nat
       +:+ " of " +:+ pretty totalGroups +:+ " of the document:" +:+ LF +:+ LF
       +:+ context +:+ LF +:+ LF
       +:+ "Extract all key insights from these chunks." |}.

Definition merge_request (stringified : string) : GenerateRequest :=
  {| model := "gemini-2.5-flash";
     systemInstruction := MERGE_PROMPT;
     temperature := 3 # 10;
     maxOutputTokens := 32000;
     responseMimeType := "application/json";
     prompt :=
       "Here are all the raw insights extracted from different sections of the document:"
       +:+ LF +:+ LF +:+ stringified +:+ LF +:+ LF
       +:+ "Merge overlapping insights and deduplicate while preserving all distinct findings." |}.

(** The rows that [extractGroupInsights] asks for, and the request. *)
Definition group_rows (documentId : string) (groupIndex : nat) (w : World)
    : list ChunkRow.t :=
  range (groupIndex * 10) (groupIndex * 10 + 9)
    (ordered_rows_of documentId (document_chunks w)).

Definition group_request (documentId : string) (groupIndex : nat) : Request :=
  RangeChunks documentId (groupIndex * 10) (groupIndex * 10 + 9).

(** What a list of started computations does to the world, in the order
    in which they were started, and how each one settles. *)
Fixpoint settle_all {A} (ms : list (M A)) (w : World) : list (Outcome A) * World :=
  match ms with
  | [] => ([], w)
  | m :: rest =>
      let '(o, w1) := m w in
      let '(os, w2) := settle_all rest w1 in
      (o :: os, w2)
  end.

Fixpoint fulfilled {A} (os : list (Outcome A)) : Outcome (list A) :=
  match os with
  | [] => Return []
  | Throw e :: _ => Throw e
  | Return a :: rest =>
      match fulfilled rest with
      | Return l => Return (a :: l)
      | Throw e => Throw e
      end
  end.

(** [await Promise.all(ms)]: every computation runs; the result is the
    list of the results, or a rejection when one of them rejects.  The
    server actions are run here one after the other, by index. *)
Definition Promise_all {A} (ms : list (M A)) : M (list A) := λ w,
  let '(os, w') := settle_all ms w in (fulfilled os, w').

Section WithEnv.
Context (env : Env).

Definition getGeminiClient : M unit :=
  match GEMINI_API_KEY env with
  | Some apiKey =>
      if bool_decide (apiKey = "") then throw (Error Rag.NO_API_KEY) else mret ()
  | None => throw (Error Rag.NO_API_KEY)
  end.

(** [model.generateContent(prompt)], then [result.response.text()] *)
Definition generate (req : GenerateRequest) : M string :=
  seen ← send (GenerateContent req);
  match generateContent env seen req with
  | inl e => throw e
  | inr text => mret text
  end.

(** [JSON.parse(responseText) as RawInsight[]] *)
Definition parse (responseText : string) : M (list RawInsight.t) :=
  match JSON_parse env responseText with
  | inl message => throw (Error message)
  | inr raw => mret raw
  end.

Definition getCachedInsights (documentId : string) : M (option (list Insight.t)) :=
  r ← select_insights env documentId;
  match error r, data r with
  | None, Some insights =>
      if bool_decide (0 < length insights)%nat
      then mret (Some insights)
      else mret None
  | _, _ => mret None
  end.

Definition cacheInsights (documentId : string) (insights : list Insight.t)
    : M unit :=
  _ ← upsert_insights env documentId insights;
  mret ().

Definition getCachedDocumentInsights (documentId : string)
    : M (option (list Insight.t)) :=
  getCachedInsights documentId.

Definition getInsightPlan (documentId : string) : M (option InsightPlan.t) :=
  r ← count_chunks env documentId;
  match error r, count r with
  | None, Some count =>
      if bool_decide (count = 0%nat) then mret None
      else mret (Some
             {| InsightPlan.totalChunks := Z.of_nat count;
                InsightPlan.totalGroups :=
                  JS.ceil_div (Z.of_nat count) (Z.of_nat CHUNKS_PER_GROUP) |})
  | _, _ => mret None
  end.

Definition extractGroupInsights (documentId : string)
    (groupIndex totalGroups : nat) : M (list Insight.t) :=
  _ ← getGeminiClient;
  let offset := (groupIndex * CHUNKS_PER_GROUP)%nat in
  r ← range_chunks env documentId offset (offset + CHUNKS_PER_GROUP - 1)%nat;
  match error r, data r with
  | None, Some chunks =>
      if bool_decide (length chunks = 0%nat) then mret []
      else
        text ← generate (extract_request groupIndex totalGroups chunks);
        let responseText := JS.trim text in
        if bool_decide (responseText = "") then mret []
        else
          raw ← parse responseText;
          mret (imap (λ i item, typed (group_id documentId groupIndex i) item) raw)
  | _, _ => mret []
  end.

Definition mergeAndCacheInsights (documentId : string)
    (allInsights : list Insight.t) : M (list Insight.t) :=
  if bool_decide (length allInsights ≤ 6)%nat then
    let final := reassign_ids documentId allInsights in
    _ ← cacheInsights documentId final;
    mret final
  else
    _ ← getGeminiClient;
    let stripped := strip_id <$> allInsights in
    text ← generate (merge_request (JSON_stringify env stripped));
    let responseText := JS.trim text in
    if bool_decide (responseText = "") then
      let final := reassign_ids documentId allInsights in
      _ ← cacheInsights documentId final;
      mret final
    else
      merged ← parse responseText;
      let final := assignIds merged documentId in
      _ ← cacheInsights documentId final;
      mret final.

Definition generateInsights (documentId : string) : M (list Insight.t) :=
  cached ← getCachedInsights documentId;
  match cached with
  | Some insights => mret insights
  | None =>
      plan ← getInsightPlan documentId;
      match plan with
      | None => mret []
      | Some plan =>
          let totalGroups := Z.to_nat (InsightPlan.totalGroups plan) in
          groupResults ← Promise_all
            ((λ i, extractGroupInsights documentId i totalGroups)
               <$> seq 0 totalGroups);
          let allInsights := concat groupResults in
          if bool_decide (length allInsights = 0%nat) then mret []
          else mergeAndCacheInsights documentId allInsights
      end
  end.

Definition regenerateInsights (documentId : string) : M (list Insight.t) :=
  _ ← delete_insights env documentId;
  generateInsights documentId.

(** The group extractions that [generateInsights] starts for a plan. *)
Definition group_runs (documentId : string) (plan : InsightPlan.t)
    : list (M (list Insight.t)) :=
  let totalGroups := Z.to_nat (InsightPlan.totalGroups plan) in
  (λ i, extractGroupInsights documentId i totalGroups) <$> seq 0 totalGroups.

(** The database after [cacheInsights(documentId, insights)]. *)
Definition cached (documentId : string) (insights : list Insight.t)
    (w : World) : World :=
  match db_error env (log w) (UpsertInsights documentId insights) with
  | Some _ => logged (UpsertInsights documentId insights) w
  | None => set_document_insights (insert documentId insights)
              (logged (UpsertInsights documentId insights) w)
  end.

End WithEnv.

End Insights.

(** ** JSON texts

    A reader for JSON texts (ECMA-404) and a writer for lists of raw
    insights, used by the concrete environments below where the code calls
    [JSON.parse] and [JSON.stringify].  Numbers are rationals; the page of a
    source is read as an integer. *)

Module Json.
Import Schema.

#[local] Unset Elimination Schemes.
Inductive value :=
| Null
| Bool (b : bool)
| Number (q : Q)
| Str (s : string)
| Array (items : list value)
| Object (members : list (string * value)).
#[local] Set Elimination Schemes.

Definition QUOTE : ascii := "034"%char.
Definition BACKSLASH : ascii := "\"%char.

Definition is_ws (c : ascii) : bool :=
  bool_decide (N_of_ascii c ∈ [9; 10; 13; 32]%N).

Fixpoint skip_ws (s : string) : string :=
  match s with
  | String c r => if is_ws c then skip_ws r else s
  | EmptyString => s
  end.

Definition digit (c : ascii) : option Z :=
  let n := Z.of_N (N_of_ascii c) in
  if bool_decide (48 ≤ n ≤ 57) then Some (n - 48) else None.

Definition hex_digit (c : ascii) : option Z :=
  let n := Z.of_N (N_of_ascii c) in
  if bool_decide (48 ≤ n ≤ 57) then Some (n - 48)
  else if bool_decide (65 ≤ n ≤ 70) then Some (n - 55)
  else if bool_decide (97 ≤ n ≤ 102) then Some (n - 87)
  else None.

(** [[0-9]*]: the value read after [acc], the number of digits, the rest. *)
Fixpoint digits (s : string) (acc : Z) (count : nat) : Z * nat * string :=
  match s with
  | String c r =>
      match digit c with
      | Some d => digits r (10 * acc + d) (S count)
      | None => (acc, count, s)
      end
  | EmptyString => (acc, count, s)
  end.

Definition fraction (s : string) : option (Q * string) :=
  match s with
  | String "." r =>
      let '(v, count, rest) := digits r 0 0 in
      if bool_decide (count = 0%nat) then None
      else Some (inject_Z v / inject_Z (10 ^ Z.of_nat count), rest)%Q
  | _ => Some (0%Q, s)
  end.

Definition exponent (s : string) : option (Z * string) :=
  let signed (negative : bool) (r : string) :=
    let '(v, count, rest) := digits r 0 0 in
    if bool_decide (count = 0%nat) then None
    else Some (if negative then - v else v, rest) in
  match s with
  | String c r =>
      if bool_decide (c ∈ ["e"; "E"]%char) then
        match r with
        | String "-" r' => signed true r'
        | String "+" r' => signed false r'
        | _ => signed false r
        end
      else Some (0, s)
  | EmptyString => Some (0, s)
  end.

(** An optional minus sign, an integer part without a leading zero, an
    optional fraction and an optional exponent. *)
Definition number (s : string) : option (Q * string) :=
  let '(negative, s1) :=
    match s with
    | String "-" r => (true, r)
    | _ => (false, s)
    end in
  match s1 with
  | String c r =>
      d0 ← digit c;
      let '(int, s2) :=
        if bool_decide (d0 = 0) then (0, r)
        else let '(v, _, rest) := digits r d0 1 in (v, rest) in
      '(frac, s3) ← fraction s2;
      '(e, s4) ← exponent s3;
      let magnitude := ((inject_Z int + frac) * inject_Z 10 ^ e)%Q in
      Some (Qred (if negative then - magnitude else magnitude)%Q, s4)
  | EmptyString => None
  end.

Definition unescape (c : ascii) : option ascii :=
  if bool_decide (c = QUOTE) then Some QUOTE
  else if bool_decide (c = BACKSLASH) then Some BACKSLASH
  else if bool_decide (c = "/"%char) then Some "/"%char
  else if bool_decide (c = "b"%char) then Some (ascii_of_N 8)
  else if bool_decide (c = "f"%char) then Some (ascii_of_N 12)
  else if bool_decide (c = "n"%char) then Some (ascii_of_N 10)
  else if bool_decide (c = "r"%char) then Some (ascii_of_N 13)
  else if bool_decide (c = "t"%char) then Some (ascii_of_N 9)
  else None.

(** The characters of a string after its opening quote, up to the closing
    one.  An escape [\uXXXX] of a code unit above 255 has no character
    here and is refused. *)
Fixpoint string_body (s : string) (acc : string) : option (string * string) :=
  match s with
  | EmptyString => None
  | String c r =>
      if bool_decide (c = QUOTE) then Some (acc, r)
      else if bool_decide (c = BACKSLASH) then
        match r with
        | String "u" (String h1 (String h2 (String h3 (String h4 r')))) =>
            match hex_digit h1, hex_digit h2, hex_digit h3, hex_digit h4 with
            | Some 0, Some 0, Some d3, Some d4 =>
                string_body r' (acc +:+ String (ascii_of_N (Z.to_N (16 * d3 + d4))) "")
            | _, _, _, _ => None
            end
        | String e r' =>
            match unescape e with
            | Some ch => string_body r' (acc +:+ String ch "")
            | None => None
            end
        | EmptyString => None
        end
      else if bool_decide (N_of_ascii c < 32)%N then None
      else string_body r (acc +:+ String c "")
  end.

Definition literal (word : string) (v : value) (s : string) : option (value * string) :=
  if String.prefix word s
  then Some (v, String.substring (String.length word) (String.length s) s)
  else None.

Fixpoint read_value (fuel : nat) (s : string) : option (value * string) :=
  match fuel with
  | O => None
  | S fuel' =>
      match skip_ws s with
      | String "[" r =>
          match skip_ws r with
          | String "]" r' => Some (Array [], r')
          | r1 => read_elements fuel' r1 []
          end
      | String "{" r =>
          match skip_ws r with
          | String "}" r' => Some (Object [], r')
          | r1 => read_members fuel' r1 []
          end
      | String "034" r =>
          '(str, rest) ← string_body r "";
          Some (Str str, rest)
      | String "t" _ as s1 => literal "true" (Bool true) s1
      | String "f" _ as s1 => literal "false" (Bool false) s1
      | String "n" _ as s1 => literal "null" Null s1
      | s1 =>
          '(q, rest) ← number s1;
          Some (Number q, rest)
      end
  end
with read_elements (fuel : nat) (s : string) (acc : list value)
    : option (value * string) :=
  match fuel with
  | O => None
  | S fuel' =>
      '(v, r) ← read_value fuel' s;
      match skip_ws r with
      | String "," r' => read_elements fuel' r' (acc ++ [v])
      | String "]" r' => Some (Array (acc ++ [v]), r')
      | _ => None
      end
  end
with read_members (fuel : nat) (s : string) (acc : list (string * value))
    : option (value * string) :=
  match fuel with
  | O => None
  | S fuel' =>
      match skip_ws s with
      | String "034" r =>
          '(key, r1) ← string_body r "";
          match skip_ws r1 with
          | String ":" r2 =>
              '(v, r3) ← read_value fuel' r2;
              match skip_ws r3 with
              | String "," r' => read_members fuel' r' (acc ++ [(key, v)])
              | String "}" r' => Some (Object (acc ++ [(key, v)]), r')
              | _ => None
              end
          | _ => None
          end
      | _ => None
      end
  end.

(** A whole text is one value between optional white space. *)
Definition read (s : string) : option value :=
  '(v, rest) ← read_value (2 * String.length s + 2) s;
  if bool_decide (skip_ws rest = "") then Some v else None.


(** *** Reading an array of raw insights *)

(** A repeated key keeps its last value. *)
Definition member (key : string) (members : list (string * value)) : option value :=
  snd <$> last (filter (λ kv, kv.1 = key) members).

Definition as_string (v : option value) : option string :=
  match v with
  | Some (Str s) => Some s
  | _ => None
  end.

Definition as_integer (v : option value) : option Z :=
  match v with
  | Some (Number q) =>
      if bool_decide (Qden q = 1%positive) then Some (Qnum q) else None
  | _ => None
  end.

(** A list that may be missing or [null]. *)
Definition as_list {A} (item : value → option A) (v : option value)
    : option (option (list A)) :=
  match v with
  | None | Some Null => Some None
  | Some (Array items) => Some <$> mapM item items
  | Some _ => None
  end.

Definition as_source (v : value) : option LocalSource.t :=
  match v with
  | Object m =>
      page ← as_integer (member "page" m);
      section ← as_string (member "section" m);
      quote ← as_string (member "quote" m);
      Some {| LocalSource.page := page;
              LocalSource.section := section;
              LocalSource.quote := quote |}
  | _ => None
  end.

Definition as_direction (v : value) : option ResearchDirection.t :=
  match v with
  | Object m =>
      category ← as_string (member "category" m);
      title ← as_string (member "title" m);
      description ← as_string (member "description" m);
      Some {| ResearchDirection.category := category;
              ResearchDirection.title := title;
              ResearchDirection.description := description |}
  | _ => None
  end.

Definition as_raw_insight (v : value) : option RawInsight.t :=
  match v with
  | Object m =>
      title ← as_string (member "title" m);
      description ← as_string (member "description" m);
      sources ← as_list as_source (member "sources" m);
      researchDirections ← as_list as_direction (member "researchDirections" m);
      Some {| RawInsight.title := title;
              RawInsight.description := description;
              RawInsight.sources := sources;
              RawInsight.researchDirections := researchDirections |}
  | _ => None
  end.

(** [JSON.parse(text) as RawInsight[]].  A text that is not JSON is a
    [SyntaxError]; a JSON text of another shape is outside what the type
    assertion describes, and this reader refuses it too. *)
Definition parse (text : string) : string + list RawInsight.t :=
  match read text with
  | None => inl "Unexpected token in JSON"
  | Some (Array items) =>
      match mapM as_raw_insight items with
      | Some raw => inr raw
      | None => inl "not an array of insights"
      end
  | Some _ => inl "not an array of insights"
  end.

(** *** Writing a list of raw insights, indented by two spaces *)

Definition LF : string := String (ascii_of_N 10) EmptyString.

Definition hex (n : N) : ascii :=
  ascii_of_N (if bool_decide (n < 10)%N then 48 + n else 87 + n).

Definition escape (c : ascii) : string :=
  let n := N_of_ascii c in
  if bool_decide (c = QUOTE) then String BACKSLASH (String QUOTE "")
  else if bool_decide (c = BACKSLASH) then String BACKSLASH (String BACKSLASH "")
  else if bool_decide (n = 8)%N then "\b"
  else if bool_decide (n = 12)%N then "\f"
  else if bool_decide (n = 10)%N then "\n"
  else if bool_decide (n = 13)%N then "\r"
  else if bool_decide (n = 9)%N then "\t"
  else if bool_decide (n < 32)%N
    then "\u00" +:+ String (hex (n `div` 16)) (String (hex (n `mod` 16)) "")
  else String c "".

Fixpoint escaped (s : string) : string :=
  match s with
  | EmptyString => EmptyString
  | String c r => escape c +:+ escaped r
  end.

Definition quoted (s : string) : string :=
  String QUOTE (escaped s) +:+ String QUOTE "".

Definition indent (depth : nat) : string :=
  String.concat "" (replicate (2 * depth) " ").

Definition block (opening closing : string) (depth : nat) (items : list string)
    : string :=
  match items with
  | [] => opening +:+ closing
  | _ =>
      opening +:+ LF
      +:+ String.concat ("," +:+ LF) ((λ i, indent (S depth) +:+ i) <$> items)
      +:+ LF +:+ indent depth +:+ closing
  end.

Definition array (depth : nat) (items : list string) : string :=
  block "[" "]" depth items.

Definition object (depth : nat) (members : list (string * string)) : string :=
  block "{" "}" depth ((λ kv, quoted kv.1 +:+ ": " +:+ kv.2) <$> members).

Definition write_source (depth : nat) (s : LocalSource.t) : string :=
  object depth
    [("type", quoted "local");
     ("page", pretty (LocalSource.page s));
     ("section", quoted (LocalSource.section s));
     ("quote", quoted (LocalSource.quote s))].

Definition write_direction (depth : nat) (rd : ResearchDirection.t) : string :=
  object depth
    [("category", quoted (ResearchDirection.category rd));
     ("title", quoted (ResearchDirection.title rd));
     ("description", quoted (ResearchDirection.description rd))].

(** A missing list is [undefined]; its key is not written. *)
Definition write_list {A} (key : string) (write : A → string)
    (depth : nat) (l : option (list A)) : list (string * string) :=
  match l with
  | Some items => [(key, array depth (write <$> items))]
  | None => []
  end.

Definition write_raw_insight (depth : nat) (item : RawInsight.t) : string :=
  object depth
    ([("title", quoted (RawInsight.title item));
      ("description", quoted (RawInsight.description item))]
     ++ write_list "sources" (write_source (depth + 2)) (S depth)
          (RawInsight.sources item)
     ++ write_list "researchDirections" (write_direction (depth + 2)) (S depth)
          (RawInsight.researchDirections item)).

(** [JSON.stringify(raw, null, 2)] *)
Definition stringify (raw : list RawInsight.t) : string :=
  array 0 (write_raw_insight 1 <$> raw).

End Json.

(** ** Concrete runs

    A document, environments and database states on which the functions
    above are evaluated. *)

Module Scenario.
Import Schema Effects Supabase.

Definition DOC : string := "3f2a9c1e-7b4d-4e1a-9c0f-5d2e8a6b1c3d".

Definition source (n : nat) : LocalSource.t :=
  {| LocalSource.page := Z.of_nat n + 1;
     LocalSource.section := "Section " +:+ pretty n;
     LocalSource.quote := "quoted passage " +:+ pretty n |}.

Definition direction (n : nat) : ResearchDirection.t :=
  {| ResearchDirection.category := "Adjacent Field";
     ResearchDirection.title := "Direction " +:+ pretty n;
     ResearchDirection.description := "Why direction " +:+ pretty n +:+ " matters." |}.

Definition raw (n : nat) : RawInsight.t :=
  {| RawInsight.title := "Finding " +:+ pretty n;
     RawInsight.description := "What finding " +:+ pretty n +:+ " says.";
     RawInsight.sources := Some [source n];
     RawInsight.researchDirections := Some [direction n; direction (n + 1)] |}.

(** A candidate as [extractGroupInsights] produces it for group 0. *)
Definition candidate (n : nat) : Insight.t :=
  Insights.typed (Insights.group_id DOC 0 n) (raw n).

Definition candidates (count : nat) : list Insight.t := candidate <$> seq 0 count.

Definition row (n : nat) : ChunkRow.t :=
  {| ChunkRow.document_id := DOC;
     ChunkRow.chunk_index := n;
     ChunkRow.content := "Content of chunk " +:+ pretty n +:+ ".";
     ChunkRow.page_start := Z.of_nat n + 1;
     ChunkRow.page_end := Z.of_nat n + 2;
     ChunkRow.token_count := 5;
     ChunkRow.embedding := Some [1 # 2; 1 # 4] |}.

Definition document : Document.t :=
  {| Document.file_url := "user-1/" +:+ DOC +:+ "/paper.pdf";
     Document.total_pages := None;
     Document.status := processing |}.

(** The database after an upload, with [count] chunk rows of [DOC]. *)
Definition world (count : nat) : World :=
  {| documents := {[ DOC := document ]};
     document_chunks := row <$> seq 0 count;
     document_insights := ∅;
     log := [] |}.

Definition two_pages : TextResult.t :=
  {| TextResult.pages :=
       [ {| TextResult.num := 1; TextResult.text := "First page. It has two sentences." |};
         {| TextResult.num := 2; TextResult.text := "Second page!" |} ];
     TextResult.total := 2 |}.

Definition no_pages : TextResult.t :=
  {| TextResult.pages := []; TextResult.total := 3 |}.

(** One vector per text. *)
Definition vectors_of (texts : list string) : list (list number) :=
  (λ t, [inject_Z (Z.of_nat (String.length t)); 1 # 2]%Q) <$> texts.

Definition embed (texts : list string) : EmbedReply := EmbedOk (vectors_of texts).

(** Services that all answer; the model answers an extraction with two
    insights and a merge with three, as JSON texts. *)
Definition answering (key : option string) (parsed : TextResult.t)
    (reply : GenerateRequest → string) : Env :=
  {| GEMINI_API_KEY := key;
     db_error := λ _ _, None;
     storage_download := λ _ _, inr [Byte.x25; Byte.x50; Byte.x44; Byte.x46];
     getText := λ _, inr parsed;
     batchEmbedContents := λ _ texts _, embed texts;
     generateContent := λ _ req, inr (reply req);
     JSON_parse := Json.parse;
     JSON_stringify := Json.stringify |}.

Definition json_reply (req : GenerateRequest) : string :=
  match systemInstruction req with
  | EXTRACT_PROMPT => Json.stringify [raw 0; raw 1]
  | MERGE_PROMPT => Json.stringify [raw 0; raw 1; raw 2]
  end.

(** A model that answers in prose instead of JSON. *)
Definition prose_reply (req : GenerateRequest) : string :=
  "I could not find any insights in this section.".

(** A model whose answer is white space only. *)
Definition blank_reply (req : GenerateRequest) : string := "  " +:+ Insights.LF.

(** The embedding endpoint refuses every batch after the first. *)
Definition rate_limited (e : Env) : Env :=
  {| GEMINI_API_KEY := GEMINI_API_KEY e;
     db_error := db_error e;
     storage_download := storage_download e;
     getText := getText e;
     batchEmbedContents := λ seen texts taskType,
       if bool_decide (length seen < 1)%nat then embed texts
       else EmbedStatus 429 "RESOURCE_EXHAUSTED";
     generateContent := generateContent e;
     JSON_parse := JSON_parse e;
     JSON_stringify := JSON_stringify e |}.

Definition SENTENCE : string := "Lorem ipsum dolor sit amet.".

(** A page of [count] sentences of seven estimated tokens each. *)
Definition long_page (num : Z) (count : nat) : Rag.PageText :=
  {| Rag.page := num; Rag.text := JS.join " " (replicate count SENTENCE) |}.

Definition long_pages : list Rag.PageText :=
  [long_page 1 150; long_page 2 20; long_page 4 150].

(** The loop variables of [chunkText] after 114 sentences of page 1. *)
Definition full_chunk : Rag.ChunkState :=
  foldl Rag.chunk_step (Rag.chunk_init (long_page 1 1))
    (replicate 114 {| Rag.page := 1; Rag.text := SENTENCE |}).

Definition texts (count : nat) : list string :=
  (λ n, "chunk text " +:+ pretty n) <$> seq 0 count.

Definition env : Env := answering (Some "test-key") two_pages json_reply.
Definition env_prose : Env := answering (Some "test-key") two_pages prose_reply.
Definition env_blank : Env := answering (Some "test-key") two_pages blank_reply.
Definition env_without_key : Env := answering None two_pages json_reply.
Definition env_scanned_pdf : Env := answering (Some "test-key") no_pages json_reply.

End Scenario.

(** ** Vocabulary for further statements *)

Module Vocabulary.
Import Schema Effects Supabase.

Definition is_substring (s t : string) : Prop :=
  ∃ before after, t = before +:+ s +:+ after.

(** The sentences of a chunk fit the chunk size, or they are an overlap
    within its budget followed by one sentence. *)
Definition within_soft_ceiling (cur : list string) : Prop :=
  Rag.tokens_of cur ≤ Rag.CHUNK_SIZE
  ∨ ∃ overlap sentence,
      cur = overlap ++ [sentence] ∧ Rag.tokens_of overlap ≤ Rag.CHUNK_OVERLAP.

Definition ends_before (c1 c2 : Rag.TextChunk) : Prop :=
  Rag.page_end c1 ≤ Rag.page_start c2.

(** The items [a <= i < b] of a list. *)
Definition segment {A} (a b : nat) (l : list A) : list A :=
  take (b - a) (drop a l).

(** The texts of the sentences [w.1 <= i < w.2] of the stream. *)
Definition window_texts (stream : list Rag.PageText) (w : nat * nat) : list string :=
  Rag.text <$> segment w.1 w.2 stream.

(** The chunk [c] holds the sentences [w.1 <= i < w.2] of the stream. *)
Record is_window (stream : list Rag.PageText) (w : nat * nat)
    (c : Rag.TextChunk) : Prop := {
  window_bounds : (w.1 < w.2 ≤ length stream)%nat;
  window_content : Rag.content c = JS.join " " (window_texts stream w);
  window_tokens : Rag.token_count c = Rag.estimateTokens (Rag.content c);
  window_page_end : Rag.page <$> stream !! (w.2 - 1)%nat = Some (Rag.page_end c);
  window_budget : within_soft_ceiling (window_texts stream w)
}.

(** The chunk [c'] of window [w'] is the one pushed after the chunk of
    window [w]: [w] was closed because the next sentence did not fit, [w']
    starts at the overlap of [w] and holds at least the next sentence,
    whose page is the [page_start] of [c']. *)
Record follows (stream : list Rag.PageText) (w w' : nat * nat)
    (c' : Rag.TextChunk) : Prop := {
  follows_full :
    ∃ s, stream !! w.2 = Some s
         ∧ Rag.CHUNK_SIZE
           < Rag.tokens_of (window_texts stream w) + Rag.estimateTokens (Rag.text s);
  follows_overlap :
    ∃ k, w'.1 = (w.1 + k)%nat ∧ Rag.is_overlap_start (window_texts stream w) k;
  follows_new : (w.2 < w'.2)%nat;
  follows_page : Rag.page <$> stream !! w.2 = Some (Rag.page_start c')
}.

(** The chunks [cs] are the windows [ws] of the stream, in order. *)
Record windows_of (stream : list Rag.PageText) (ws : list (nat * nat))
    (cs : list Rag.TextChunk) : Prop := {
  windows_each : Forall2 (is_window stream) ws cs;
  windows_first : ∀ w c,
    ws !! 0%nat = Some w → cs !! 0%nat = Some c →
    w.1 = 0%nat ∧ Rag.page <$> stream !! 0%nat = Some (Rag.page_start c);
  windows_next : ∀ i w w' c',
    ws !! i = Some w → ws !! S i = Some w' → cs !! S i = Some c' →
    follows stream w w' c'
}.


(** Between [w] and [w'] nothing changed in the tables but, possibly,
    the cache row of [documentId]. *)
Definition only_cache_row (documentId : string) (w w' : World) : Prop :=
  documents w' = documents w
  ∧ document_chunks w' = document_chunks w
  ∧ ∀ id, id ≠ documentId → document_insights w' !! id = document_insights w !! id.

Definition writes_only_cache_row {A} (documentId : string) (m : M A) : Prop :=
  ∀ w, only_cache_row documentId w (m w).2.

End Vocabulary.

(** ** The steps of the processing pipeline *)

Module Steps.
Import Schema Effects Supabase.

(** The database after [updateDocumentStatus(id, status, extraFields)]:
    the request is logged, and the row is changed unless the database
    answers with an error. *)
Definition document_updated (env : Env) (id : string) (status : Status)
    (extraFields : option Z) (w : World) : World :=
  let req := UpdateDocument id status extraFields in
  match db_error env (log w) req with
  | Some _ => logged req w
  | None =>
      set_documents
        (alter (λ d, {| Document.file_url := Document.file_url d;
                        Document.total_pages :=
                          match extraFields with
                          | Some n => Some n
                          | None => Document.total_pages d
                          end;
                        Document.status := status |}) id)
        (logged req w)
  end.

(** The [k]-th batch of rows: [rows.slice(50 k, 50 k + 50)]. *)
Definition row_batch (rows : list ChunkRow.t) (k : nat) : list ChunkRow.t :=
  take Rag.BATCH_SIZE (drop (k * Rag.BATCH_SIZE) rows).

Definition row_batch_count (rows : list ChunkRow.t) : nat :=
  ((length rows + (Rag.BATCH_SIZE - 1)) / Rag.BATCH_SIZE)%nat.

Definition row_batches (rows : list ChunkRow.t) : list (list ChunkRow.t) :=
  row_batch rows <$> seq 0 (row_batch_count rows).

Definition insert_requests (bs : list (list ChunkRow.t)) : list Request :=
  InsertChunks <$> bs.

Section WithEnv.
Context (env : Env).

(** The insertion loop of [processDocument] told batch by batch; the
    loop is shown below to run exactly like it. *)
Fixpoint insert_batches (documentId : string) (bs : list (list ChunkRow.t))
    : M (option Rag.ProcessResult) :=
  match bs with
  | [] => mret None
  | batch :: rest =>
      r ← insert_chunks env batch;
      match error r with
      | Some message =>
          _ ← Documents.updateDocumentStatus env documentId failed None;
          mret (Some (Rag.Failure ("Failed to store chunks: " +:+ message)))
      | None => insert_batches documentId rest
      end
  end.

(** The database accepts the insertion of every batch of [bs], in turn. *)
Fixpoint all_accepted (seen : list Request) (bs : list (list ChunkRow.t)) : Prop :=
  match bs with
  | [] => True
  | b :: bs' =>
      db_error env seen (InsertChunks b) = None
      ∧ all_accepted (seen ++ [InsertChunks b]) bs'
  end.

End WithEnv.

(** The world in which [processDocument] starts to embed: the record
    was fetched, the file downloaded, and the page count stored. *)
Definition extracted (env : Env) (documentId : string) (doc : Document.t)
    (totalPages : Z) (w : World) : World :=
  document_updated env documentId processing (Some totalPages)
    (logged (Download (Document.file_url doc))
       (logged (SelectDocument documentId) w)).

(** The world after the embedding requests for [texts]. *)
Definition embedded (texts : list string) (w : World) : World :=
  set_log (λ l, l ++ Rag.embed_requests RETRIEVAL_DOCUMENT (Rag.batches texts)) w.

(** The message that [processDocument] reports for a caught value. *)
Definition message_of (err : Exn) : string :=
  match err with
  | Error message => message
  | NonError => "Unknown processing error."
  end.

(** The pages that [extractTextFromPdf] makes of a parse result. *)
Definition pages_of (textResult : TextResult.t) : list Rag.PageText :=
  (λ p, {| Rag.page := TextResult.num p; Rag.text := TextResult.text p |})
    <$> TextResult.pages textResult.

End Steps.

(** ** The insights panel of the chat page

    [loadInsights] of the page component: the caller of the server
    actions of the insights module.  The state of the component is a
    record that the setters update; a thrown value leaves it as it is at
    the throw.  The ref [abortRef], which the cleanup of the effect sets
    when the component unmounts or the document changes, is read through
    [aborted], given the requests made so far.  One run of the callback is
    described, not two overlapping ones. *)

Module ChatPage.
Import Schema Effects Supabase.

Record View := {
  insights : list Insight.t;
  insightsLoading : bool;
  insightsError : bool;
  (** [{ current, total }] *)
  loadingProgress : option (Z * Z);
  isMerging : bool
}.

Definition setInsights (f : list Insight.t → list Insight.t) (v : View) : View :=
  {| insights := f (insights v);
     insightsLoading := insightsLoading v;
     insightsError := insightsError v;
     loadingProgress := loadingProgress v;
     isMerging := isMerging v |}.

Definition setInsightsLoading (b : bool) (v : View) : View :=
  {| insights := insights v;
     insightsLoading := b;
     insightsError := insightsError v;
     loadingProgress := loadingProgress v;
     isMerging := isMerging v |}.

Definition setInsightsError (b : bool) (v : View) : View :=
  {| insights := insights v;
     insightsLoading := insightsLoading v;
     insightsError := b;
     loadingProgress := loadingProgress v;
     isMerging := isMerging v |}.

Definition setLoadingProgress (p : option (Z * Z)) (v : View) : View :=
  {| insights := insights v;
     insightsLoading := insightsLoading v;
     insightsError := insightsError v;
     loadingProgress := p;
     isMerging := isMerging v |}.

Definition setIsMerging (b : bool) (v : View) : View :=
  {| insights := insights v;
     insightsLoading := insightsLoading v;
     insightsError := insightsError v;
     loadingProgress := loadingProgress v;
     isMerging := b |}.

(** The computations of the page. *)
Definition Page (A : Type) : Type := View → World → Outcome A * View * World.

#[export] Instance Page_ret : MRet Page := λ A a v w, (Return a, v, w).

#[export] Instance Page_bind : MBind Page := λ A B f m v w,
  match m v w with
  | (Return a, v', w') => f a v' w'
  | (Throw e, v', w') => (Throw e, v', w')
  end.

(** [await action(...)] *)
Definition call {A} (action : M A) : Page A := λ v w,
  let '(o, w') := action w in (o, v, w').

(** A call of setters. *)
Definition update (f : View → View) : Page unit := λ v w, (Return (), f v, w).

Definition page_try_catch {A} (body : Page A) (handler : Exn → Page A) : Page A :=
  λ v w,
    match body v w with
    | (Return a, v', w') => (Return a, v', w')
    | (Throw e, v', w') => handler e v' w'
    end.

(** The update of [setInsights((prev) => ...)] in the loop: the cards
    of the group whose id is not yet shown are appended. *)
Definition append_new (groupInsights prev : list Insight.t) : list Insight.t :=
  prev ++ filter (λ g, Insight.id g ∉ Insight.id <$> prev) groupInsights.

Section WithEnv.
Context (env : Env) (aborted : list Request → bool).

(** [abortRef.current] *)
Definition abortRef_current : Page bool := λ v w, (Return (aborted (log w)), v, w).

(** [for (let i = 0; i < plan.totalGroups; i++)], from the state
    [(i, allGroupInsights)].  The result is [None] when the callback
    returns from inside the loop, and the final [allGroupInsights]
    otherwise.  [fuel] bounds the number of iterations; [totalGroups] of
    them are all the loop makes. *)
Fixpoint group_loop (fuel : nat) (documentId : string) (totalGroups : Z)
    (i : nat) (allGroupInsights : list Insight.t) : Page (option (list Insight.t)) :=
  match fuel with
  | O => mret (Some allGroupInsights)
  | S fuel' =>
      if bool_decide (Z.of_nat i < totalGroups) then
        stop ← abortRef_current;
        if stop : bool then mret None
        else
          update (setLoadingProgress (Some (Z.of_nat i + 1, totalGroups)));;
          groupInsights ← call (Insights.extractGroupInsights env documentId i
                                  (Z.to_nat totalGroups));
          let allGroupInsights := allGroupInsights ++ groupInsights in
          stop ← abortRef_current;
          if stop : bool then mret None
          else
            update (setInsights (append_new groupInsights));;
            group_loop fuel' documentId totalGroups (S i) allGroupInsights
      else mret (Some allGroupInsights)
  end.

(** Step 5: merge and cache in the background. *)
Definition merge_step (documentId : string) (allGroupInsights : list Insight.t)
    : Page unit :=
  if bool_decide (0 < length allGroupInsights)%nat then
    update (setIsMerging true);;
    page_try_catch
      (merged ← call (Insights.mergeAndCacheInsights env documentId allGroupInsights);
       stop ← abortRef_current;
       if stop : bool then mret () else update (setInsights (λ _, merged)))
      (λ mergeErr, mret ());;
    stop ← abortRef_current;
    if stop : bool then mret () else update (setIsMerging false)
  else mret ().

(** [documentId] is the query parameter, absent or possibly empty. *)
Definition loadInsights (documentId : option string) : Page unit :=
  match documentId with
  | None => update (setInsightsLoading false)
  | Some documentId =>
      if bool_decide (documentId = "") then update (setInsightsLoading false)
      else
        update (λ v, setIsMerging false
                    (setLoadingProgress None
                       (setInsights (λ _, [])
                          (setInsightsError false (setInsightsLoading true v)))));;
        page_try_catch
          (cached ← call (Insights.getCachedDocumentInsights env documentId);
           match cached with
           | Some (first :: rest) =>
               update (λ v, setInsightsLoading false
                           (setInsights (λ _, first :: rest) v))
           | _ =>
               plan ← call (Insights.getInsightPlan env documentId);
               match plan with
               | None =>
                   update (λ v, setInsightsLoading false (setInsights (λ _, []) v))
               | Some plan =>
                   let totalGroups := InsightPlan.totalGroups plan in
                   update (setLoadingProgress (Some (0, totalGroups)));;
                   looped ← group_loop (Z.to_nat totalGroups) documentId
                              totalGroups 0 [];
                   match looped with
                   | None => mret ()
                   | Some allGroupInsights =>
                       stop ← abortRef_current;
                       if stop : bool then mret ()
                       else
                         update (λ v, setLoadingProgress None
                                     (setInsightsLoading false v));;
                         merge_step documentId allGroupInsights
                   end
               end
           end)
          (λ err,
             stop ← abortRef_current;
             if stop : bool then mret ()
             else update (λ v, setLoadingProgress None
                              (setInsightsLoading false
                                 (setInsightsError true v))))
  end.

End WithEnv.

End ChatPage.

(** ** Further environments *)

Module Cases.
Import Schema Effects Supabase.

Definition with_db_error (f : list Request → Request → option string) (e : Env)
    : Env :=
  {| GEMINI_API_KEY := GEMINI_API_KEY e;
     db_error := f;
     storage_download := storage_download e;
     getText := getText e;
     batchEmbedContents := batchEmbedContents e;
     generateContent := generateContent e;
     JSON_parse := JSON_parse e;
     JSON_stringify := JSON_stringify e |}.

Definition with_storage (f : list Request → string → string + list Byte.byte)
    (e : Env) : Env :=
  {| GEMINI_API_KEY := GEMINI_API_KEY e;
     db_error := db_error e;
     storage_download := f;
     getText := getText e;
     batchEmbedContents := batchEmbedContents e;
     generateContent := generateContent e;
     JSON_parse := JSON_parse e;
     JSON_stringify := JSON_stringify e |}.

Definition with_getText (f : list Byte.byte → Exn + TextResult.t) (e : Env) : Env :=
  {| GEMINI_API_KEY := GEMINI_API_KEY e;
     db_error := db_error e;
     storage_download := storage_download e;
     getText := f;
     batchEmbedContents := batchEmbedContents e;
     generateContent := generateContent e;
     JSON_parse := JSON_parse e;
     JSON_stringify := JSON_stringify e |}.

Definition with_embedding
    (f : list Request → list string → TaskType → EmbedReply) (e : Env) : Env :=
  {| GEMINI_API_KEY := GEMINI_API_KEY e;
     db_error := db_error e;
     storage_download := storage_download e;
     getText := getText e;
     batchEmbedContents := f;
     generateContent := generateContent e;
     JSON_parse := JSON_parse e;
     JSON_stringify := JSON_stringify e |}.

Definition with_model (f : list Request → GenerateRequest → Exn + string)
    (e : Env) : Env :=
  {| GEMINI_API_KEY := GEMINI_API_KEY e;
     db_error := db_error e;
     storage_download := storage_download e;
     getText := getText e;
     batchEmbedContents := batchEmbedContents e;
     generateContent := f;
     JSON_parse := JSON_parse e;
     JSON_stringify := JSON_stringify e |}.

Definition PDF : list Byte.byte := [Byte.x25; Byte.x50; Byte.x44; Byte.x46].

(** The file is gone from the bucket. *)
Definition env_missing_file : Env :=
  with_storage (λ _ _, inl "Object not found") Scenario.env.

(** The parser rejects the file. *)
Definition env_corrupt_pdf : Env :=
  with_getText (λ _, inl (Error "Invalid PDF structure.")) Scenario.env.

(** Two pages without text, as a scan has them. *)
Definition blank_pages : TextResult.t :=
  {| TextResult.pages :=
       [ {| TextResult.num := 1; TextResult.text := "   " |};
         {| TextResult.num := 2; TextResult.text := "" |} ];
     TextResult.total := 2 |}.

Definition env_blank_pages : Env :=
  Scenario.answering (Some "test-key") blank_pages Scenario.json_reply.

(** The endpoint answers every batch without vectors. *)
Definition env_no_vectors : Env :=
  with_embedding (λ _ _ _, EmbedOk []) Scenario.env.



(** The database refuses to delete cache rows. *)
Definition env_no_delete : Env :=
  with_db_error (λ _ req, match req with
                          | DeleteInsights _ => Some "permission denied"
                          | _ => None
                          end)
    Scenario.env_without_key.

(** The database after insights were cached for [Scenario.DOC]. *)
Definition world_with_cache (count : nat) (insights : list Insight.t) : World :=
  set_document_insights (insert Scenario.DOC insights) (Scenario.world count).

(** The model extracts insights as JSON but answers the merge in prose. *)
Definition merge_in_prose (req : GenerateRequest) : string :=
  match systemInstruction req with
  | EXTRACT_PROMPT => Json.stringify [Scenario.raw 0; Scenario.raw 1]
  | MERGE_PROMPT => "Here are the merged insights you asked for."
  end.

Definition env_merge_fails : Env :=
  Scenario.answering (Some "test-key") Scenario.two_pages merge_in_prose.

(** The results of a list of settled computations that all returned. *)
Definition returned {A} (os : list (Outcome (list A))) : list (list A) :=
  (λ o, match o with Return l => l | Throw _ => [] end) <$> os.

Definition thrown {A} (o : Outcome A) : Exn :=
  match o with Throw e => e | Return _ => NonError end.

Definition vector (t : string) : list number :=
  [inject_Z (Z.of_nat (String.length t)); 1 # 2]%Q.

End Cases.

(** * Properties *)

(** ** Running the monad and the database client *)

Module RunFacts.
Import Schema Effects Supabase.

Lemma bind_run {A B} (m : M A) (f : A → M B) (w w' : World) (a : A) :
  m w = (Return a, w') → (m ≫= f) w = f a w'.
Proof. unfold mbind, M_bind. by intros ->. Qed.

Lemma bind_throw {A B} (m : M A) (f : A → M B) (w w' : World) (e : Exn) :
  m w = (Throw e, w') → (m ≫= f) w = (Throw e, w').
Proof. unfold mbind, M_bind. by intros ->. Qed.

Lemma new_requests_app (w w' : World) (l : list Request) :
  log w' = log w ++ l → new_requests w w' = l.
Proof. intros H. unfold new_requests. by rewrite H, drop_app_length. Qed.

Lemma same_tables_refl (w : World) : same_tables w w.
Proof. by split_and!. Qed.

Lemma same_tables_trans (w1 w2 w3 : World) :
  same_tables w1 w2 → same_tables w2 w3 → same_tables w1 w3.
Proof. intros (? & ? & ?) (? & ? & ?). split_and!; congruence. Qed.

Lemma preserves_ret {A} (a : A) : preserves_tables (mret a).
Proof. intros w. apply same_tables_refl. Qed.

Lemma preserves_throw {A} (e : Exn) : preserves_tables (throw (A := A) e).
Proof. intros w. apply same_tables_refl. Qed.

Lemma preserves_bind {A B} (m : M A) (f : A → M B) :
  preserves_tables m → (∀ a, preserves_tables (f a)) → preserves_tables (m ≫= f).
Proof.
  intros Hm Hf w. specialize (Hm w). unfold mbind, M_bind.
  destruct (m w) as [[a | e] w1]; simpl in *; [| done].
  eapply same_tables_trans; [done | apply Hf].
Qed.

Lemma preserves_send (req : Request) : preserves_tables (send req).
Proof. intros w. by split_and!. Qed.

Lemma preserves_get_world : preserves_tables get_world.
Proof. intros w. apply same_tables_refl. Qed.

Section WithEnv.
Context (env : Env).

Lemma select_document_run (id : string) (w : World) :
  select_document env id w
  = (Return match db_error env (log w) (SelectDocument id) with
            | Some e => fail e
            | None => match documents w !! id with
                      | Some d => succeed d
                      | None => fail NO_ROWS
                      end
            end,
     logged (SelectDocument id) w).
Proof. reflexivity. Qed.

Lemma download_run (path : string) (w : World) :
  download env path w
  = (Return match storage_download env (log w) path with
            | inl e => fail e
            | inr file => succeed file
            end,
     logged (Download path) w).
Proof. reflexivity. Qed.

Lemma count_chunks_run (documentId : string) (w : World) :
  count_chunks env documentId w
  = (Return match db_error env (log w) (CountChunks documentId) with
            | Some e => fail e
            | None =>
                {| data := None; error := None;
                   count := Some (length (rows_of documentId (document_chunks w))) |}
            end,
     logged (CountChunks documentId) w).
Proof. reflexivity. Qed.

Lemma range_chunks_run (documentId : string) (from to : nat) (w : World) :
  range_chunks env documentId from to w
  = (Return match db_error env (log w) (RangeChunks documentId from to) with
            | Some e => fail e
            | None => succeed (range from to
                                 (ordered_rows_of documentId (document_chunks w)))
            end,
     logged (RangeChunks documentId from to) w).
Proof. reflexivity. Qed.

Lemma range_beyond_last {A} (from to : nat) (l : list A) :
  (length l ≤ from)%nat → range from to l = [].
Proof. intros H. unfold range. rewrite drop_ge by done. apply take_nil. Qed.

Lemma ordered_rows_of_length (documentId : string) (rows : list ChunkRow.t) :
  length (ordered_rows_of documentId rows) = length (rows_of documentId rows).
Proof.
  unfold ordered_rows_of. apply Permutation_length, merge_sort_Permutation.
Qed.

End WithEnv.

End RunFacts.

Create HintDb tables.
#[global] Hint Resolve RunFacts.preserves_ret RunFacts.preserves_throw
  RunFacts.preserves_send RunFacts.preserves_get_world : tables.

(** Proves that a computation built from the primitives leaves the tables
    as they are. *)
Ltac tables :=
  repeat first
    [ progress auto with tables
    | apply RunFacts.preserves_bind; [| intros ?]
    | match goal with
      | |- Effects.preserves_tables (match ?x with _ => _ end) => destruct x
      | |- Effects.preserves_tables (if ?b then _ else _) => destruct b
      end ].

(** ** The chunker *)

Module RagFacts.
Import Schema Effects Supabase Rag RunFacts.

(** *** Token estimate *)

Lemma ceil_div_bounds (n d : Z) :
  0 < d → d * (JS.ceil_div n d - 1) < n ≤ d * JS.ceil_div n d.
Proof.
  intros Hd. unfold JS.ceil_div.
  set (q := (inject_Z n / inject_Z d)%Q).
  assert (Hdq : (0 < inject_Z d)%Q)
    by (change (inject_Z 0 < inject_Z d)%Q; rewrite <- Zlt_Qlt; exact Hd).
  assert (Hn : (q * inject_Z d == inject_Z n)%Q).
  { unfold q. field. intros E. rewrite E in Hdq. by apply Qlt_irrefl in Hdq. }
  pose proof (Qle_ceiling q) as Hle. pose proof (Qceiling_lt q) as Hlt.
  split.
  - apply (Qmult_lt_r _ _ _ Hdq) in Hlt. rewrite Hn in Hlt.
    rewrite <- inject_Z_mult in Hlt. rewrite <- Zlt_Qlt in Hlt. lia.
  - apply (Qmult_le_r _ _ _ Hdq) in Hle. rewrite Hn in Hle.
    rewrite <- inject_Z_mult in Hle. rewrite <- Zle_Qle in Hle. lia.
Qed.

Lemma ceil_div_closed_form (n d : Z) :
  0 < d → JS.ceil_div n d = (n + d - 1) `div` d.
Proof.
  intros Hd. pose proof (ceil_div_bounds n d Hd) as [H1 H2].
  pose proof (Z.div_mod (n + d - 1) d ltac:(lia)) as E.
  pose proof (Z.mod_pos_bound (n + d - 1) d Hd). nia.
Qed.

Lemma estimateTokens_bounds (s : string) :
  4 * (estimateTokens s - 1) < Z.of_nat (String.length s) ≤ 4 * estimateTokens s.
Proof. apply ceil_div_bounds. lia. Qed.

Lemma estimateTokens_nonneg (s : string) : 0 ≤ estimateTokens s.
Proof. pose proof (estimateTokens_bounds s). lia. Qed.

Lemma estimateTokens_mono (s1 s2 : string) :
  (String.length s1 ≤ String.length s2)%nat →
  estimateTokens s1 ≤ estimateTokens s2.
Proof.
  intros H. pose proof (estimateTokens_bounds s1).
  pose proof (estimateTokens_bounds s2). lia.
Qed.

(** C6.  The token estimate of a string [s] of length [n] is the ceiling
    of [n / 4]: the integer [e] with [4 (e - 1) < n <= 4 e], that is
    [(n + 3) div 4]; and a string that is not longer has an estimate that
    is not larger. *)
Theorem estimateTokens_is_ceiling_and_monotone (s s' : string) :
  let n := Z.of_nat (String.length s) in
  (4 * (estimateTokens s - 1) < n ≤ 4 * estimateTokens s)
  ∧ estimateTokens s = (n + 3) `div` 4
  ∧ ((String.length s ≤ String.length s')%nat →
     estimateTokens s ≤ estimateTokens s').
Proof.
  cbv zeta. split; [| split].
  - apply estimateTokens_bounds.
  - unfold estimateTokens. rewrite ceil_div_closed_form by lia. f_equal. lia.
  - apply estimateTokens_mono.
Qed.

Lemma estimateTokens_witness :
  estimateTokens "abcde" = 2
  ∧ estimateTokens "abcde" ≤ estimateTokens "abcdefghi".
Proof.
  split; [reflexivity |].
  apply (estimateTokens_is_ceiling_and_monotone "abcde" "abcdefghi"). simpl. lia.
Defined.

(** *** Overlap *)

Lemma tokens_of_nonneg (l : list string) : 0 ≤ tokens_of l.
Proof.
  induction l as [| s l IH]; simpl; [lia |].
  pose proof (estimateTokens_nonneg s). lia.
Qed.

Lemma tokens_of_app (l k : list string) :
  tokens_of (l ++ k) = tokens_of l + tokens_of k.
Proof. induction l as [| s l IH]; simpl; lia. Qed.

Lemma tokens_of_drop_le (l : list string) (j k : nat) :
  (j ≤ k)%nat → tokens_of (drop k l) ≤ tokens_of (drop j l).
Proof.
  intros Hjk. replace k with (j + (k - j))%nat by lia.
  rewrite <- drop_drop.
  rewrite <- (take_drop (k - j) (drop j l)) at 2.
  rewrite tokens_of_app.
  pose proof (tokens_of_nonneg (take (k - j) (drop j l))). lia.
Qed.

Lemma tokens_of_drop_lookup (l : list string) (i : nat) :
  (i < length l)%nat →
  tokens_of (drop i l) = estimateTokens (l !!! i) + tokens_of (drop (S i) l).
Proof.
  intros Hi. destruct (lookup_lt_is_Some_2 l i Hi) as [s Hs].
  rewrite (drop_S l s i Hs). simpl.
  by rewrite (list_lookup_total_correct l i s Hs).
Qed.

Lemma overlap_loop_spec (cur : list string) (n : nat) (ot : Z) :
  (n ≤ length cur)%nat →
  ot = tokens_of (drop n cur) →
  ot ≤ CHUNK_OVERLAP →
  ∃ k, overlap_loop cur n ot n = (tokens_of (drop k cur), k)
       ∧ (k ≤ n)%nat
       ∧ tokens_of (drop k cur) ≤ CHUNK_OVERLAP
       ∧ ∀ j, (j < k)%nat → CHUNK_OVERLAP < tokens_of (drop j cur).
Proof.
  revert ot. induction n as [| i IH]; intros ot Hn Hot Hle; simpl.
  - exists 0%nat. subst ot. split_and!; [done | lia | done | lia].
  - pose proof (tokens_of_drop_lookup cur i ltac:(lia)) as Hi.
    case_bool_decide as Hbreak.
    + exists (S i). subst ot. split_and!; [done | lia | done |].
      intros j Hj. pose proof (tokens_of_drop_le cur j i ltac:(lia)). lia.
    + destruct (IH (ot + estimateTokens (cur !!! i))) as (k & E & Hk & Hb & Hmax);
        [lia | lia | lia |].
      exists k. split_and!; [done | lia | done | done].
Qed.

Lemma overlap_spec (cur : list string) :
  ∃ k, overlap cur = (tokens_of (drop k cur), k) ∧ is_overlap_start cur k.
Proof.
  unfold overlap, is_overlap_start.
  destruct (overlap_loop_spec cur (length cur) 0) as (k & E & Hk & Hb & Hmax).
  - lia.
  - by rewrite drop_all.
  - unfold CHUNK_OVERLAP. lia.
  - exists k. done.
Qed.

(** C8.  When an iteration of the main loop finalizes a chunk, the next
    chunk starts from [drop k] of the finalized chunk's sentences, where
    this trailing run is the longest one whose token estimates sum to at
    most 100 (one more sentence to the left would exceed the budget), and
    the running token count restarts at the sum of the estimates of that
    run; the sentence at hand is then appended. *)
Theorem finalize_seeds_overlap (st : ChunkState) (sentence : PageText) :
  must_finalize st sentence = true →
  ∃ k, is_overlap_start (currentChunk st) k
     ∧ (k = 0%nat ∨
        CHUNK_OVERLAP < estimateTokens (currentChunk st !!! (k - 1)%nat)
                        + tokens_of (drop k (currentChunk st)))
     ∧ chunks (finalize st sentence) = chunks st ++ [current_as_chunk st]
     ∧ currentChunk (finalize st sentence) = drop k (currentChunk st)
     ∧ currentTokens (finalize st sentence) = tokens_of (drop k (currentChunk st))
     ∧ chunk_step st sentence = append_sentence (finalize st sentence) sentence
     ∧ currentChunk (chunk_step st sentence)
       = drop k (currentChunk st) ++ [text sentence]
     ∧ currentTokens (chunk_step st sentence)
       = tokens_of (drop k (currentChunk st)) + estimateTokens (text sentence).
Proof.
  intros Hfin.
  destruct (overlap_spec (currentChunk st)) as (k & E & Hk).
  exists k. unfold chunk_step. rewrite Hfin. unfold finalize. rewrite E. simpl.
  split_and!; try done.
  destruct k as [| k']; [by left | right].
  destruct Hk as (Hlen & _ & Hmax).
  replace (S k' - 1)%nat with k' by lia.
  rewrite <- tokens_of_drop_lookup by lia. apply Hmax. lia.
Qed.

Lemma finalize_witness :
  currentTokens Scenario.full_chunk = 798
  ∧ ∃ k, is_overlap_start (currentChunk Scenario.full_chunk) k
       ∧ currentChunk (finalize Scenario.full_chunk (Scenario.long_page 1 1))
         = drop k (currentChunk Scenario.full_chunk)
       ∧ currentTokens (finalize Scenario.full_chunk (Scenario.long_page 1 1))
         = tokens_of (drop k (currentChunk Scenario.full_chunk)).
Proof.
  split; [by vm_compute |].
  destruct (finalize_seeds_overlap Scenario.full_chunk (Scenario.long_page 1 1))
    as (k & Hk & _ & _ & Hcur & Htok & _); [by vm_compute |].
  exists k. exact (conj Hk (conj Hcur Htok)).
Defined.

(** *** Page ranges *)

Lemma StronglySorted_snoc {A} (R : relation A) (l : list A) (x : A) :
  StronglySorted R l → (∀ y, y ∈ l → R y x) → StronglySorted R (l ++ [x]).
Proof.
  intros Hl Hx. apply StronglySorted_app_2; [| done | repeat constructor].
  intros x1 x2 H1 H2. apply list_elem_of_singleton in H2 as ->. by apply Hx.
Qed.

Lemma StronglySorted_lookup_lt {A} (R : relation A) (l : list A) (i j : nat) (x y : A) :
  StronglySorted R l → (i < j)%nat → l !! i = Some x → l !! j = Some y → R x y.
Proof.
  intros Hl. revert i j. induction Hl as [| a l Hl IH Hall]; intros i j Hij Hi Hj.
  - by rewrite lookup_nil in Hi.
  - destruct j as [| j']; [lia |]. destruct i as [| i']; simpl in *.
    + simplify_eq. rewrite Forall_forall in Hall.
      apply Hall. by apply list_elem_of_lookup_2 in Hj.
    + apply (IH i' j'); [lia | done | done].
Qed.

Lemma page_sentences_page (p s : PageText) :
  s ∈ page_sentences p → page s = page p.
Proof.
  unfold page_sentences. intros H.
  apply list_elem_of_omap in H as (part & _ & H).
  case_bool_decide; by simplify_eq.
Qed.

Lemma sentence_stream_sorted (pages : list PageText) :
  Sorted Z.le (page <$> pages) →
  StronglySorted pages_le (sentence_stream pages).
Proof.
  intros Hs. apply (Sorted_StronglySorted _) in Hs.
  unfold sentence_stream.
  induction pages as [| p ps IH]; [constructor |].
  rewrite fmap_cons in Hs. apply StronglySorted_inv in Hs as [Hps Hall].
  change ((p :: ps) ≫= page_sentences)
    with (page_sentences p ++ (ps ≫= page_sentences)).
  apply StronglySorted_app_2; [| | by apply IH].
  - intros s1 s2 H1 H2. unfold pages_le.
    rewrite (page_sentences_page p s1 H1).
    apply list_elem_of_bind in H2 as (p' & H2 & Hp').
    rewrite (page_sentences_page p' s2 H2).
    rewrite Forall_forall in Hall. apply Hall.
    apply list_elem_of_fmap. eauto.
  - clear. assert (H : ∀ s, s ∈ page_sentences p → page s = page p)
      by apply page_sentences_page.
    induction (page_sentences p) as [| s l IHl]; [constructor |].
    constructor.
    + apply IHl. intros s' Hs'. apply H. by right.
    + apply Forall_forall. intros s' Hs'. unfold pages_le.
      rewrite (H s) by left. rewrite (H s') by (by right). lia.
Qed.

Lemma chunk_step_inv (st : ChunkState) (sentence : PageText) :
  pages_inv st → chunkPageEnd st ≤ page sentence →
  pages_inv (chunk_step st sentence)
  ∧ chunkPageEnd (chunk_step st sentence) = page sentence.
Proof.
  intros [Hs Hb Hr Hc] Hp. unfold chunk_step.
  destruct (must_finalize st sentence); [| split; [split |]; simpl; eauto; lia].
  unfold finalize. destruct (overlap (currentChunk st)) as [ot os]. simpl.
  split; [split |]; simpl; try done.
  - apply StronglySorted_snoc; [done |]. intros c Hc'. apply (Hb c Hc').
  - intros c [Hc' | ->%list_elem_of_singleton]%elem_of_app; simpl.
    + specialize (Hb c Hc'). lia.
    + lia.
  - intros c [Hc' | ->%list_elem_of_singleton]%elem_of_app; simpl; eauto.
Qed.

Lemma chunk_loop_inv (sentences : list PageText) (st : ChunkState) :
  pages_inv st →
  StronglySorted pages_le sentences →
  (∀ s, s ∈ sentences → chunkPageEnd st ≤ page s) →
  pages_inv (foldl chunk_step st sentences).
Proof.
  revert st. induction sentences as [| s rest IH]; intros st Hinv Hs Hlo; [done |].
  simpl. apply StronglySorted_inv in Hs as [Hrest Hall].
  destruct (chunk_step_inv st s Hinv) as [Hinv' Hend]; [apply Hlo; left |].
  apply IH; [done | done |].
  intros s' Hs'. rewrite Hend. rewrite Forall_forall in Hall. by apply Hall.
Qed.

Lemma chunk_finish_sorted (st : ChunkState) :
  pages_inv st →
  StronglySorted starts_le (chunk_finish st)
  ∧ ∀ c, c ∈ chunk_finish st → page_start c ≤ page_end c.
Proof.
  intros [Hs Hb Hr Hc]. unfold chunk_finish. case_bool_decide; [| done].
  split.
  - apply StronglySorted_snoc; [done |]. intros c Hc'. apply (Hb c Hc').
  - intros c [Hc' | ->%list_elem_of_singleton]%elem_of_app; simpl; eauto.
Qed.

Lemma chunk_sentences_sorted (sentences : list PageText) :
  StronglySorted pages_le sentences →
  StronglySorted starts_le (chunk_sentences sentences)
  ∧ ∀ c, c ∈ chunk_sentences sentences → page_start c ≤ page_end c.
Proof.
  intros Hs. unfold chunk_sentences.
  destruct sentences as [| first rest] eqn:E.
  { split; [constructor | by intros c ?%elem_of_nil]. }
  apply chunk_finish_sorted, chunk_loop_inv; [| done |].
  - split; simpl; [constructor | by intros c ?%elem_of_nil ..| lia].
  - simpl. intros s [-> | Hs']%elem_of_cons; [lia |].
    apply StronglySorted_inv in Hs as [_ Hall].
    rewrite Forall_forall in Hall. by apply Hall.
Qed.

(** C7.  When the page numbers of the input are non-decreasing, the
    [page_start] of the chunks is non-decreasing along the chunk sequence,
    and every chunk has [page_start <= page_end]. *)
Theorem chunkText_pages_monotone (pages : list PageText) :
  Sorted Z.le (page <$> pages) →
  (∀ i j ci cj, (i < j)%nat →
     chunkText pages !! i = Some ci → chunkText pages !! j = Some cj →
     page_start ci ≤ page_start cj)
  ∧ (∀ c, c ∈ chunkText pages → page_start c ≤ page_end c).
Proof.
  intros Hs. unfold chunkText.
  destruct (chunk_sentences_sorted _ (sentence_stream_sorted pages Hs)) as [H1 H2].
  split; [| done].
  intros i j ci cj Hij Hi Hj.
  by apply (StronglySorted_lookup_lt starts_le _ i j ci cj H1).
Qed.

Lemma chunkText_pages_witness :
  Sorted Z.le (page <$> Scenario.long_pages)
  ∧ (∀ i j ci cj, (i < j)%nat →
       chunkText Scenario.long_pages !! i = Some ci →
       chunkText Scenario.long_pages !! j = Some cj →
       page_start ci ≤ page_start cj)
  ∧ (∀ c, c ∈ chunkText Scenario.long_pages → page_start c ≤ page_end c).
Proof.
  assert (H : Sorted Z.le (page <$> Scenario.long_pages))
    by (simpl; repeat constructor; lia).
  split; [exact H |].
  apply (chunkText_pages_monotone Scenario.long_pages H).
Defined.

(** *** Embedding *)

Section Embedding.
Context (env : Env) (taskType : TaskType).

Lemma batch_count_le (texts : list string) (k : nat) :
  (k * 20 < length texts ↔ k < batch_count texts)%nat.
Proof.
  unfold batch_count, EMBEDDING_BATCH_SIZE.
  pose proof (Nat.div_mod_eq (length texts + (20 - 1)) 20).
  pose proof (Nat.mod_upper_bound (length texts + (20 - 1)) 20). lia.
Qed.

Lemma embed_loop_batches (fuel : nat) (texts : list string) (k : nat)
    (acc : list (list number)) (w : World) :
  (batch_count texts ≤ k + fuel)%nat →
  embed_loop env fuel texts taskType (k * EMBEDDING_BATCH_SIZE) acc w
  = embed_batches env taskType (batch_at texts <$> seq k (batch_count texts - k)) acc w.
Proof.
  revert k acc w. induction fuel as [| fuel IH]; intros k acc w Hfuel.
  - replace (batch_count texts - k)%nat with 0%nat by lia. reflexivity.
  - simpl. case_bool_decide as Hi.
    + apply batch_count_le in Hi.
      replace (batch_count texts - k)%nat with (S (batch_count texts - S k)) by lia.
      simpl. fold (batch_at texts k).
      unfold mbind, M_bind. simpl.
      destruct (batchEmbedContents env _ _ _); try done.
      replace (k * EMBEDDING_BATCH_SIZE + EMBEDDING_BATCH_SIZE)%nat
        with (S k * EMBEDDING_BATCH_SIZE)%nat by (unfold EMBEDDING_BATCH_SIZE; lia).
      by rewrite IH by lia.
    + assert (¬ (k < batch_count texts)%nat) by (by rewrite <- batch_count_le).
      replace (batch_count texts - k)%nat with 0%nat by lia. reflexivity.
Qed.

Lemma batch_count_fuel (texts : list string) :
  (batch_count texts ≤ length texts)%nat.
Proof.
  unfold batch_count, EMBEDDING_BATCH_SIZE.
  pose proof (Nat.div_mod_eq (length texts + (20 - 1)) 20).
  pose proof (Nat.mod_upper_bound (length texts + (20 - 1)) 20). lia.
Qed.

Lemma generateEmbeddings_batches (texts : list string) (w : World) :
  has_api_key env = true →
  generateEmbeddings env texts taskType w = embed_batches env taskType (batches texts) [] w.
Proof.
  intros Hkey. unfold generateEmbeddings, getGeminiApiKey.
  unfold has_api_key in Hkey. destruct (GEMINI_API_KEY env) as [key |]; [| done].
  apply negb_true_iff in Hkey. rewrite Hkey.
  unfold mbind, M_bind, mret, M_ret.
  change (embed_loop env (length texts) texts taskType 0 [] w)
    with (embed_loop env (length texts) texts taskType (0 * EMBEDDING_BATCH_SIZE) [] w).
  rewrite (embed_loop_batches (length texts) texts 0 [] w)
    by (pose proof (batch_count_fuel texts); lia).
  unfold batches. by rewrite Nat.sub_0_r.
Qed.

(** *** The run of the batches *)

Lemma embed_batches_ok (bs : list (list string)) (vss : list (list (list number)))
    (acc : list (list number)) (w : World) :
  all_answered env taskType (log w) bs vss →
  embed_batches env taskType bs acc w
  = (Return (acc ++ concat vss),
     set_log (λ l, l ++ embed_requests taskType bs) w).
Proof.
  revert vss acc w. induction bs as [| b bs IH]; intros [| vs vss] acc w H;
    simpl in H; try done.
  - simpl. unfold mret, M_ret. rewrite app_nil_r.
    destruct w. unfold set_log. simpl. by rewrite app_nil_r.
  - destruct H as [Hb H]. simpl. unfold mbind, M_bind. simpl. rewrite Hb.
    rewrite (IH vss (acc ++ vs) (logged (BatchEmbedContents b taskType) w))
      by done.
    rewrite <- app_assoc. f_equal. unfold set_log. simpl.
    by rewrite <- app_assoc.
Qed.

Lemma all_answered_of_replies (w : World) (bs : list (list string))
    (vss : list (list (list number))) :
  length vss = length bs →
  (∀ k, (k < length bs)%nat → reply_at env w taskType bs k = EmbedOk (vss !!! k)) →
  all_answered env taskType (log w) bs vss.
Proof.
  revert vss w. induction bs as [| b bs IH]; intros [| vs vss] w Hlen H;
    simpl in Hlen; try done.
  simpl. split.
  - specialize (H 0%nat ltac:(simpl; lia)). unfold reply_at in H. simpl in H.
    by rewrite app_nil_r in H.
  - apply (IH vss (logged (BatchEmbedContents b taskType) w)); [lia |].
    intros k Hk. specialize (H (S k) ltac:(simpl; lia)).
    unfold reply_at in *. simpl in *. by rewrite <- app_assoc.
Qed.

Lemma embed_batches_status (bs : list (list string)) (k : nat)
    (status : nat) (body : string) (acc : list (list number)) (w : World) :
  (k < length bs)%nat →
  (∀ j, (j < k)%nat → ∃ vs, reply_at env w taskType bs j = EmbedOk vs) →
  reply_at env w taskType bs k = EmbedStatus status body →
  embed_batches env taskType bs acc w
  = (Throw (embedding_error status body),
     set_log (λ l, l ++ embed_requests taskType (take (S k) bs)) w).
Proof.
  revert k acc w. induction bs as [| b bs IH]; intros k acc w Hk Hok Hfail;
    [simpl in Hk; lia |].
  destruct k as [| k].
  - unfold reply_at in Hfail. simpl in Hfail. rewrite app_nil_r in Hfail.
    simpl. unfold mbind, M_bind. simpl. rewrite Hfail. by rewrite ?take_0.
  - destruct (Hok 0%nat ltac:(lia)) as [vs Hvs].
    unfold reply_at in Hvs. simpl in Hvs. rewrite app_nil_r in Hvs.
    simpl. unfold mbind, M_bind. simpl. rewrite Hvs.
    rewrite (IH k (acc ++ vs) (logged (BatchEmbedContents b taskType) w)).
    + f_equal. unfold set_log. simpl. by rewrite <- app_assoc.
    + simpl in Hk. lia.
    + intros j Hj. destruct (Hok (S j) ltac:(lia)) as [vs' Hvs'].
      exists vs'. unfold reply_at in *. simpl in *. by rewrite <- app_assoc.
    + unfold reply_at in *. simpl in *. by rewrite <- app_assoc.
Qed.

Lemma embed_batches_log (bs : list (list string)) (acc : list (list number))
    (w : World) :
  ∃ m, (m ≤ length bs)%nat
       ∧ (embed_batches env taskType bs acc w).2
         = set_log (λ l, l ++ embed_requests taskType (take m bs)) w.
Proof.
  revert acc w. induction bs as [| b bs IH]; intros acc w.
  - exists 0%nat. split; [done |]. simpl. destruct w. unfold set_log. simpl.
    by rewrite app_nil_r.
  - simpl. unfold mbind, M_bind. simpl.
    destruct (batchEmbedContents env _ _ _) as [vs | status body | e].
    + destruct (IH (acc ++ vs) (logged (BatchEmbedContents b taskType) w))
        as (m & Hm & E).
      exists (S m). split; [lia |]. rewrite E. unfold set_log. simpl.
      by rewrite <- app_assoc.
    + exists 1%nat. split; [simpl; lia |]. by rewrite ?take_0.
    + exists 1%nat. split; [simpl; lia |]. by rewrite ?take_0.
Qed.


(** *** The batches *)

Lemma batch_at_drop (texts : list string) (k : nat) :
  batch_at texts (S k) = batch_at (drop EMBEDDING_BATCH_SIZE texts) k.
Proof.
  unfold batch_at. rewrite drop_drop. f_equal.
Qed.

Lemma concat_batch_at (n : nat) (texts : list string) :
  (length texts ≤ n * EMBEDDING_BATCH_SIZE)%nat →
  concat (batch_at texts <$> seq 0 n) = texts.
Proof.
  revert texts. induction n as [| n IH]; intros texts Hlen.
  - simpl in *. by rewrite (nil_length_inv texts) by lia.
  - rewrite <- cons_seq, fmap_cons, <- fmap_S_seq, <- list_fmap_compose.
    simpl. rewrite (list_fmap_ext _ (batch_at (drop EMBEDDING_BATCH_SIZE texts)))
      by (intros ? k _; apply batch_at_drop).
    rewrite IH by (rewrite length_drop; lia).
    unfold batch_at. simpl. apply take_drop.
Qed.

Lemma batches_length (texts : list string) :
  length (batches texts) = batch_count texts.
Proof. unfold batches. by rewrite length_fmap, length_seq. Qed.

Lemma batches_lookup (texts : list string) (k : nat) :
  (k < batch_count texts)%nat → batches texts !!! k = batch_at texts k.
Proof.
  intros Hk. apply list_lookup_total_correct. unfold batches.
  rewrite list_lookup_fmap, lookup_seq_lt by done. done.
Qed.

Lemma concat_batches (texts : list string) : concat (batches texts) = texts.
Proof.
  apply concat_batch_at. unfold batch_count, EMBEDDING_BATCH_SIZE.
  pose proof (Nat.div_mod_eq (length texts + (20 - 1)) 20).
  pose proof (Nat.mod_upper_bound (length texts + (20 - 1)) 20). lia.
Qed.

Lemma batch_at_length (texts : list string) (k : nat) :
  length (batch_at texts k) = (20 `min` (length texts - k * 20))%nat.
Proof. unfold batch_at, EMBEDDING_BATCH_SIZE. by rewrite length_take, length_drop. Qed.

Lemma batches_sizes (texts : list string) :
  Forall (λ b, 0 < length b ≤ 20)%nat (batches texts).
Proof.
  apply Forall_forall. intros b Hb. unfold batches in Hb.
  apply list_elem_of_fmap in Hb as (k & -> & Hk).
  apply elem_of_seq in Hk. rewrite batch_at_length.
  assert (k * 20 < length texts)%nat by (apply batch_count_le; lia). lia.
Qed.

Lemma batch_at_lookup (texts : list string) (k r : nat) :
  (r < 20)%nat → batch_at texts k !! r = texts !! (k * 20 + r)%nat.
Proof.
  intros Hr. unfold batch_at, EMBEDDING_BATCH_SIZE.
  by rewrite lookup_take_lt, lookup_drop.
Qed.

Lemma concat_lookup_block {A} (n : nat) (ls : list (list A)) (k r : nat) :
  (∀ j, (j < k)%nat → length (ls !!! j) = n) →
  (r < length (ls !!! k))%nat →
  concat ls !! (k * n + r)%nat = (ls !!! k) !! r.
Proof.
  revert k. induction ls as [| l ls IH]; intros k Hfull Hr.
  - rewrite list_lookup_total_alt in Hr. simpl in Hr. lia.
  - destruct k as [| k]; simpl.
    + simpl in Hr. by rewrite lookup_app_l.
    + pose proof (Hfull 0%nat ltac:(lia)) as H0. simpl in H0.
      rewrite lookup_app_r by lia.
      replace (n + k * n + r - length l)%nat with (k * n + r)%nat by lia.
      apply IH; [| done].
      intros j Hj. apply (Hfull (S j)). lia.
Qed.

Lemma concat_length_blocks {A B} (bs : list (list A)) (vss : list (list B)) :
  length vss = length bs →
  (∀ k, (k < length bs)%nat → length (vss !!! k) = length (bs !!! k)) →
  length (concat vss) = length (concat bs).
Proof.
  revert vss. induction bs as [| b bs IH]; intros [| vs vss] Hlen Hk;
    simpl in *; try done.
  rewrite !length_app. rewrite (IH vss) by
    (first [lia | intros k ?; apply (Hk (S k)); lia]).
  specialize (Hk 0%nat ltac:(lia)). simpl in Hk. lia.
Qed.

Lemma generateEmbeddings_without_key (texts : list string) (w : World) :
  has_api_key env = false →
  generateEmbeddings env texts taskType w = (Throw (Error NO_API_KEY), w).
Proof.
  intros Hkey. unfold generateEmbeddings, getGeminiApiKey.
  unfold has_api_key in Hkey. destruct (GEMINI_API_KEY env) as [key |]; [| done].
  apply negb_false_iff in Hkey. by rewrite Hkey.
Qed.

Lemma set_log_nil (w : World) : set_log (λ l, l ++ []) w = w.
Proof. destruct w. unfold set_log. simpl. by rewrite app_nil_r. Qed.

Lemma embed_batches_return (bs : list (list string)) (acc : list (list number))
    (w : World) (vectors : list (list number)) :
  (embed_batches env taskType bs acc w).1 = Return vectors →
  ∃ vss, all_answered env taskType (log w) bs vss ∧ vectors = acc ++ concat vss.
Proof.
  revert acc w. induction bs as [| b bs IH]; intros acc w Hret.
  - exists []. simpl in *. split; [done |]. rewrite app_nil_r. by simplify_eq.
  - simpl in Hret. unfold mbind, M_bind in Hret. simpl in Hret.
    destruct (batchEmbedContents env (log w) b taskType) as [vs | |] eqn:E;
      [| done | done].
    destruct (IH _ _ Hret) as (vss & Hall & ->).
    exists (vs :: vss). simpl. split; [done |]. by rewrite <- app_assoc.
Qed.

Lemma replies_of_all_answered (w : World) (bs : list (list string))
    (vss : list (list (list number))) :
  all_answered env taskType (log w) bs vss →
  length vss = length bs
  ∧ ∀ k, (k < length bs)%nat → reply_at env w taskType bs k = EmbedOk (vss !!! k).
Proof.
  revert vss w. induction bs as [| b bs IH]; intros [| vs vss] w H;
    simpl in H; try done.
  - split; [done |]. intros k Hk. simpl in Hk. lia.
  - destruct H as [Hb H].
    destruct (IH vss (logged (BatchEmbedContents b taskType) w) H) as [Hlen Hk].
    split; [simpl; lia |].
    intros [| k] Hlt.
    + unfold reply_at. simpl. by rewrite app_nil_r.
    + specialize (Hk k ltac:(simpl in Hlt; lia)).
      unfold reply_at in *. simpl in *. by rewrite <- app_assoc in Hk.
Qed.

(** Where text [i] was sent, and where its vector comes back. *)
Lemma batches_aligned (texts : list string) (vss : list (list (list number)))
    (i : nat) :
  (∀ k, (k < length (batches texts))%nat →
     length (vss !!! k) = length (batches texts !!! k)) →
  (i < length texts)%nat →
  texts !! i = (batches texts !!! (i / 20)%nat) !! (i `mod` 20)%nat
  ∧ concat vss !! i = (vss !!! (i / 20)%nat) !! (i `mod` 20)%nat.
Proof.
  intros Hsizes Hi.
  pose proof (Nat.div_mod_eq i 20) as Hdm.
  pose proof (Nat.mod_upper_bound i 20 ltac:(lia)) as Hr.
  set (k := (i / 20)%nat) in *. set (r := (i `mod` 20)%nat) in *.
  assert (Hk : (k < batch_count texts)%nat) by (apply batch_count_le; lia).
  assert (Hrk : (r < length (batches texts !!! k))%nat).
  { rewrite batches_lookup, batch_at_length by done. lia. }
  split.
  - rewrite batches_lookup, batch_at_lookup by done. f_equal. lia.
  - replace (concat vss !! i) with (concat vss !! (k * 20 + r)%nat)
      by (f_equal; lia).
    apply concat_lookup_block.
    + intros j Hj.
      assert (Hj' : (j < batch_count texts)%nat) by lia.
      rewrite Hsizes by (by rewrite batches_length).
      rewrite batches_lookup, batch_at_length by done.
      assert (S j * 20 ≤ k * 20)%nat by nia. lia.
    + rewrite Hsizes by (by rewrite batches_length). done.
Qed.

(** C9.  [generateEmbeddings] sends the batches
    [texts.slice(20 k, 20 k + 20)], each of 1 to 20 texts, in input
    order, each at most once and nothing else.  Whenever it returns,
    every batch was sent and answered, and the result is the answers'
    vectors concatenated in that order.  With the API key set: when
    every batch is answered with one vector per text, it returns one
    vector per text, and vector [i] is the vector answered at the
    position at which text [i] was sent; and the first answer that is
    not a success raises the error built from its status and body, and
    no further request is made.  Without the key it throws before any
    request. *)
Theorem generateEmbeddings_batched (texts : list string) (w : World) :
  let bs := batches texts in
  let out := generateEmbeddings env texts taskType w in
  (concat bs = texts ∧ Forall (λ b, 0 < length b ≤ 20)%nat bs)
  ∧ (∃ m, (m ≤ length bs)%nat
          ∧ out.2 = set_log (λ l, l ++ embed_requests taskType (take m bs)) w)
  ∧ (∀ vectors,
       out.1 = Return vectors →
       ∃ vss,
         length vss = length bs
         ∧ (∀ k, (k < length bs)%nat →
              reply_at env w taskType bs k = EmbedOk (vss !!! k))
         ∧ vectors = concat vss
         ∧ out.2 = set_log (λ l, l ++ embed_requests taskType bs) w)
  ∧ (has_api_key env = true →
     ∀ vss,
       length vss = length bs →
       (∀ k, (k < length bs)%nat →
          reply_at env w taskType bs k = EmbedOk (vss !!! k)
          ∧ length (vss !!! k) = length (bs !!! k)) →
       ∃ vectors,
         out = (Return vectors, set_log (λ l, l ++ embed_requests taskType bs) w)
         ∧ length vectors = length texts
         ∧ ∀ i, (i < length texts)%nat →
             texts !! i = (bs !!! (i / 20)%nat) !! (i `mod` 20)%nat
             ∧ vectors !! i = (vss !!! (i / 20)%nat) !! (i `mod` 20)%nat)
  ∧ (has_api_key env = true →
     ∀ k status body,
       (k < length bs)%nat →
       (∀ j, (j < k)%nat → ∃ vs, reply_at env w taskType bs j = EmbedOk vs) →
       reply_at env w taskType bs k = EmbedStatus status body →
       out = (Throw (Error ("Gemini embedding API error (" +:+ pretty status
                            +:+ "): " +:+ body)),
              set_log (λ l, l ++ embed_requests taskType (take (S k) bs)) w))
  ∧ (has_api_key env = false → out = (Throw (Error NO_API_KEY), w)).
Proof.
  cbv zeta. split; [| split; [| split; [| split; [| split]]]].
  - split; [apply concat_batches | apply batches_sizes].
  - destruct (has_api_key env) eqn:Hkey.
    + rewrite (generateEmbeddings_batches texts w Hkey). apply embed_batches_log.
    + rewrite (generateEmbeddings_without_key texts w Hkey).
      exists 0%nat. split; [lia |]. simpl. by rewrite set_log_nil.
  - intros vectors Hret.
    destruct (has_api_key env) eqn:Hkey;
      [| by rewrite (generateEmbeddings_without_key texts w Hkey) in Hret].
    rewrite (generateEmbeddings_batches texts w Hkey) in Hret |- *.
    destruct (embed_batches_return _ _ _ _ Hret) as (vss & Hall & ->).
    destruct (replies_of_all_answered _ _ _ Hall) as [Hlen Hreplies].
    exists vss. split_and!; [done | done | done |].
    by rewrite (embed_batches_ok _ _ _ _ Hall).
  - intros Hkey vss Hlen Hreplies.
    rewrite (generateEmbeddings_batches texts w Hkey).
    exists (concat vss). split; [| split].
    + rewrite (embed_batches_ok (batches texts) vss [] w); [done |].
      apply all_answered_of_replies; [done |]. intros k Hk. by apply Hreplies.
    + transitivity (length (concat (batches texts)));
        [| by rewrite concat_batches].
      apply concat_length_blocks; [done |]. intros k Hk. by apply Hreplies.
    + intros i Hi. apply batches_aligned; [| done].
      intros k Hk. by apply Hreplies.
  - intros Hkey k status body Hk Hok Hfail.
    rewrite (generateEmbeddings_batches texts w Hkey).
    by apply embed_batches_status.
  - apply generateEmbeddings_without_key.
Qed.

End Embedding.

(** *** The processing pipeline *)

Section Pipeline.
Context (env : Env).

(** The insertion loop never runs out of fuel: from [rows.length]
    iterations on, more fuel changes nothing. *)
Lemma insert_loop_fuel (fuel fuel' : nat) (documentId : string)
    (rows : list ChunkRow.t) (i : nat) (w : World) :
  (length rows ≤ i + fuel * BATCH_SIZE)%nat → (fuel ≤ fuel')%nat →
  insert_loop env fuel' documentId rows i w
  = insert_loop env fuel documentId rows i w.
Proof.
  revert fuel' i w. induction fuel as [| fuel IH]; intros fuel' i w Hlen Hle.
  - destruct fuel' as [| fuel']; [done |]. simpl.
    rewrite bool_decide_eq_false_2 by (simpl in Hlen; lia). done.
  - destruct fuel' as [| fuel']; [lia |]. simpl.
    case_bool_decide; [| done].
    unfold mbind, M_bind.
    destruct (insert_chunks env _ w) as [[r | e] w1]; [| done].
    destruct (error r); [done |].
    apply IH; unfold BATCH_SIZE in *; lia.
Qed.

Lemma updateDocumentStatus_run (id : string) (status : Status) (w : World) :
  Documents.updateDocumentStatus env id status None w
  = (Return (bool_decide (db_error env (log w) (UpdateDocument id status None) = None)),
     status_updated env id status w).
Proof.
  unfold Documents.updateDocumentStatus, update_document, status_updated,
    send, mbind, M_bind, mret, M_ret, modify_world. simpl.
  by destruct (db_error env (log w) _).
Qed.

(** C4.  When the document record is found, the file is downloaded and
    text extraction yields zero pages, [processDocument] returns a failure
    with an error message; the only requests made are the fetch of the
    record, the download and the update of the status to [failed], so no
    chunk row is inserted and the chunk table is unchanged; once the
    database has applied the update, the status of the document is
    [failed]. *)
Theorem processDocument_no_pages (documentId : string) (w : World)
    (doc : Document.t) (file : list Byte.byte) (total : Z) :
  let fetched := log w ++ [SelectDocument documentId] in
  let downloaded := fetched ++ [Download (Document.file_url doc)] in
  let update := UpdateDocument documentId failed None in
  db_error env (log w) (SelectDocument documentId) = None →
  documents w !! documentId = Some doc →
  storage_download env fetched (Document.file_url doc) = inr file →
  getText env file = inr {| TextResult.pages := []; TextResult.total := total |} →
  ∃ w',
    processDocument env documentId w
    = (Return (Failure "Could not extract any text from the PDF."), w')
    ∧ log w' = downloaded ++ [update]
    ∧ Forall (λ req, is_insert req = false) (new_requests w w')
    ∧ document_chunks w' = document_chunks w
    ∧ document_insights w' = document_insights w
    ∧ (db_error env downloaded update = None →
       documents w' !! documentId
       = Some {| Document.file_url := Document.file_url doc;
                 Document.total_pages := Document.total_pages doc;
                 Document.status := failed |})
    ∧ (is_Some (db_error env downloaded update) → documents w' = documents w).
Proof.
  cbv zeta. intros Hselect Hdoc Hfile Htext.
  unfold processDocument, try_catch.
  erewrite bind_run by apply select_document_run.
  rewrite Hselect, Hdoc. simpl.
  erewrite bind_run by apply download_run.
  simpl. rewrite Hfile. simpl.
  unfold extractTextFromPdf. rewrite Htext. simpl.
  unfold mbind at 1, M_bind at 1, mret at 1, M_ret at 1. simpl.
  erewrite bind_run by apply updateDocumentStatus_run.
  eexists. split; [reflexivity |].
  unfold status_updated, new_requests, logged. simpl.
  destruct (db_error env ((log w ++ [SelectDocument documentId])
                          ++ [Download (Document.file_url doc)])
              (UpdateDocument documentId failed None)) as [e |]; simpl;
    rewrite <- !app_assoc; simpl; rewrite drop_app_length;
    (split_and!; [done | by repeat constructor | done | done | |]).
  - done.
  - done.
  - intros _. by rewrite lookup_alter_eq, Hdoc.
  - by intros [? ?].
Qed.

End Pipeline.

Lemma generateEmbeddings_witness :
  (∃ vectors,
     (generateEmbeddings Scenario.env (Scenario.texts 45) RETRIEVAL_DOCUMENT
        (Scenario.world 0)).1 = Return vectors
     ∧ length vectors = 45%nat
     ∧ length <$> batches (Scenario.texts 45) = [20; 20; 5]%nat)
  ∧ generateEmbeddings (Scenario.rate_limited Scenario.env) (Scenario.texts 45)
      RETRIEVAL_QUERY (Scenario.world 0)
    = (Throw (Error "Gemini embedding API error (429): RESOURCE_EXHAUSTED"),
       set_log (λ l, l ++ embed_requests RETRIEVAL_QUERY
                            (take 2 (batches (Scenario.texts 45))))
         (Scenario.world 0)).
Proof.
  split.
  - destruct (generateEmbeddings_batched Scenario.env RETRIEVAL_DOCUMENT
                (Scenario.texts 45) (Scenario.world 0)) as (_ & _ & _ & Hok & _ & _).
    destruct (Hok eq_refl (Scenario.vectors_of <$> batches (Scenario.texts 45)))
      as (vectors & Hrun & Hlen & _).
    + by rewrite length_fmap.
    + intros k Hk.
      assert (Hcases : (k = 0 ∨ k = 1 ∨ k = 2)%nat) by (vm_compute in Hk; lia).
      destruct Hcases as [-> | [-> | ->]]; by vm_compute.
    + exists vectors. rewrite Hrun. split_and!; [done | done | by vm_compute].
  - destruct (generateEmbeddings_batched (Scenario.rate_limited Scenario.env)
                RETRIEVAL_QUERY (Scenario.texts 45) (Scenario.world 0))
      as (_ & _ & _ & _ & Hstatus & _).
    apply (Hstatus eq_refl 1%nat 429%nat "RESOURCE_EXHAUSTED").
    + vm_compute. lia.
    + intros j Hj. assert (j = 0%nat) as -> by lia. eexists. by vm_compute.
    + by vm_compute.
Defined.

Example chunkText_long_pages :
  (λ c, (page_start c, page_end c, token_count c)) <$> chunkText Scenario.long_pages
  = [(1, 1, 798); (1, 4, 798); (4, 4, 798); (4, 4, 140)].
Proof. by vm_compute. Qed.

Example overlap_full_chunk :
  length (currentChunk Scenario.full_chunk) = 114%nat
  ∧ overlap (currentChunk Scenario.full_chunk) = (98, 100%nat).
Proof. by vm_compute. Qed.

Lemma processDocument_no_pages_witness :
  ∃ w',
    processDocument Scenario.env_scanned_pdf Scenario.DOC (Scenario.world 0)
    = (Return (Failure "Could not extract any text from the PDF."), w')
    ∧ document_chunks w' = []
    ∧ Document.status <$> documents w' !! Scenario.DOC = Some failed.
Proof.
  destruct (processDocument_no_pages Scenario.env_scanned_pdf Scenario.DOC
              (Scenario.world 0) Scenario.document
              [Byte.x25; Byte.x50; Byte.x44; Byte.x46] 3)
    as (w' & Hrun & _ & _ & Hchunks & _ & Hstatus & _);
    [reflexivity | reflexivity | reflexivity | reflexivity |].
  exists w'. split_and!; [exact Hrun | exact Hchunks |].
  by rewrite Hstatus.
Defined.

End RagFacts.

(** ** The insights module *)

Module InsightsFacts.
Import Schema Effects Supabase Insights RunFacts.

Section WithEnv.
Context (env : Env).

(** *** Running the primitives *)

Lemma cacheInsights_run (documentId : string) (insights : list Insight.t) (w : World) :
  cacheInsights env documentId insights w = (Return (), cached env documentId insights w).
Proof.
  unfold cacheInsights, cached, upsert_insights, send, mbind, M_bind, mret, M_ret,
    modify_world. simpl.
  by destruct (db_error env (log w) _).
Qed.

Lemma cached_log (documentId : string) (insights : list Insight.t) (w : World) :
  log (cached env documentId insights w)
  = log w ++ [UpsertInsights documentId insights].
Proof. unfold cached. by destruct (db_error env _ _). Qed.

Lemma reassign_ids_length (documentId : string) (allInsights : list Insight.t) :
  length (reassign_ids documentId allInsights) = length allInsights.
Proof. unfold reassign_ids. by rewrite length_imap. Qed.

Lemma reassign_ids_lookup (documentId : string) (allInsights : list Insight.t)
    (i : nat) (item : Insight.t) :
  allInsights !! i = Some item →
  reassign_ids documentId allInsights !! i
  = Some (Insight.with_id item (final_id documentId i)).
Proof. intros H. unfold reassign_ids. by rewrite list_lookup_imap, H. Qed.

(** C1.  For at most 6 candidates, [mergeAndCacheInsights] returns the
    candidates in order, each unchanged except for its id, which becomes
    [insight-{first 8 characters of the document id}-{index}]; the only
    request it makes is the upsert of that list into the insight cache of
    the document (so the generative model is not called), and once the
    database has applied the upsert the cache holds that list (the code
    does not look at the outcome of the upsert). *)
Theorem small_set_skips_merge (documentId : string)
    (allInsights : list Insight.t) (w : World) :
  (length allInsights ≤ 6)%nat →
  ∃ final w',
    mergeAndCacheInsights env documentId allInsights w = (Return final, w')
    ∧ length final = length allInsights
    ∧ (∀ i item, allInsights !! i = Some item →
         final !! i = Some
           {| Insight.id := "insight-" +:+ JS.slice0 8 documentId +:+ "-" +:+ pretty i;
              Insight.title := Insight.title item;
              Insight.description := Insight.description item;
              Insight.sources := Insight.sources item;
              Insight.researchDirections := Insight.researchDirections item |})
    ∧ log w' = log w ++ [UpsertInsights documentId final]
    ∧ Forall (λ req, is_generate req = false) (new_requests w w')
    ∧ documents w' = documents w
    ∧ document_chunks w' = document_chunks w
    ∧ (db_error env (log w) (UpsertInsights documentId final) = None →
       document_insights w' !! documentId = Some final)
    ∧ (is_Some (db_error env (log w) (UpsertInsights documentId final)) →
       document_insights w' = document_insights w).
Proof.
  intros Hsmall. exists (reassign_ids documentId allInsights).
  unfold mergeAndCacheInsights. rewrite bool_decide_eq_true_2 by done.
  eexists. split; [erewrite bind_run by apply cacheInsights_run; reflexivity |].
  split_and!.
  - apply reassign_ids_length.
  - intros i item Hi. by rewrite (reassign_ids_lookup _ _ _ _ Hi).
  - apply cached_log.
  - rewrite (new_requests_app _ _ _ (cached_log _ _ _)). by repeat constructor.
  - unfold cached. by destruct (db_error env _ _).
  - unfold cached. by destruct (db_error env _ _).
  - unfold cached. intros ->. simpl. apply lookup_insert_eq.
  - unfold cached. by intros [e ->].
Qed.

(** *** The plan *)

(** C5.  [getInsightPlan] returns [null] when the count query fails or
    the document has no chunk row; otherwise it returns the number [n] of
    chunk rows and the ceiling of [n / 10] as the number of groups; 25
    chunks give 3 groups. *)
Theorem getInsightPlan_spec (documentId : string) (w : World) :
  let n := length (rows_of documentId (document_chunks w)) in
  let rejected := db_error env (log w) (CountChunks documentId) in
  let out := (getInsightPlan env documentId w).1 in
  (is_Some rejected ∨ n = 0%nat → out = Return None)
  ∧ (rejected = None → n ≠ 0%nat →
     ∃ groups,
       out = Return (Some {| InsightPlan.totalChunks := Z.of_nat n;
                             InsightPlan.totalGroups := groups |})
       ∧ 10 * (groups - 1) < Z.of_nat n ≤ 10 * groups)
  ∧ (rejected = None → n = 25%nat →
     out = Return (Some {| InsightPlan.totalChunks := 25;
                           InsightPlan.totalGroups := 3 |})).
Proof.
  cbv zeta. unfold getInsightPlan.
  erewrite bind_run by apply (count_chunks_run env).
  split; [| split].
  - intros [[e He] | Hn].
    + by rewrite He.
    + destruct (db_error env _ _); [done |]. simpl.
      by rewrite bool_decide_eq_true_2.
  - intros -> Hn. simpl. rewrite bool_decide_eq_false_2 by done.
    eexists. split; [reflexivity |].
    apply RagFacts.ceil_div_bounds. unfold CHUNKS_PER_GROUP. lia.
  - intros -> Hn. simpl. rewrite Hn. reflexivity.
Qed.


(** *** Extraction of one group *)

Lemma getGeminiClient_run (w : World) :
  getGeminiClient env w
  = (if has_api_key env then Return () else Throw (Error Rag.NO_API_KEY), w).
Proof.
  unfold getGeminiClient, has_api_key.
  destruct (GEMINI_API_KEY env) as [k |]; [| done].
  by case_bool_decide.
Qed.

Lemma generate_run (req : GenerateRequest) (w : World) :
  generate env req w
  = (match generateContent env (log w) req with
     | inl e => Throw e
     | inr text => Return text
     end,
     logged (GenerateContent req) w).
Proof.
  unfold generate, send, mbind, M_bind. simpl.
  by destruct (generateContent env (log w) req).
Qed.

(** C10, as amended.  With the API key set, when the fetch of the
    group's chunks fails or yields no row (as it does for a group index at
    or beyond the last group), [extractGroupInsights] returns the empty
    list and its only request is that fetch: the generative model is not
    called.  Without the key it throws before fetching anything. *)
Theorem extractGroupInsights_nothing_to_read (documentId : string)
    (groupIndex totalGroups : nat) (w : World) :
  (has_api_key env = true →
   is_Some (db_error env (log w) (group_request documentId groupIndex))
   ∨ group_rows documentId groupIndex w = [] →
   extractGroupInsights env documentId groupIndex totalGroups w
   = (Return [], logged (group_request documentId groupIndex) w))
  ∧ ((length (rows_of documentId (document_chunks w)) ≤ groupIndex * 10)%nat →
     group_rows documentId groupIndex w = [])
  ∧ (has_api_key env = false →
     extractGroupInsights env documentId groupIndex totalGroups w
     = (Throw (Error Rag.NO_API_KEY), w)).
Proof.
  unfold extractGroupInsights, group_rows, group_request, CHUNKS_PER_GROUP.
  replace (groupIndex * 10 + 10 - 1)%nat with (groupIndex * 10 + 9)%nat by lia.
  split; [| split].
  - intros Hkey Hnone.
    erewrite bind_run by (rewrite getGeminiClient_run, Hkey; reflexivity).
    erewrite bind_run by apply (range_chunks_run env).
    destruct Hnone as [[e He] | Hrows].
    + by rewrite He.
    + destruct (db_error env _ _); [done |]. simpl. by rewrite Hrows.
  - intros Hlen. apply range_beyond_last. by rewrite ordered_rows_of_length.
  - intros Hkey.
    erewrite bind_throw by (rewrite getGeminiClient_run, Hkey; reflexivity).
    done.
Qed.

Lemma extractGroupInsights_invalid_json (documentId : string)
    (groupIndex totalGroups : nat) (w : World) (text message : string) :
  let fetch := group_request documentId groupIndex in
  let chunks := group_rows documentId groupIndex w in
  let req := extract_request groupIndex totalGroups chunks in
  has_api_key env = true →
  db_error env (log w) fetch = None →
  chunks ≠ [] →
  generateContent env (log w ++ [fetch]) req = inr text →
  JS.trim text ≠ "" →
  JSON_parse env (JS.trim text) = inl message →
  extractGroupInsights env documentId groupIndex totalGroups w
  = (Throw (Error message), logged (GenerateContent req) (logged fetch w)).
Proof.
  cbv zeta. unfold extractGroupInsights, group_rows, group_request, CHUNKS_PER_GROUP.
  replace (groupIndex * 10 + 10 - 1)%nat with (groupIndex * 10 + 9)%nat by lia.
  intros Hkey Hdb Hrows Hgen Hne Hparse.
  erewrite bind_run by (rewrite getGeminiClient_run, Hkey; reflexivity).
  erewrite bind_run by apply (range_chunks_run env).
  rewrite Hdb. simpl.
  rewrite bool_decide_eq_false_2 by (by intros ?%nil_length_inv).
  erewrite bind_run by (rewrite generate_run; simpl; rewrite Hgen; reflexivity).
  rewrite bool_decide_eq_false_2 by done.
  unfold parse. rewrite Hparse. reflexivity.
Qed.


(** *** What a run leaves untouched *)

Lemma preserves_getGeminiClient : preserves_tables (getGeminiClient env).
Proof. unfold getGeminiClient. tables. Qed.

Lemma preserves_extractGroupInsights (documentId : string) (groupIndex totalGroups : nat) :
  preserves_tables (extractGroupInsights env documentId groupIndex totalGroups).
Proof.
  unfold extractGroupInsights, range_chunks, generate, parse.
  pose proof preserves_getGeminiClient. tables.
Qed.

Lemma preserves_getCachedInsights (documentId : string) :
  preserves_tables (getCachedInsights env documentId).
Proof. unfold getCachedInsights, select_insights. tables. Qed.

Lemma preserves_getInsightPlan (documentId : string) :
  preserves_tables (getInsightPlan env documentId).
Proof. unfold getInsightPlan, count_chunks. tables. Qed.

Lemma settle_all_tables {A} (ms : list (M A)) (w : World) :
  Forall preserves_tables ms → same_tables w (settle_all ms w).2.
Proof.
  intros Hms. revert w. induction Hms as [| m ms Hm _ IH]; intros w; simpl.
  - apply same_tables_refl.
  - specialize (Hm w). destruct (m w) as [o w1]. specialize (IH w1).
    destruct (settle_all ms w1) as [os w2]. simpl in *.
    by eapply same_tables_trans.
Qed.

Lemma fulfilled_throw {A} (os : list (Outcome A)) (e : Exn) :
  Throw e ∈ os → ∃ e', fulfilled os = Throw e'.
Proof.
  induction os as [| o os IH]; [by intros ?%elem_of_nil |].
  intros [<- | Hin]%elem_of_cons; simpl; [eauto |].
  destruct o as [a | e0]; [| eauto].
  destruct (IH Hin) as [e' ->]. eauto.
Qed.

Lemma generateInsights_rejects (documentId : string) (w : World)
    (plan : InsightPlan.t) (e : Exn) :
  let w1 := (getCachedInsights env documentId w).2 in
  let w2 := (getInsightPlan env documentId w1).2 in
  (getCachedInsights env documentId w).1 = Return None →
  (getInsightPlan env documentId w1).1 = Return (Some plan) →
  Throw e ∈ (settle_all (group_runs env documentId plan) w2).1 →
  ∃ e', generateInsights env documentId w
        = (Throw e', (settle_all (group_runs env documentId plan) w2).2)
        ∧ same_tables w (settle_all (group_runs env documentId plan) w2).2.
Proof.
  cbv zeta. intros Hcache Hplan Hthrow.
  pose proof (preserves_getCachedInsights documentId w) as T1.
  destruct (getCachedInsights env documentId w) as [o1 w1] eqn:E1.
  simpl in *. subst o1.
  pose proof (preserves_getInsightPlan documentId w1) as T2.
  destruct (getInsightPlan env documentId w1) as [o2 w2] eqn:E2.
  simpl in *. subst o2.
  assert (T3 : same_tables w2 (settle_all (group_runs env documentId plan) w2).2).
  { apply settle_all_tables. unfold group_runs. apply Forall_fmap, Forall_forall.
    intros i _. exact (preserves_extractGroupInsights documentId i _). }
  destruct (fulfilled_throw _ _ Hthrow) as [e' He'].
  exists e'. split.
  - unfold generateInsights.
    rewrite (bind_run _ _ _ _ _ E1). rewrite (bind_run _ _ _ _ _ E2).
    apply bind_throw. unfold Promise_all. fold (group_runs env documentId plan).
    destruct (settle_all (group_runs env documentId plan) w2) as [os w3].
    simpl in *. by rewrite He'.
  - eapply same_tables_trans; [exact T1 |].
    eapply same_tables_trans; [exact T2 | exact T3].
Qed.


Lemma settle_all_lookup {A} (ms : list (M A)) (w : World) (i : nat) (m : M A) :
  ms !! i = Some m →
  (settle_all ms w).1 !! i = Some (m (settle_all (take i ms) w).2).1.
Proof.
  revert i w. induction ms as [| m0 ms IH]; intros i w Hi; [done |].
  destruct i as [| i]; simpl in *.
  - simplify_eq. destruct (m w) as [o w1].
    by destruct (settle_all ms w1) as [os w2].
  - specialize (IH i). destruct (m0 w) as [o w1]. specialize (IH w1 Hi).
    destruct (settle_all ms w1) as [os w2].
    destruct (settle_all (take i ms) w1) as [os' w2']. done.
Qed.

Lemma group_runs_lookup (documentId : string) (plan : InsightPlan.t) (i : nat) :
  (i < Z.to_nat (InsightPlan.totalGroups plan))%nat →
  group_runs env documentId plan !! i
  = Some (extractGroupInsights env documentId i
            (Z.to_nat (InsightPlan.totalGroups plan))).
Proof.
  intros Hi. unfold group_runs. by rewrite list_lookup_fmap, lookup_seq_lt.
Qed.

(** C2, as amended.  When the model's answer for a group is, once
    trimmed, not empty and not valid JSON, [extractGroupInsights] throws
    the error of [JSON.parse] after that single model call; and a run of
    [generateInsights] that misses the cache and in which some group gets
    such an answer rejects as a whole and leaves the tables, the insight
    cache among them, as they were. *)
Theorem invalid_json_rejects_extraction (documentId : string)
    (groupIndex totalGroups : nat) (w : World) (text message : string)
    (w0 : World) (plan : InsightPlan.t) :
  (let fetch := group_request documentId groupIndex in
   let chunks := group_rows documentId groupIndex w in
   let req := extract_request groupIndex totalGroups chunks in
   has_api_key env = true →
   db_error env (log w) fetch = None →
   chunks ≠ [] →
   generateContent env (log w ++ [fetch]) req = inr text →
   JS.trim text ≠ "" →
   JSON_parse env (JS.trim text) = inl message →
   extractGroupInsights env documentId groupIndex totalGroups w
   = (Throw (Error message), logged (GenerateContent req) (logged fetch w)))
  ∧ (let w1 := (getCachedInsights env documentId w0).2 in
     let w2 := (getInsightPlan env documentId w1).2 in
     let started := (settle_all (take groupIndex (group_runs env documentId plan)) w2).2 in
     let fetch := group_request documentId groupIndex in
     let chunks := group_rows documentId groupIndex started in
     let req := extract_request groupIndex
                  (Z.to_nat (InsightPlan.totalGroups plan)) chunks in
     (getCachedInsights env documentId w0).1 = Return None →
     (getInsightPlan env documentId w1).1 = Return (Some plan) →
     (groupIndex < Z.to_nat (InsightPlan.totalGroups plan))%nat →
     has_api_key env = true →
     db_error env (log started) fetch = None →
     chunks ≠ [] →
     generateContent env (log started ++ [fetch]) req = inr text →
     JS.trim text ≠ "" →
     JSON_parse env (JS.trim text) = inl message →
     ∃ e', (generateInsights env documentId w0).1 = Throw e'
           ∧ same_tables w0 (generateInsights env documentId w0).2).
Proof.
  split.
  - apply extractGroupInsights_invalid_json.
  - cbv zeta. intros Hcache Hplan Hi Hkey Hdb Hrows Hgen Hne Hparse.
    pose proof (extractGroupInsights_invalid_json documentId groupIndex _ _
                  text message Hkey Hdb Hrows Hgen Hne Hparse) as Hrun.
    pose proof (settle_all_lookup _
                  (getInsightPlan env documentId
                     (getCachedInsights env documentId w0).2).2
                  _ _ (group_runs_lookup documentId plan groupIndex Hi)) as Hout.
    rewrite Hrun in Hout. simpl in Hout.
    apply list_elem_of_lookup_2 in Hout.
    destruct (generateInsights_rejects documentId w0 plan _ Hcache Hplan Hout)
      as (e' & Hrej & Htables).
    exists e'. by rewrite Hrej.
Qed.

(** *** Merging *)

(** C3, as amended.  With more than 6 candidates and a merge answer from
    the model: when the answer is empty once trimmed, the candidates with
    their ids reassigned to [insight-{prefix}-{index}] are cached and
    returned; when it is not empty and not valid JSON,
    [mergeAndCacheInsights] throws the error of [JSON.parse] and writes
    nothing to the cache. *)
Theorem merge_response_empty_or_invalid (documentId : string)
    (allInsights : list Insight.t) (w : World) (text : string) :
  let req := merge_request (JSON_stringify env (strip_id <$> allInsights)) in
  let final := reassign_ids documentId allInsights in
  has_api_key env = true →
  (6 < length allInsights)%nat →
  generateContent env (log w) req = inr text →
  (JS.trim text = "" →
   ∃ w', mergeAndCacheInsights env documentId allInsights w = (Return final, w')
         ∧ length final = length allInsights
         ∧ (∀ i item, allInsights !! i = Some item →
              final !! i = Some (Insight.with_id item (final_id documentId i)))
         ∧ log w' = log w ++ [GenerateContent req; UpsertInsights documentId final]
         ∧ (db_error env (log w ++ [GenerateContent req])
              (UpsertInsights documentId final) = None →
            document_insights w' !! documentId = Some final))
  ∧ (∀ message,
       JS.trim text ≠ "" →
       JSON_parse env (JS.trim text) = inl message →
       mergeAndCacheInsights env documentId allInsights w
       = (Throw (Error message), logged (GenerateContent req) w)).
Proof.
  cbv zeta. intros Hkey Hlen Hgen.
  unfold mergeAndCacheInsights.
  rewrite bool_decide_eq_false_2 by lia.
  erewrite bind_run by (rewrite getGeminiClient_run, Hkey; reflexivity).
  erewrite bind_run by (rewrite generate_run, Hgen; reflexivity).
  split.
  - intros Hempty. rewrite bool_decide_eq_true_2 by done.
    eexists. split; [erewrite bind_run by apply cacheInsights_run; reflexivity |].
    split_and!.
    + apply reassign_ids_length.
    + apply reassign_ids_lookup.
    + rewrite cached_log. simpl. by rewrite <- app_assoc.
    + unfold cached. simpl. intros ->. simpl. apply lookup_insert_eq.
  - intros message Hne Hparse. rewrite bool_decide_eq_false_2 by done.
    unfold parse. rewrite Hparse. reflexivity.
Qed.

End WithEnv.

(** *** Concrete runs *)

Import Scenario.

Example json_round_trip :
  Json.parse (Json.stringify [raw 0; raw 1]) = inr [raw 0; raw 1].
Proof. by vm_compute. Qed.

Example extraction_of_one_group :
  Insight.id <$> default [] (match (extractGroupInsights env DOC 1 3 (world 25)).1 with
                             | Return insights => Some insights
                             | Throw _ => None
                             end)
  = ["insight-3f2a9c1e-g1-0"; "insight-3f2a9c1e-g1-1"].
Proof. by vm_compute. Qed.

(** 35 chunks: four groups, eight candidates, so the merge is asked for;
    its answer has three insights. *)
Example generateInsights_with_merge :
  let run := generateInsights env DOC (world 35) in
  (Insight.id <$> default [] (match run.1 with
                              | Return insights => Some insights
                              | Throw _ => None
                              end)
   = ["insight-3f2a9c1e-0"; "insight-3f2a9c1e-1"; "insight-3f2a9c1e-2"])
  ∧ length (filter (λ req, is_generate req = true) (log run.2)) = 5%nat
  ∧ length <$> document_insights run.2 !! DOC = Some 3%nat.
Proof. by vm_compute. Qed.

Lemma small_set_witness :
  ∃ final w',
    mergeAndCacheInsights env DOC (candidates 4) (world 3) = (Return final, w')
    ∧ Insight.id <$> final
      = ["insight-3f2a9c1e-0"; "insight-3f2a9c1e-1";
         "insight-3f2a9c1e-2"; "insight-3f2a9c1e-3"]
    ∧ Insight.title <$> final = Insight.title <$> candidates 4
    ∧ new_requests (world 3) w' = [UpsertInsights DOC final]
    ∧ document_insights w' !! DOC = Some final.
Proof.
  destruct (small_set_skips_merge env DOC (candidates 4) (world 3))
    as (final & w' & Hrun & _ & _ & Hlog & _ & _ & _ & Hcache & _);
    [vm_compute; lia |].
  exists final, w'. split; [exact Hrun |].
  split_and!.
  - vm_compute in Hrun. by injection Hrun as <- _.
  - vm_compute in Hrun. by injection Hrun as <- _.
  - by apply new_requests_app.
  - apply Hcache. reflexivity.
Defined.

Lemma plan_of_25_chunks_witness :
  (getInsightPlan env DOC (world 25)).1
  = Return (Some {| InsightPlan.totalChunks := 25; InsightPlan.totalGroups := 3 |}).
Proof.
  pose proof (getInsightPlan_spec env DOC (world 25)) as H.
  cbv zeta in H. destruct H as (_ & _ & H).
  apply H; reflexivity.
Defined.

Lemma extraction_without_key_throws :
  group_rows DOC 0 (world 0) = []
  ∧ (extractGroupInsights env_without_key DOC 0 1 (world 0)).1
    = Throw (Error "GEMINI_API_KEY environment variable is not set.")
  ∧ (extractGroupInsights env_without_key DOC 0 1 (world 0)).1 ≠ Return [].
Proof. split_and!; [reflexivity | reflexivity | discriminate]. Qed.

Lemma nothing_to_read_witness :
  extractGroupInsights env DOC 3 3 (world 25)
  = (Return [], logged (RangeChunks DOC 30 39) (world 25)).
Proof.
  destruct (extractGroupInsights_nothing_to_read env DOC 3 3 (world 25))
    as (H & Hbeyond & _).
  apply H; [reflexivity |]. right. apply Hbeyond. vm_compute. lia.
Defined.

Lemma prose_response_rejects_extraction :
  JS.trim (prose_reply (extract_request 0 2 (group_rows DOC 0 (world 13)))) ≠ ""
  ∧ Json.read (JS.trim (prose_reply (extract_request 0 2 (group_rows DOC 0 (world 13)))))
    = None
  ∧ (extractGroupInsights env_prose DOC 0 2 (world 13)).1
    = Throw (Error "Unexpected token in JSON")
  ∧ (extractGroupInsights env_prose DOC 0 2 (world 13)).1 ≠ Return []
  ∧ (generateInsights env_prose DOC (world 13)).1
    = Throw (Error "Unexpected token in JSON").
Proof.
  split_and!; [by vm_compute | by vm_compute | by vm_compute | by vm_compute |].
  by vm_compute.
Qed.

Lemma invalid_json_witness :
  (extractGroupInsights env_prose DOC 0 2 (world 13)).1
  = Throw (Error "Unexpected token in JSON")
  ∧ ∃ e', (generateInsights env_prose DOC (world 13)).1 = Throw e'
          ∧ same_tables (world 13) (generateInsights env_prose DOC (world 13)).2.
Proof.
  pose proof (invalid_json_rejects_extraction env_prose DOC 0 2 (world 13)
                (prose_reply (extract_request 0 2 (group_rows DOC 0 (world 13))))
                "Unexpected token in JSON" (world 13)
                {| InsightPlan.totalChunks := 13; InsightPlan.totalGroups := 2 |})
    as [HA HB].
  cbv zeta in HA, HB. split.
  - rewrite HA; [reflexivity | reflexivity | reflexivity | by vm_compute
                | reflexivity | by vm_compute | reflexivity].
  - apply HB; [reflexivity | reflexivity | vm_compute; lia | reflexivity
              | reflexivity | by vm_compute | reflexivity | by vm_compute
              | reflexivity].
Defined.

Lemma prose_merge_response_throws :
  (6 < length (candidates 7))%nat
  ∧ Json.read (JS.trim (prose_reply
      (merge_request (Json.stringify (strip_id <$> candidates 7))))) = None
  ∧ (mergeAndCacheInsights env_prose DOC (candidates 7) (world 3)).1
    = Throw (Error "Unexpected token in JSON")
  ∧ document_insights (mergeAndCacheInsights env_prose DOC (candidates 7) (world 3)).2
      !! DOC = None.
Proof. split_and!; [vm_compute; lia | by vm_compute ..]. Qed.

Lemma merge_response_witness :
  (∃ w', mergeAndCacheInsights env_blank DOC (candidates 7) (world 3)
         = (Return (reassign_ids DOC (candidates 7)), w')
         ∧ document_insights w' !! DOC = Some (reassign_ids DOC (candidates 7)))
  ∧ (mergeAndCacheInsights env_prose DOC (candidates 7) (world 3)).1
    = Throw (Error "Unexpected token in JSON").
Proof.
  split.
  - destruct (merge_response_empty_or_invalid env_blank DOC (candidates 7) (world 3)
                (blank_reply (merge_request (Json.stringify (strip_id <$> candidates 7)))))
      as [H _]; [reflexivity | vm_compute; lia | reflexivity |].
    destruct H as (w' & Hrun & _ & _ & _ & Hcache); [by vm_compute |].
    exists w'. split; [exact Hrun | apply Hcache; reflexivity].
  - destruct (merge_response_empty_or_invalid env_prose DOC (candidates 7) (world 3)
                (prose_reply (merge_request (Json.stringify (strip_id <$> candidates 7)))))
      as [_ H]; [reflexivity | vm_compute; lia | reflexivity |].
    rewrite (H "Unexpected token in JSON"); [reflexivity | by vm_compute | by vm_compute].
Defined.

End InsightsFacts.

(** * Further properties *)

(** ** The chunker: what every chunk holds *)

Module ChunkerFacts.
Import Schema Effects Supabase Rag RunFacts RagFacts Vocabulary.

(** *** Strings *)

Lemma string_app_cons (c : ascii) (s t : string) :
  String c s +:+ t = String c (s +:+ t).
Proof. reflexivity. Qed.

Lemma string_app_nil_r (s : string) : s +:+ "" = s.
Proof. induction s as [| c s IH]; [done | by rewrite string_app_cons, IH]. Qed.

Lemma string_app_assoc (s1 s2 s3 : string) :
  (s1 +:+ s2) +:+ s3 = s1 +:+ (s2 +:+ s3).
Proof.
  induction s1 as [| c s1 IH]; [done | by rewrite !string_app_cons, IH].
Qed.

Lemma is_substring_refl (s : string) : is_substring s s.
Proof. exists "", "". by rewrite string_app_nil_r. Qed.

Lemma is_substring_app_l (s t u : string) :
  is_substring s t → is_substring s (u +:+ t).
Proof.
  intros (b & a & ->). exists (u +:+ b), a. by rewrite string_app_assoc.
Qed.

Lemma is_substring_app_r (s t u : string) :
  is_substring s t → is_substring s (t +:+ u).
Proof.
  intros (b & a & ->). exists b, (a +:+ u). by rewrite !string_app_assoc.
Qed.

Lemma join_cons (sep s : string) (l : list string) :
  l ≠ [] → JS.join sep (s :: l) = s +:+ sep +:+ JS.join sep l.
Proof. destruct l; [done | reflexivity]. Qed.

Lemma join_elem_of (sep s : string) (l : list string) :
  s ∈ l → is_substring s (JS.join sep l).
Proof.
  induction l as [| x l IH]; [by intros ?%elem_of_nil |].
  destruct l as [| y l].
  - intros ->%list_elem_of_singleton. simpl. apply is_substring_refl.
  - rewrite join_cons by done.
    intros [-> | Hin]%elem_of_cons.
    + apply is_substring_app_r, is_substring_refl.
    + by apply is_substring_app_l, is_substring_app_l, IH.
Qed.

Lemma join_nonempty (sep : string) (l : list string) :
  l ≠ [] → Forall (λ s, s ≠ "") l → JS.join sep l ≠ "".
Proof.
  destruct l as [| s l]; [done |]. intros _ Hall.
  apply Forall_cons in Hall as [Hs _].
  destruct l as [| y l]; [done |]. rewrite join_cons by done.
  destruct s; [done | discriminate].
Qed.

Lemma estimateTokens_pos (s : string) : s ≠ "" → 1 ≤ estimateTokens s.
Proof.
  intros Hs. pose proof (estimateTokens_bounds s).
  destruct s; [done |]. simpl String.length in *. lia.
Qed.

(** *** The sentence stream *)

Lemma page_sentences_nonempty (p s : PageText) :
  s ∈ page_sentences p → text s ≠ "".
Proof.
  unfold page_sentences. intros (part & _ & H)%list_elem_of_omap.
  case_bool_decide as Hlen; [| done]. simplify_eq. simpl.
  intros E. rewrite E in Hlen. simpl in Hlen. lia.
Qed.

Lemma sentence_stream_nonempty (pages : list PageText) :
  Forall (λ s, text s ≠ "") (sentence_stream pages).
Proof.
  apply Forall_forall. intros s (p & Hs & _)%list_elem_of_bind.
  by eapply page_sentences_nonempty.
Qed.

(** *** The loop *)

(** A property of the loop variables that every iteration keeps holds
    after the loop. *)
Lemma chunk_loop_holds (Q : ChunkState → Prop)
    (sentences : list PageText) (st : ChunkState) :
  (∀ st s, Q st → s ∈ sentences → Q (chunk_step st s)) →
  Q st → Q (foldl chunk_step st sentences).
Proof.
  revert st. induction sentences as [| s rest IH]; intros st Hstep HQ; [done |].
  simpl. apply IH.
  - intros st' s' ? ?. apply Hstep; [done | by right].
  - apply Hstep; [done | left].
Qed.

Lemma finalize_fields (st : ChunkState) (sentence : PageText) :
  ∃ k, is_overlap_start (currentChunk st) k
     ∧ finalize st sentence
       = {| chunks := chunks st ++ [current_as_chunk st];
            currentChunk := drop k (currentChunk st);
            currentTokens := tokens_of (drop k (currentChunk st));
            chunkPageStart := page sentence;
            chunkPageEnd := chunkPageEnd st |}.
Proof.
  destruct (overlap_spec (currentChunk st)) as (k & E & Hk).
  exists k. split; [done |]. unfold finalize. by rewrite E.
Qed.

Lemma must_finalize_true (st : ChunkState) (sentence : PageText) :
  must_finalize st sentence = true →
  currentChunk st ≠ []
  ∧ CHUNK_SIZE < currentTokens st + estimateTokens (text sentence).
Proof.
  unfold must_finalize. intros [H1 H2]%andb_true_iff.
  apply bool_decide_eq_true in H1, H2. split; [| lia].
  intros E. rewrite E in H2. simpl in H2. lia.
Qed.

Lemma must_finalize_false (st : ChunkState) (sentence : PageText) :
  must_finalize st sentence = false →
  currentChunk st = []
  ∨ currentTokens st + estimateTokens (text sentence) ≤ CHUNK_SIZE.
Proof.
  unfold must_finalize. intros [H | H]%andb_false_iff;
    apply bool_decide_eq_false in H.
  - right. lia.
  - left. destruct (currentChunk st); [done | simpl in H; lia].
Qed.

(** After at least one iteration the loop holds a sentence, so the last
    chunk is always pushed. *)
Lemma chunk_loop_current_nonempty (sentences : list PageText) (st : ChunkState) :
  sentences ≠ [] → currentChunk (foldl chunk_step st sentences) ≠ [].
Proof.
  intros Hne. destruct (exists_last Hne) as (l & s & ->).
  rewrite foldl_snoc. unfold chunk_step, append_sentence. simpl.
  intros E. by apply app_eq_nil in E as [_ ?].
Qed.

Lemma chunk_sentences_cons (first : PageText) (rest : list PageText) :
  let st := foldl chunk_step (chunk_init first) (first :: rest) in
  chunk_sentences (first :: rest) = chunks st ++ [current_as_chunk st].
Proof.
  cbv zeta. unfold chunk_sentences, chunk_finish.
  pose proof (chunk_loop_current_nonempty (first :: rest) (chunk_init first)
                ltac:(done)) as Hne.
  rewrite bool_decide_eq_true_2; [done |].
  destruct (currentChunk _); [done | simpl; lia].
Qed.

(** The same for a property of the sentences read so far and the loop
    variables. *)
Lemma chunk_loop_prefix (P : list PageText → ChunkState → Prop)
    (rest done : list PageText) (st : ChunkState) :
  (∀ done st s, P done st → P (done ++ [s]) (chunk_step st s)) →
  P done st → P (done ++ rest) (foldl chunk_step st rest).
Proof.
  intros Hstep. revert done st.
  induction rest as [| s rest IH]; intros done st HP.
  - by rewrite app_nil_r.
  - simpl. rewrite cons_middle, app_assoc. apply IH, Hstep, HP.
Qed.

(** The first iteration never finalizes. *)
Lemma chunk_step_first (first : PageText) :
  chunk_step (chunk_init first) first
  = {| chunks := [];
       currentChunk := [text first];
       currentTokens := 0 + estimateTokens (text first);
       chunkPageStart := page first;
       chunkPageEnd := page first |}.
Proof.
  unfold chunk_step, must_finalize. simpl.
  by rewrite andb_false_r.
Qed.

(** *** Windows of the sentence stream *)

Lemma segment_all {A} (a : nat) (l : list A) : segment a (length l) l = drop a l.
Proof. unfold segment. apply take_ge. rewrite length_drop. lia. Qed.

Lemma segment_app_l {A} (a b : nat) (l k : list A) :
  (b ≤ length l)%nat → segment a b (l ++ k) = segment a b l.
Proof.
  intros Hb. unfold segment. destruct (decide (a ≤ length l)%nat) as [Ha | Ha].
  - rewrite drop_app_le by done. apply take_app_le. rewrite length_drop. lia.
  - by replace (b - a)%nat with 0%nat by lia.
Qed.

Lemma window_texts_app (stream more : list PageText) (w : nat * nat) :
  (w.2 ≤ length stream)%nat →
  window_texts (stream ++ more) w = window_texts stream w.
Proof. intros Hw. unfold window_texts. by rewrite segment_app_l. Qed.

Lemma window_texts_all (stream : list PageText) (a : nat) :
  window_texts stream (a, length stream) = text <$> drop a stream.
Proof. unfold window_texts. simpl. by rewrite segment_all. Qed.

Lemma is_window_app (stream more : list PageText) (w : nat * nat) (c : TextChunk) :
  is_window stream w c → is_window (stream ++ more) w c.
Proof.
  intros [Hb Hc Ht Hp Hbud]. split.
  - rewrite length_app. lia.
  - by rewrite window_texts_app by lia.
  - done.
  - rewrite lookup_app_l by lia. done.
  - by rewrite window_texts_app by lia.
Qed.

Lemma follows_app (stream more : list PageText) (w w' : nat * nat) (c' : TextChunk) :
  follows stream w w' c' → follows (stream ++ more) w w' c'.
Proof.
  intros [(s & Hs & Hfull) Ho Hn Hp].
  pose proof (lookup_lt_Some _ _ _ Hs) as Hlt.
  split.
  - exists s. rewrite lookup_app_l by done.
    by rewrite window_texts_app by lia.
  - by rewrite window_texts_app by lia.
  - done.
  - by rewrite lookup_app_l by done.
Qed.

Lemma windows_of_app (stream more : list PageText) (ws : list (nat * nat))
    (cs : list TextChunk) :
  windows_of stream ws cs → windows_of (stream ++ more) ws cs.
Proof.
  intros [He Hf Hn]. split.
  - eapply Forall2_impl; [exact He |]. intros w c. apply is_window_app.
  - intros w c Hw Hc. destruct (Hf w c Hw Hc) as [H1 H2]. split; [done |].
    assert (Hin : is_window stream w c)
      by (eapply Forall2_lookup_lr; [exact He | exact Hw | exact Hc]).
    destruct Hin as [Hb _ _ _ _]. rewrite lookup_app_l by lia. done.
  - intros i w w' c' Hw Hw' Hc'. by apply follows_app, (Hn i).
Qed.

(** One more chunk after the chunks of [ws]. *)
Lemma windows_of_snoc (stream : list PageText) (ws : list (nat * nat))
    (cs : list TextChunk) (w : nat * nat) (c : TextChunk) :
  windows_of stream ws cs →
  is_window stream w c →
  (ws = [] → w.1 = 0%nat ∧ page <$> stream !! 0%nat = Some (page_start c)) →
  (∀ w0, last ws = Some w0 → follows stream w0 w c) →
  windows_of stream (ws ++ [w]) (cs ++ [c]).
Proof.
  intros [He Hf Hn] Hw Hfirst Hlast.
  pose proof (Forall2_length _ _ _ He) as Hlen.
  split.
  - apply Forall2_app; [done | by constructor].
  - intros w1 c1 [[_ H1] | [H1 ->]]%lookup_snoc_Some [[_ H2] | [H2 ->]]%lookup_snoc_Some.
    + by apply Hf.
    + apply lookup_lt_Some in H1. lia.
    + apply lookup_lt_Some in H2. lia.
    + apply Hfirst. destruct ws; [done | simpl in H1; lia].
  - intros i w1 w2 c2 H1 H2 H3.
    apply lookup_snoc_Some in H2 as [[Hi H2] | [Hi ->]].
    + apply lookup_snoc_Some in H3 as [[_ H3] | [H3 _]]; [| lia].
      apply lookup_snoc_Some in H1 as [[_ H1] | [H1 _]]; [| lia].
      by apply (Hn i).
    + apply lookup_snoc_Some in H3 as [[H3 _] | [_ ->]]; [lia |].
      apply lookup_snoc_Some in H1 as [[_ H1] | [H1 _]]; [| lia].
      apply Hlast. rewrite last_lookup. rewrite <- Hi. simpl. done.
Qed.

(** The invariant of the main loop once the first sentence is read: the
    pushed chunks are windows of the sentences read so far, and the
    current variables describe the window that is still open. *)
Lemma chunk_step_windows (done : list PageText) (st : ChunkState) (s : PageText) :
  (∃ ws a,
     windows_of done ws (chunks st)
     ∧ is_window done (a, length done) (current_as_chunk st)
     ∧ (ws = [] → a = 0%nat ∧ page <$> done !! 0%nat = Some (chunkPageStart st))
     ∧ (∀ w0, last ws = Some w0 →
          follows done w0 (a, length done) (current_as_chunk st))
     ∧ currentChunk st = text <$> drop a done
     ∧ currentTokens st = tokens_of (currentChunk st)) →
  let done' := done ++ [s] in
  let st' := chunk_step st s in
  ∃ ws a,
    windows_of done' ws (chunks st')
    ∧ is_window done' (a, length done') (current_as_chunk st')
    ∧ (ws = [] → a = 0%nat ∧ page <$> done' !! 0%nat = Some (chunkPageStart st'))
    ∧ (∀ w0, last ws = Some w0 →
         follows done' w0 (a, length done') (current_as_chunk st'))
    ∧ currentChunk st' = text <$> drop a done'
    ∧ currentTokens st' = tokens_of (currentChunk st').
Proof.
  intros (ws & a & Hws & Hwin & Hfirst & Hlast & Hcur & Htok). cbv zeta.
  pose proof (window_bounds _ _ _ Hwin) as Hb. simpl in Hb.
  assert (Hlen : length (done ++ [s]) = S (length done))
    by (rewrite length_app; simpl; lia).
  assert (Hs : (done ++ [s]) !! length done = Some s)
    by (by rewrite lookup_app_r, Nat.sub_diag by lia).
  assert (Hne : currentChunk st ≠ []).
  { rewrite Hcur. intros E. apply (f_equal length) in E.
    rewrite length_fmap, length_drop in E. simpl in E. lia. }
  unfold chunk_step. destruct (must_finalize st s) eqn:E.
  - destruct (finalize_fields st s) as (k & Hk & ->).
    destruct (must_finalize_true st s E) as [_ Hfull].
    pose proof Hk as (Hkle & Hkb & _).
    rewrite Hcur, length_fmap, length_drop in Hkle.
    assert (Hcur' : drop k (currentChunk st) ++ [text s]
                    = text <$> drop (a + k) (done ++ [s])).
    { rewrite Hcur, <- fmap_drop, drop_drop.
      rewrite drop_app_le by lia. by rewrite fmap_app. }
    exists (ws ++ [(a, length done)]), (a + k)%nat. simpl. split_and!.
    + by apply windows_of_app, windows_of_snoc.
    + split; simpl.
      * rewrite Hlen. lia.
      * rewrite Hlen, <- Hlen, window_texts_all. by rewrite Hcur'.
      * done.
      * rewrite Hlen. simpl. rewrite Nat.sub_0_r, Hs. done.
      * rewrite Hlen, <- Hlen, window_texts_all, <- Hcur'.
        right. by exists (drop k (currentChunk st)), (text s).
    + intros Hnil. by apply app_eq_nil in Hnil as [_ ?].
    + intros w0. rewrite last_snoc. intros [= <-].
      assert (Hw : window_texts (done ++ [s]) (a, length done) = currentChunk st).
      { rewrite window_texts_app by (simpl; lia).
        by rewrite window_texts_all. }
      split; simpl.
      * exists s. split; [done |]. rewrite Hw, <- Htok. done.
      * exists k. split; [done |]. by rewrite Hw.
      * rewrite Hlen. lia.
      * by rewrite Hs.
    + done.
    + rewrite tokens_of_app. simpl. lia.
  - destruct (must_finalize_false st s E) as [Hnil | Hfit]; [done |].
    assert (Hcur' : currentChunk st ++ [text s] = text <$> drop a (done ++ [s])).
    { rewrite Hcur. rewrite drop_app_le by lia. by rewrite fmap_app. }
    exists ws, a. simpl. split_and!.
    + by apply windows_of_app.
    + split; simpl.
      * rewrite Hlen. lia.
      * rewrite Hlen, <- Hlen, window_texts_all. by rewrite Hcur'.
      * done.
      * rewrite Hlen. simpl. rewrite Nat.sub_0_r, Hs. done.
      * rewrite Hlen, <- Hlen, window_texts_all, <- Hcur'.
        left. rewrite tokens_of_app. simpl. lia.
    + intros Hnil. destruct (Hfirst Hnil) as [-> Hp]. split; [done |].
      rewrite lookup_app_l by lia. done.
    + intros w0 Hw0. destruct (Hlast w0 Hw0) as [Hf Ho Hn Hp].
      apply (follows_app done [s]). split; simpl in *; try done. lia.
    + done.
    + rewrite tokens_of_app. simpl. lia.
Qed.

Lemma chunk_sentences_windows (stream : list PageText) :
  ∃ ws, windows_of stream ws (chunk_sentences stream)
        ∧ (stream ≠ [] → ∃ w, last ws = Some w ∧ w.2 = length stream).
Proof.
  destruct stream as [| first rest].
  { exists []. split; [| done].
    split; [apply Forall2_nil_2 | by intros ?? [=] | by intros ???? [=]]. }
  rewrite chunk_sentences_cons. cbv zeta. simpl foldl.
  change (first :: rest) with ([first] ++ rest).
  set (st1 := chunk_step (chunk_init first) first).
  pose proof (chunk_loop_prefix
    (λ done st, ∃ ws a,
       windows_of done ws (chunks st)
       ∧ is_window done (a, length done) (current_as_chunk st)
       ∧ (ws = [] → a = 0%nat ∧ page <$> done !! 0%nat = Some (chunkPageStart st))
       ∧ (∀ w0, last ws = Some w0 →
            follows done w0 (a, length done) (current_as_chunk st))
       ∧ currentChunk st = text <$> drop a done
       ∧ currentTokens st = tokens_of (currentChunk st))
    rest [first] st1) as Hloop.
  destruct Hloop as (ws & a & Hws & Hwin & Hfirst & Hlast & _ & _).
  - intros done st s. apply chunk_step_windows.
  - exists [], 0%nat. unfold st1. rewrite chunk_step_first. split_and!.
    + split; [apply Forall2_nil_2 | by intros ?? [=] | by intros ???? [=]].
    + split; simpl; try done; [lia |].
      right. by exists [], (text first).
    + done.
    + by intros ? [=].
    + done.
    + simpl. lia.
  - exists (ws ++ [(a, length ([first] ++ rest))]). split.
    + by apply windows_of_snoc.
    + intros _. eexists. by rewrite last_snoc.
Qed.

(** X1.  The chunks are overlapping windows of the sentence stream, in order
    and without gaps.  The first window starts at the first sentence and
    the last one ends at the last sentence.  A window is closed only when
    the next sentence would take the running estimate above [CHUNK_SIZE];
    the next window then starts at the longest trailing run of the closed
    one that fits [CHUNK_OVERLAP] and takes at least the next sentence.
    A chunk's content is its sentences joined by one space, its token
    count the estimate of that content, its [page_end] the page of its
    last sentence, and its [page_start] the page of its first sentence
    after the overlap. *)
Theorem chunkText_windows (pages : list PageText) :
  let stream := sentence_stream pages in
  ∃ ws, windows_of stream ws (chunkText pages)
        ∧ (stream ≠ [] → ∃ w, last ws = Some w ∧ w.2 = length stream).
Proof. cbv zeta. unfold chunkText. apply chunk_sentences_windows. Qed.

(** *** What every chunk holds *)

Lemma windows_of_elem (stream : list PageText) (ws : list (nat * nat))
    (cs : list TextChunk) (c : TextChunk) :
  windows_of stream ws cs → c ∈ cs → ∃ w, is_window stream w c.
Proof.
  intros [He _ _] (i & Hi)%list_elem_of_lookup_1.
  destruct (Forall2_lookup_r _ _ _ _ _ He Hi) as (w & _ & Hw). by exists w.
Qed.

Lemma segment_length {A} (a b : nat) (l : list A) :
  (a ≤ b ≤ length l)%nat → length (segment a b l) = (b - a)%nat.
Proof. intros H. unfold segment. rewrite length_take, length_drop. lia. Qed.

Lemma segment_elem_of {A} (a b : nat) (l : list A) (x : A) :
  x ∈ segment a b l → x ∈ l.
Proof.
  unfold segment. intros H.
  by apply (subseteq_drop a l), (subseteq_take (b - a) (drop a l)).
Qed.

Lemma window_texts_nonempty (stream : list PageText) (w : nat * nat) (c : TextChunk) :
  is_window stream w c → window_texts stream w ≠ [].
Proof.
  intros [Hb _ _ _ _] E. apply (f_equal length) in E.
  unfold window_texts in E. rewrite length_fmap, segment_length in E by lia.
  simpl in E. lia.
Qed.

Lemma window_texts_elem_of (stream : list PageText) (w : nat * nat) (t : string) :
  t ∈ window_texts stream w → ∃ s, s ∈ stream ∧ t = text s.
Proof.
  unfold window_texts. intros (s & -> & Hs)%list_elem_of_fmap.
  exists s. split; [by eapply segment_elem_of | done].
Qed.

Lemma string_length_app (s t : string) :
  String.length (s +:+ t) = (String.length s + String.length t)%nat.
Proof.
  induction s as [| c s IH]; [done |]. rewrite string_app_cons. simpl.
  by rewrite IH.
Qed.

(** The joined content is one character per separator longer than its
    sentences, each of which is at most four characters per estimated
    token long. *)
Lemma join_length_le (l : list string) :
  l ≠ [] →
  Z.of_nat (String.length (JS.join " " l)) + 1
  ≤ 4 * tokens_of l + Z.of_nat (length l).
Proof.
  induction l as [| s l IH]; [done |]. intros _.
  pose proof (estimateTokens_bounds s) as [_ Hs].
  destruct l as [| y l].
  - simpl. lia.
  - rewrite join_cons by done. rewrite !string_length_app.
    specialize (IH ltac:(done)).
    change (tokens_of (s :: y :: l)) with (estimateTokens s + tokens_of (y :: l)).
    change (length (s :: y :: l)) with (S (length (y :: l))).
    change (String.length " ") with 1%nat. lia.
Qed.

Lemma tokens_of_length (l : list string) :
  Forall (λ s, s ≠ "") l → Z.of_nat (length l) ≤ tokens_of l.
Proof.
  induction 1 as [| s l Hs _ IH]; [done |].
  pose proof (estimateTokens_pos s Hs).
  change (tokens_of (s :: l)) with (estimateTokens s + tokens_of l).
  simpl length. lia.
Qed.

(** X2.  The chunker produces no chunk exactly when no page holds a sentence,
    and never an empty chunk: each chunk has content, and a token count of
    at least 1 that is the estimate of its content. *)
Theorem chunkText_chunks_nonempty (pages : list PageText) :
  (chunkText pages = [] ↔ sentence_stream pages = [])
  ∧ ∀ c, c ∈ chunkText pages →
      content c ≠ ""
      ∧ token_count c = estimateTokens (content c)
      ∧ 1 ≤ token_count c.
Proof.
  split.
  - unfold chunkText. destruct (sentence_stream pages) as [| first rest]; [done |].
    rewrite chunk_sentences_cons. cbv zeta. split; [| done].
    intros H. by apply app_eq_nil in H as [_ ?].
  - intros c Hc.
    destruct (chunk_sentences_windows (sentence_stream pages)) as (ws & Hws & _).
    destruct (windows_of_elem _ _ _ c Hws Hc) as (w & Hw).
    assert (Hcontent : content c ≠ "").
    { rewrite (window_content _ _ _ Hw). apply join_nonempty.
      - by eapply window_texts_nonempty.
      - apply Forall_forall. intros t (s & Hs & ->)%window_texts_elem_of.
        pose proof (sentence_stream_nonempty pages) as Hall.
        rewrite Forall_forall in Hall. by apply Hall. }
    split_and!; [done | apply (window_tokens _ _ _ Hw) |].
    rewrite (window_tokens _ _ _ Hw). by apply estimateTokens_pos.
Qed.

(** X3.  Every chunk is made of sentences of the stream, joined by one space,
    whose estimates fit [CHUNK_SIZE] unless the chunk is an overlap within
    [CHUNK_OVERLAP] followed by a single sentence (a sentence is never
    split).  The stored token count is computed from the joined content,
    not from the running sum: it can exceed that sum, by less than a token
    per four sentences, so it stays within 1000 for a chunk whose sentences
    fit [CHUNK_SIZE]. *)
Theorem chunkText_soft_ceiling (pages : list PageText) (c : TextChunk) :
  c ∈ chunkText pages →
  ∃ cur,
    cur ≠ []
    ∧ (∀ t, t ∈ cur → ∃ s, s ∈ sentence_stream pages ∧ t = text s)
    ∧ content c = JS.join " " cur
    ∧ within_soft_ceiling cur
    ∧ 4 * token_count c ≤ 4 * tokens_of cur + Z.of_nat (length cur) + 2
    ∧ (tokens_of cur ≤ CHUNK_SIZE → token_count c ≤ 1000).
Proof.
  intros Hc.
  destruct (chunk_sentences_windows (sentence_stream pages)) as (ws & Hws & _).
  destruct (windows_of_elem _ _ _ c Hws Hc) as (w & Hw).
  set (cur := window_texts (sentence_stream pages) w).
  assert (Hne : cur ≠ []) by (by eapply window_texts_nonempty).
  assert (Hall : Forall (λ s, s ≠ "") cur).
  { apply Forall_forall. intros t (s & Hs & ->)%window_texts_elem_of.
    pose proof (sentence_stream_nonempty pages) as Hall.
    rewrite Forall_forall in Hall. by apply Hall. }
  assert (Hbound : 4 * token_count c ≤ 4 * tokens_of cur + Z.of_nat (length cur) + 2).
  { rewrite (window_tokens _ _ _ Hw), (window_content _ _ _ Hw). fold cur.
    pose proof (estimateTokens_bounds (JS.join " " cur)) as [Hlo _].
    pose proof (join_length_le cur Hne). lia. }
  exists cur. split_and!; try done.
  - apply window_texts_elem_of.
  - apply (window_content _ _ _ Hw).
  - apply (window_budget _ _ _ Hw).
  - intros Hfit. pose proof (tokens_of_length cur Hall).
    unfold CHUNK_SIZE in Hfit. lia.
Qed.

(** *** No sentence is lost *)

Lemma chunk_step_covers (done : list PageText) (st : ChunkState) (s : PageText) :
  (∀ s0, s0 ∈ done →
     text s0 ∈ currentChunk st
     ∨ ∃ c cur, c ∈ chunks st ∧ content c = JS.join " " cur ∧ text s0 ∈ cur) →
  ∀ s0, s0 ∈ done ++ [s] →
    text s0 ∈ currentChunk (chunk_step st s)
    ∨ ∃ c cur, c ∈ chunks (chunk_step st s)
               ∧ content c = JS.join " " cur ∧ text s0 ∈ cur.
Proof.
  intros Hinv s0 [Hs0 | ->%list_elem_of_singleton]%elem_of_app.
  - unfold chunk_step. destruct (must_finalize st s).
    + destruct (finalize_fields st s) as (k & _ & ->). simpl. right.
      destruct (Hinv s0 Hs0) as [Hcur | (c & cur & Hc & Hcontent & Hin)].
      * exists (current_as_chunk st), (currentChunk st).
        split_and!; [apply elem_of_app; right; left | done | done].
      * exists c, cur. split_and!; [apply elem_of_app; by left | done | done].
    + simpl. destruct (Hinv s0 Hs0) as [Hcur | Hpushed]; [left | by right].
      apply elem_of_app. by left.
  - left. unfold chunk_step, append_sentence. simpl.
    apply elem_of_app. right. left.
Qed.

(** X4.  Every sentence of the stream is in at least one chunk, whole: it is
    one of the sentences the chunk's content joins, hence a substring of
    that content. *)
Theorem chunkText_covers_sentences (pages : list PageText) (s : PageText) :
  s ∈ sentence_stream pages →
  ∃ c cur,
    c ∈ chunkText pages
    ∧ content c = JS.join " " cur
    ∧ text s ∈ cur
    ∧ is_substring (text s) (content c).
Proof.
  unfold chunkText. destruct (sentence_stream pages) as [| first rest] eqn:E;
    [by intros ?%elem_of_nil |].
  intros Hs. rewrite chunk_sentences_cons. cbv zeta.
  pose proof (chunk_loop_prefix
    (λ done st, ∀ s0, s0 ∈ done →
       text s0 ∈ currentChunk st
       ∨ ∃ c cur, c ∈ chunks st ∧ content c = JS.join " " cur ∧ text s0 ∈ cur)
    (first :: rest) [] (chunk_init first) chunk_step_covers) as Hloop.
  simpl app in Hloop.
  destruct (Hloop ltac:(by intros ? ?%elem_of_nil) s Hs)
    as [Hcur | (c & cur & Hc & Hcontent & Hin)].
  - eexists (current_as_chunk _), _.
    split_and!; [apply elem_of_app; right; left | reflexivity | exact Hcur |].
    simpl. by apply join_elem_of.
  - exists c, cur. split_and!; [apply elem_of_app; by left | done | done |].
    rewrite Hcontent. by apply join_elem_of.
Qed.

(** *** Page ranges *)

Lemma sorted_stream_lookup (stream : list PageText) (i j : nat) (s t : PageText) :
  StronglySorted pages_le stream →
  (i ≤ j)%nat → stream !! i = Some s → stream !! j = Some t → page s ≤ page t.
Proof.
  intros Hsorted Hij Hi Hj. destruct (decide (i = j)) as [-> | Hne].
  - rewrite Hi in Hj. simplify_eq. lia.
  - by apply (StronglySorted_lookup_lt pages_le stream i j s t Hsorted ltac:(lia)).
Qed.

(** X5.  When the page numbers of the input are non-decreasing, the page
    ranges of the chunks follow one another: a chunk ends on a page that
    is not after the page on which any later chunk starts, although a
    later chunk begins with overlap sentences of the earlier one. *)
Theorem chunkText_page_ranges_chain (pages : list PageText) :
  Sorted Z.le (page <$> pages) →
  ∀ i j ci cj, (i < j)%nat →
    chunkText pages !! i = Some ci → chunkText pages !! j = Some cj →
    ends_before ci cj.
Proof.
  intros Hpages i j ci cj Hij Hi Hj. unfold ends_before.
  pose proof (sentence_stream_sorted pages Hpages) as Hsorted.
  destruct (chunk_sentences_sorted _ Hsorted) as [Hstarts _].
  destruct (chunk_sentences_windows (sentence_stream pages)) as (ws & [He _ Hn] & _).
  fold (chunkText pages) in He, Hn, Hstarts.
  destruct (lookup_lt_is_Some_2 (chunkText pages) (S i)) as [c' Hc'];
    [apply lookup_lt_Some in Hj; lia |].
  destruct (Forall2_lookup_r _ _ _ _ _ He Hi) as (w & Hw & Hwin).
  destruct (Forall2_lookup_r _ _ _ _ _ He Hc') as (w' & Hw' & Hwin').
  destruct (Hn i w w' c' Hw Hw' Hc') as [(s & Hs & _) _ _ Hp].
  rewrite Hs in Hp. simpl in Hp.
  pose proof (window_page_end _ _ _ Hwin) as Hend.
  pose proof (window_bounds _ _ _ Hwin) as Hb.
  destruct (lookup_lt_is_Some_2 (sentence_stream pages) (w.2 - 1)) as [t Ht]; [lia |].
  rewrite Ht in Hend. simpl in Hend.
  assert (Hadj : page_end ci ≤ page_start c').
  { injection Hend as <-. injection Hp as <-.
    apply (sorted_stream_lookup (sentence_stream pages) (w.2 - 1) w.2 t s);
      [done | lia | done | done]. }
  destruct (decide (S i = j)) as [<- | Hne].
  - rewrite Hc' in Hj. simplify_eq. done.
  - pose proof (StronglySorted_lookup_lt starts_le _ (S i) j c' cj Hstarts
                  ltac:(lia) Hc' Hj) as Hle.
    unfold starts_le in Hle. lia.
Qed.

Lemma chunkText_page_ranges_witness :
  Sorted Z.le (page <$> Scenario.long_pages)
  ∧ ∀ i j ci cj, (i < j)%nat →
      chunkText Scenario.long_pages !! i = Some ci →
      chunkText Scenario.long_pages !! j = Some cj →
      ends_before ci cj.
Proof.
  assert (H : Sorted Z.le (page <$> Scenario.long_pages))
    by (simpl; repeat constructor; lia).
  split; [exact H |].
  apply (chunkText_page_ranges_chain Scenario.long_pages H).
Defined.

Lemma chunkText_soft_ceiling_witness :
  let c := {| content := "First page. It has two sentences.";
              page_start := 1; page_end := 1; token_count := 9 |} in
  c ∈ chunkText [ {| page := 1; text := "First page. It has two sentences." |} ]
  ∧ ∃ cur, content c = JS.join " " cur ∧ within_soft_ceiling cur.
Proof.
  cbv zeta.
  assert (H : {| content := "First page. It has two sentences.";
                 page_start := 1; page_end := 1; token_count := 9 |}
              ∈ chunkText [ {| page := 1; text := "First page. It has two sentences." |} ])
    by (vm_compute; left).
  split; [exact H |].
  destruct (chunkText_soft_ceiling _ _ H) as (cur & _ & _ & Hc & Hb & _).
  by exists cur.
Defined.

Lemma chunkText_covers_witness :
  let s := {| page := 2; text := "Second page!" |} in
  let pages := [ {| page := 1; text := "First page. It has two sentences." |};
                 {| page := 2; text := "Second page!" |} ] in
  s ∈ sentence_stream pages
  ∧ ∃ c, c ∈ chunkText pages ∧ is_substring (text s) (content c).
Proof.
  cbv zeta.
  assert (H : {| page := 2; text := "Second page!" |}
              ∈ sentence_stream
                  [ {| page := 1; text := "First page. It has two sentences." |};
                    {| page := 2; text := "Second page!" |} ])
    by (vm_compute; right; right; left).
  split; [exact H |].
  destruct (chunkText_covers_sentences _ _ H) as (c & cur & Hc & _ & _ & Hsub).
  by exists c.
Defined.

End ChunkerFacts.

(** ** The processing pipeline, path by path *)

Module PipelineFacts.
Import Schema Effects Supabase Rag RunFacts RagFacts Vocabulary Steps.

(** *** Slices of a list *)

Lemma slice_count_lt (n len k : nat) :
  (0 < n)%nat → (k * n < len ↔ k < (len + (n - 1)) / n)%nat.
Proof.
  intros Hn.
  pose proof (Nat.div_mod_eq (len + (n - 1)) n).
  pose proof (Nat.mod_upper_bound (len + (n - 1)) n ltac:(lia)). nia.
Qed.

Lemma concat_slices {A} (n : nat) (l : list A) (count : nat) :
  (0 < n)%nat → (length l ≤ count * n)%nat →
  concat ((λ k, take n (drop (k * n) l)) <$> seq 0 count) = l.
Proof.
  intros Hn. revert l. induction count as [| count IH]; intros l Hlen.
  - simpl in *. by destruct l; [| simpl in Hlen; lia].
  - rewrite seq_S, fmap_app, concat_app. simpl.
    rewrite app_nil_r.
    transitivity (take (count * n) l ++ drop (count * n) l);
      [| apply take_drop].
    f_equal.
    + etransitivity;
        [| apply (IH (take (count * n) l)); rewrite length_take; lia].
      f_equal. apply list_fmap_ext. intros i k Hk.
      apply lookup_seq in Hk as [-> Hk]. simpl.
      rewrite !take_drop_commute, take_take. f_equal. f_equal. nia.
    + apply take_ge. rewrite length_drop. lia.
Qed.

Lemma concat_row_batches (rows : list ChunkRow.t) :
  concat (row_batches rows) = rows.
Proof.
  unfold row_batches, row_batch, row_batch_count, BATCH_SIZE.
  apply (concat_slices 50 rows); [lia |].
  pose proof (Nat.div_mod_eq (length rows + (50 - 1)) 50).
  pose proof (Nat.mod_upper_bound (length rows + (50 - 1)) 50). lia.
Qed.

Lemma row_batches_sizes (rows : list ChunkRow.t) :
  Forall (λ b, 0 < length b ≤ 50)%nat (row_batches rows).
Proof.
  apply Forall_forall. intros b (k & -> & Hk)%list_elem_of_fmap.
  apply elem_of_seq in Hk as [_ Hk]. simpl in Hk.
  apply (slice_count_lt 50) in Hk; [| lia].
  unfold row_batch, BATCH_SIZE. rewrite length_take, length_drop. lia.
Qed.

Section WithEnv.
Context (env : Env).

(** *** The database requests of the pipeline *)

Lemma updateDocumentStatus_result (id : string) (status : Status)
    (extraFields : option Z) (w : World) :
  Documents.updateDocumentStatus env id status extraFields w
  = (Return (bool_decide (db_error env (log w) (UpdateDocument id status extraFields)
                          = None)),
     document_updated env id status extraFields w).
Proof.
  unfold Documents.updateDocumentStatus, update_document, document_updated,
    send, mbind, M_bind, mret, M_ret, modify_world. simpl.
  by destruct (db_error env (log w) _).
Qed.

Lemma document_updated_log (id : string) (status : Status)
    (extraFields : option Z) (w : World) :
  log (document_updated env id status extraFields w)
  = log w ++ [UpdateDocument id status extraFields].
Proof. unfold document_updated. by destruct (db_error env _ _). Qed.

Lemma document_updated_chunks (id : string) (status : Status)
    (extraFields : option Z) (w : World) :
  document_chunks (document_updated env id status extraFields w) = document_chunks w
  ∧ document_insights (document_updated env id status extraFields w)
    = document_insights w.
Proof. unfold document_updated. by destruct (db_error env _ _). Qed.

Lemma insert_chunks_run (batch : list ChunkRow.t) (w : World) :
  insert_chunks env batch w
  = match db_error env (log w) (InsertChunks batch) with
    | Some e => (Return (fail e), logged (InsertChunks batch) w)
    | None => (Return (succeed ()),
               set_document_chunks (λ rows, rows ++ batch)
                 (logged (InsertChunks batch) w))
    end.
Proof.
  unfold insert_chunks, send, mbind, M_bind, mret, M_ret, modify_world. simpl.
  by destruct (db_error env (log w) _).
Qed.

(** *** The insertion loop *)

Lemma insert_loop_batches (fuel : nat) (documentId : string)
    (rows : list ChunkRow.t) (k : nat) (w : World) :
  (row_batch_count rows ≤ k + fuel)%nat →
  insert_loop env fuel documentId rows (k * BATCH_SIZE) w
  = insert_batches env documentId
      (row_batch rows <$> seq k (row_batch_count rows - k)) w.
Proof.
  revert k w. induction fuel as [| fuel IH]; intros k w Hfuel.
  - replace (row_batch_count rows - k)%nat with 0%nat by lia. reflexivity.
  - simpl. case_bool_decide as Hi.
    + apply (slice_count_lt 50) in Hi; [| lia].
      fold BATCH_SIZE in Hi. fold (row_batch_count rows) in Hi.
      replace (row_batch_count rows - k)%nat
        with (S (row_batch_count rows - S k)) by lia.
      simpl. fold (row_batch rows k).
      unfold mbind at 1 3, M_bind at 1 3.
      destruct (insert_chunks env (row_batch rows k) w) as [[r | e] w1]; [| done].
      destruct (error r); [done |].
      replace (k * BATCH_SIZE + BATCH_SIZE)%nat with (S k * BATCH_SIZE)%nat
        by (unfold BATCH_SIZE; lia).
      by rewrite IH by lia.
    + assert (¬ (k < row_batch_count rows)%nat).
      { intros Hk. apply Hi. by apply (slice_count_lt 50); [lia |]. }
      replace (row_batch_count rows - k)%nat with 0%nat by lia. reflexivity.
Qed.

Lemma insert_loop_row_batches (documentId : string) (rows : list ChunkRow.t)
    (w : World) :
  insert_loop env (length rows) documentId rows 0 w
  = insert_batches env documentId (row_batches rows) w.
Proof.
  change 0%nat with (0 * BATCH_SIZE)%nat at 1.
  rewrite insert_loop_batches.
  - unfold row_batches. by rewrite Nat.sub_0_r.
  - unfold row_batch_count, BATCH_SIZE.
    pose proof (Nat.div_mod_eq (length rows + (50 - 1)) 50).
    pose proof (Nat.mod_upper_bound (length rows + (50 - 1)) 50). lia.
Qed.

Lemma insert_batches_accepted (documentId : string) (bs : list (list ChunkRow.t))
    (w : World) :
  all_accepted env (log w) bs →
  insert_batches env documentId bs w
  = (Return None,
     set_document_chunks (λ rows, rows ++ concat bs)
       (set_log (λ l, l ++ insert_requests bs) w)).
Proof.
  revert w. induction bs as [| b bs IH]; intros w Hall.
  - simpl. unfold mret, M_ret. f_equal. destruct w.
    unfold set_document_chunks, set_log. simpl. by rewrite !app_nil_r.
  - destruct Hall as [Hb Hall]. simpl.
    unfold mbind, M_bind. rewrite insert_chunks_run, Hb. simpl.
    rewrite IH by done. f_equal.
    unfold set_document_chunks, set_log, logged, set_log. simpl.
    by rewrite <- !app_assoc.
Qed.


Lemma insert_batches_cons (documentId : string) (b : list ChunkRow.t)
    (bs : list (list ChunkRow.t)) (w : World) :
  insert_batches env documentId (b :: bs) w
  = match db_error env (log w) (InsertChunks b) with
    | Some message =>
        (Return (Some (Failure ("Failed to store chunks: " +:+ message))),
         document_updated env documentId failed None (logged (InsertChunks b) w))
    | None =>
        insert_batches env documentId bs
          (set_document_chunks (λ rows, rows ++ b) (logged (InsertChunks b) w))
    end.
Proof.
  simpl. unfold mbind at 1, M_bind at 1. rewrite insert_chunks_run.
  destruct (db_error env (log w) (InsertChunks b)) as [m |]; simpl; [| done].
  by erewrite bind_run by apply updateDocumentStatus_result.
Qed.

(** The loop never throws, and when it makes [processDocument] return,
    the value is a failure and the last request is the status update. *)
Lemma insert_batches_outcome (documentId : string) (bs : list (list ChunkRow.t))
    (w : World) :
  ∃ w',
    (insert_batches env documentId bs w = (Return None, w')
     ∨ ∃ message,
         insert_batches env documentId bs w
         = (Return (Some (Failure message)), w')
         ∧ last (log w') = Some (UpdateDocument documentId failed None))
    ∧ document_insights w' = document_insights w.
Proof.
  revert w. induction bs as [| b bs IH]; intros w.
  - exists w. split; [by left | done].
  - rewrite insert_batches_cons.
    destruct (db_error env (log w) (InsertChunks b)) as [m |] eqn:E.
    + eexists. split; [right; eexists; split; [reflexivity |] |].
      * by rewrite document_updated_log, last_snoc.
      * by destruct (document_updated_chunks documentId failed None
                       (logged (InsertChunks b) w)) as [_ ->].
    + destruct (IH (set_document_chunks (λ rows, rows ++ b)
                      (logged (InsertChunks b) w))) as (w' & H & Hi).
      exists w'. split; [done |]. by rewrite Hi.
Qed.

Lemma generateEmbeddings_insights (texts : list string) (taskType : TaskType)
    (w : World) :
  document_insights (generateEmbeddings env texts taskType w).2 = document_insights w
  ∧ document_chunks (generateEmbeddings env texts taskType w).2 = document_chunks w
  ∧ documents (generateEmbeddings env texts taskType w).2 = documents w.
Proof.
  destruct (has_api_key env) eqn:Hkey.
  - rewrite (generateEmbeddings_batches env taskType texts w Hkey).
    destruct (embed_batches_log env taskType (batches texts) [] w) as (m & _ & ->).
    done.
  - by rewrite (generateEmbeddings_without_key env taskType texts w Hkey).
Qed.

(** *** The run up to the embedding *)

Lemma processDocument_after_extraction (documentId : string) (w : World)
    (doc : Document.t) (file : list Byte.byte) (result : TextResult.t) :
  db_error env (log w) (SelectDocument documentId) = None →
  documents w !! documentId = Some doc →
  storage_download env (log w ++ [SelectDocument documentId])
    (Document.file_url doc) = inr file →
  getText env file = inr result →
  pages_of result ≠ [] →
  chunkText (pages_of result) ≠ [] →
  processDocument env documentId w
  = try_catch
      (embeddings ← generateEmbeddings env
                      (content <$> chunkText (pages_of result)) RETRIEVAL_DOCUMENT;
       let rows := chunk_rows documentId (chunkText (pages_of result)) embeddings in
       returned ← insert_loop env (length rows) documentId rows 0;
       match returned with
       | Some r => mret r
       | None =>
           _ ← Documents.updateDocumentStatus env documentId ready None;
           mret Success
       end)
      (λ err,
         _ ← Documents.updateDocumentStatus env documentId failed None;
         mret (Failure (message_of err)))
      (extracted env documentId doc (TextResult.total result) w).
Proof.
  intros Hselect Hdoc Hfile Htext Hpages Hchunks.
  unfold processDocument, try_catch.
  erewrite bind_run by apply select_document_run.
  rewrite Hselect, Hdoc. simpl.
  erewrite bind_run by apply download_run.
  simpl. rewrite Hfile. simpl.
  unfold extractTextFromPdf. rewrite Htext.
  fold (pages_of result).
  unfold mbind at 1, M_bind at 1, mret at 1, M_ret at 1.
  rewrite bool_decide_eq_false_2
    by (intros E; by destruct (pages_of result)).
  erewrite bind_run by apply updateDocumentStatus_result.
  rewrite bool_decide_eq_false_2
    by (intros E; by destruct (chunkText (pages_of result))).
  reflexivity.
Qed.

(** *** Every run reports its outcome *)

Lemma try_catch_return {A} (body : M A) (handler : Exn → M A) (w w' : World) (a : A) :
  body w = (Return a, w') → try_catch body handler w = (Return a, w').
Proof. unfold try_catch. by intros ->. Qed.

Lemma try_catch_throw {A} (body : M A) (handler : Exn → M A) (w w' : World) (e : Exn) :
  body w = (Throw e, w') → try_catch body handler w = handler e w'.
Proof. unfold try_catch. by intros ->. Qed.

(** X6.  [processDocument] never throws.  Unless the record cannot be
    fetched, in which case nothing but the fetch happens, the last
    request of the run is the status update that matches the result:
    [ready] for a success, [failed] for every failure.  The insight cache
    is never touched. *)
Theorem processDocument_reports_outcome (documentId : string) (w : World) :
  ∃ result w',
    processDocument env documentId w = (Return result, w')
    ∧ document_insights w' = document_insights w
    ∧ ((result = Failure "Document not found."
        ∧ w' = logged (SelectDocument documentId) w)
       ∨ last (log w')
         = Some (UpdateDocument documentId
                   match result with Success => ready | Failure _ => failed end
                   None)).
Proof.
  unfold processDocument.
  set (handler := λ err : Exn,
         Documents.updateDocumentStatus env documentId failed None
         ≫= λ _ : bool, mret (Failure match err with
                                       | Error message => message
                                       | NonError => "Unknown processing error."
                                       end)).
  assert (Hcaught : ∀ e w1,
            document_insights w1 = document_insights w →
            ∃ result w',
              handler e w1 = (Return result, w')
              ∧ document_insights w' = document_insights w
              ∧ ((result = Failure "Document not found."
                  ∧ w' = logged (SelectDocument documentId) w)
                 ∨ last (log w')
                   = Some (UpdateDocument documentId
                             match result with Success => ready | Failure _ => failed end
                             None))).
  { intros e w1 Hi. unfold handler.
    erewrite bind_run by apply updateDocumentStatus_result.
    eexists _, _. split; [reflexivity |]. split.
    - by destruct (document_updated_chunks documentId failed None w1) as [_ ->].
    - right. by rewrite document_updated_log, last_snoc. }
  assert (Hfailed : ∀ message w1,
            document_insights w1 = document_insights w →
            ∃ result w',
              (Return (Failure message),
               document_updated env documentId failed None w1) = (Return result, w')
              ∧ document_insights w' = document_insights w
              ∧ ((result = Failure "Document not found."
                  ∧ w' = logged (SelectDocument documentId) w)
                 ∨ last (log w')
                   = Some (UpdateDocument documentId
                             match result with Success => ready | Failure _ => failed end
                             None))).
  { intros message w1 Hi. eexists _, _. split; [reflexivity |]. split.
    - by destruct (document_updated_chunks documentId failed None w1) as [_ ->].
    - right. by rewrite document_updated_log, last_snoc. }
  unfold try_catch.
  erewrite bind_run by apply select_document_run.
  destruct (db_error env (log w) (SelectDocument documentId)) as [e |];
    [eexists _, _; split; [reflexivity |]; split; [done | by left] |].
  destruct (documents w !! documentId) as [doc |];
    [| eexists _, _; split; [reflexivity |]; split; [done | by left]].
  simpl.
  erewrite bind_run by apply download_run.
  destruct (storage_download env _ _) as [e | file]; simpl.
  { erewrite bind_run by apply updateDocumentStatus_result.
    by apply Hfailed. }
  unfold extractTextFromPdf.
  destruct (getText env file) as [e | textResult].
  { erewrite bind_throw by reflexivity. by apply Hcaught. }
  unfold mbind at 1, M_bind at 1, mret at 1, M_ret at 1.
  case_bool_decide as Hpages.
  { erewrite bind_run by apply updateDocumentStatus_result.
    by apply Hfailed. }
  erewrite bind_run by apply updateDocumentStatus_result.
  case_bool_decide as Hchunks.
  { erewrite bind_run by apply updateDocumentStatus_result.
    apply Hfailed.
    by rewrite (proj2 (document_updated_chunks _ _ _ _)). }
  set (w3 := document_updated env documentId processing _ _).
  assert (H3 : document_insights w3 = document_insights w)
    by (unfold w3; by rewrite (proj2 (document_updated_chunks _ _ _ _))).
  set (texts := content <$> chunkText _).
  pose proof (generateEmbeddings_insights texts RETRIEVAL_DOCUMENT w3) as [H4 _].
  destruct (generateEmbeddings env texts RETRIEVAL_DOCUMENT w3)
    as [[embeddings | e] w4] eqn:Hembed; simpl in H4.
  2: { erewrite bind_throw by exact Hembed. apply Hcaught. congruence. }
  erewrite bind_run by exact Hembed.
  cbv zeta.
  set (rows := chunk_rows _ _ _).
  destruct (insert_batches_outcome documentId (row_batches rows) w4)
    as (w5 & [Hrun | (message & Hrun & Hlast)] & H5);
    rewrite <- insert_loop_row_batches in Hrun.
  - rewrite (bind_run _ _ _ _ _ Hrun).
    erewrite bind_run by apply updateDocumentStatus_result.
    eexists _, _. split; [reflexivity |]. split.
    + rewrite (proj2 (document_updated_chunks _ _ _ _)). congruence.
    + right. by rewrite document_updated_log, last_snoc.
  - rewrite (bind_run _ _ _ _ _ Hrun).
    eexists _, _. split; [reflexivity |]. split; [congruence | by right].
Qed.

(** *** The status row *)

Lemma document_updated_accepted (id : string) (status : Status)
    (extraFields : option Z) (w : World) (d : Document.t) :
  db_error env (log w) (UpdateDocument id status extraFields) = None →
  documents w !! id = Some d →
  documents (document_updated env id status extraFields w) !! id
  = Some {| Document.file_url := Document.file_url d;
            Document.total_pages :=
              match extraFields with
              | Some n => Some n
              | None => Document.total_pages d
              end;
            Document.status := status |}.
Proof.
  intros Hdb Hd. unfold document_updated. rewrite Hdb. simpl.
  by rewrite lookup_alter_eq, Hd.
Qed.

Lemma document_updated_others (id id' : string) (status : Status)
    (extraFields : option Z) (w : World) :
  id' ≠ id →
  documents (document_updated env id status extraFields w) !! id'
  = documents w !! id'.
Proof.
  intros Hne. unfold document_updated.
  destruct (db_error env _ _); simpl; [done |].
  by rewrite lookup_alter_ne.
Qed.

(** X7.  [updateDocumentStatus] reports whether the database accepted the
    update.  An accepted update sets the status of the row, and its page
    count when one is given, and leaves every other row as it is; when no
    row has the id, it changes nothing and still reports success.  A
    rejected update changes nothing. *)
Theorem updateDocumentStatus_spec (id : string) (status : Status)
    (extraFields : option Z) (w : World) :
  let req := UpdateDocument id status extraFields in
  ∃ w',
    Documents.updateDocumentStatus env id status extraFields w
    = (Return (bool_decide (db_error env (log w) req = None)), w')
    ∧ log w' = log w ++ [req]
    ∧ document_chunks w' = document_chunks w
    ∧ document_insights w' = document_insights w
    ∧ (∀ id', id' ≠ id → documents w' !! id' = documents w !! id')
    ∧ (is_Some (db_error env (log w) req) → documents w' = documents w)
    ∧ (documents w !! id = None → documents w' = documents w)
    ∧ (∀ d, db_error env (log w) req = None → documents w !! id = Some d →
         documents w' !! id
         = Some {| Document.file_url := Document.file_url d;
                   Document.total_pages :=
                     match extraFields with
                     | Some n => Some n
                     | None => Document.total_pages d
                     end;
                   Document.status := status |}).
Proof.
  cbv zeta. eexists. split; [apply updateDocumentStatus_result |].
  split_and!.
  - apply document_updated_log.
  - apply document_updated_chunks.
  - apply document_updated_chunks.
  - intros id' Hne. by apply document_updated_others.
  - intros [e He]. unfold document_updated. by rewrite He.
  - intros Hnone. unfold document_updated.
    destruct (db_error env _ _); [done |]. simpl.
    apply map_eq. intros id'. destruct (decide (id' = id)) as [-> | Hne].
    + by rewrite lookup_alter_eq, Hnone.
    + by rewrite lookup_alter_ne.
  - intros d Hdb Hd. by apply document_updated_accepted.
Qed.

(** *** The failing paths *)

(** X8.  When the record of the document cannot be fetched, because the
    database answers with an error or because no row has the id,
    [processDocument] returns the failure [Document not found.] after
    that single request: nothing is downloaded and no status is
    written. *)
Theorem processDocument_not_found (documentId : string) (w : World) :
  is_Some (db_error env (log w) (SelectDocument documentId))
  ∨ documents w !! documentId = None →
  processDocument env documentId w
  = (Return (Failure "Document not found."), logged (SelectDocument documentId) w).
Proof.
  intros H. unfold processDocument, try_catch.
  erewrite bind_run by apply select_document_run.
  destruct H as [[e He] | Hnone].
  - by rewrite He.
  - rewrite Hnone. by destruct (db_error env _ _).
Qed.

(** X9.  When the file cannot be downloaded, [processDocument] returns the
    failure [Failed to download PDF: ] followed by the message of the
    storage error, and its requests are the fetch of the record, the
    download and the update of the status to [failed]; the text is never
    parsed and no chunk is stored. *)
Theorem processDocument_download_failed (documentId : string) (w : World)
    (doc : Document.t) (message : string) :
  let fetched := logged (SelectDocument documentId) w in
  let downloaded := logged (Download (Document.file_url doc)) fetched in
  db_error env (log w) (SelectDocument documentId) = None →
  documents w !! documentId = Some doc →
  storage_download env (log fetched) (Document.file_url doc) = inl message →
  ∃ w',
    processDocument env documentId w
    = (Return (Failure ("Failed to download PDF: " +:+ message)), w')
    ∧ w' = document_updated env documentId failed None downloaded
    ∧ new_requests w w'
      = [SelectDocument documentId; Download (Document.file_url doc);
         UpdateDocument documentId failed None]
    ∧ document_chunks w' = document_chunks w
    ∧ (db_error env (log downloaded) (UpdateDocument documentId failed None) = None →
       documents w' !! documentId
       = Some {| Document.file_url := Document.file_url doc;
                 Document.total_pages := Document.total_pages doc;
                 Document.status := failed |}).
Proof.
  cbv zeta. intros Hselect Hdoc Hfile.
  eexists. split; [| split; [reflexivity |]].
  - unfold processDocument, try_catch.
    erewrite bind_run by apply select_document_run.
    rewrite Hselect, Hdoc. simpl.
    erewrite bind_run by apply download_run.
    simpl in Hfile |- *. rewrite Hfile. simpl.
    erewrite bind_run by apply updateDocumentStatus_result.
    reflexivity.
  - split_and!.
    + apply new_requests_app. rewrite document_updated_log. simpl.
      by rewrite <- !app_assoc.
    + by rewrite (proj1 (document_updated_chunks _ _ _ _)).
    + intros Hdb. by rewrite (document_updated_accepted _ _ _ _ doc Hdb).
Qed.

(** X10.  When the parser throws, [processDocument] catches the value and
    returns a failure with the message of the error, or with [Unknown
    processing error.] when the thrown value is not an error; the status
    is updated to [failed] and no chunk is stored. *)
Theorem processDocument_unreadable_pdf (documentId : string) (w : World)
    (doc : Document.t) (file : list Byte.byte) (e : Exn) :
  let fetched := logged (SelectDocument documentId) w in
  let downloaded := logged (Download (Document.file_url doc)) fetched in
  db_error env (log w) (SelectDocument documentId) = None →
  documents w !! documentId = Some doc →
  storage_download env (log fetched) (Document.file_url doc) = inr file →
  getText env file = inl e →
  ∃ w',
    processDocument env documentId w
    = (Return (Failure match e with
                       | Error message => message
                       | NonError => "Unknown processing error."
                       end), w')
    ∧ w' = document_updated env documentId failed None downloaded
    ∧ new_requests w w'
      = [SelectDocument documentId; Download (Document.file_url doc);
         UpdateDocument documentId failed None]
    ∧ document_chunks w' = document_chunks w
    ∧ (db_error env (log downloaded) (UpdateDocument documentId failed None) = None →
       documents w' !! documentId
       = Some {| Document.file_url := Document.file_url doc;
                 Document.total_pages := Document.total_pages doc;
                 Document.status := failed |}).
Proof.
  cbv zeta. intros Hselect Hdoc Hfile Htext.
  eexists. split; [| split; [reflexivity |]].
  - unfold processDocument, try_catch.
    erewrite bind_run by apply select_document_run.
    rewrite Hselect, Hdoc. simpl.
    erewrite bind_run by apply download_run.
    simpl in Hfile |- *. rewrite Hfile. simpl.
    unfold extractTextFromPdf. rewrite Htext.
    erewrite bind_throw by reflexivity.
    erewrite bind_run by apply updateDocumentStatus_result.
    reflexivity.
  - split_and!.
    + apply new_requests_app. rewrite document_updated_log. simpl.
      by rewrite <- !app_assoc.
    + by rewrite (proj1 (document_updated_chunks _ _ _ _)).
    + intros Hdb. by rewrite (document_updated_accepted _ _ _ _ doc Hdb).
Qed.

(** X11.  When the parser yields pages but the chunker finds no sentence in
    them (pages of white space only), [processDocument] returns the
    failure [No text chunks could be generated.]; by then the page count
    has been written with the status [processing], and the last request
    sets the status to [failed].  Nothing is embedded or stored. *)
Theorem processDocument_no_chunks (documentId : string) (w : World)
    (doc : Document.t) (file : list Byte.byte) (result : TextResult.t) :
  let fetched := logged (SelectDocument documentId) w in
  let total := TextResult.total result in
  db_error env (log w) (SelectDocument documentId) = None →
  documents w !! documentId = Some doc →
  storage_download env (log fetched) (Document.file_url doc) = inr file →
  getText env file = inr result →
  TextResult.pages result ≠ [] →
  sentence_stream (pages_of result) = [] →
  (∀ seen status extraFields,
     db_error env seen (UpdateDocument documentId status extraFields) = None) →
  ∃ w',
    processDocument env documentId w
    = (Return (Failure "No text chunks could be generated."), w')
    ∧ new_requests w w'
      = [SelectDocument documentId; Download (Document.file_url doc);
         UpdateDocument documentId processing (Some total);
         UpdateDocument documentId failed None]
    ∧ document_chunks w' = document_chunks w
    ∧ documents w' !! documentId
      = Some {| Document.file_url := Document.file_url doc;
                Document.total_pages := Some total;
                Document.status := failed |}.
Proof.
  cbv zeta. intros Hselect Hdoc Hfile Htext Hpages Hstream Hdb.
  assert (Hchunks : chunkText (pages_of result) = [])
    by (unfold chunkText; by rewrite Hstream).
  eexists. split.
  - unfold processDocument, try_catch.
    erewrite bind_run by apply select_document_run.
    rewrite Hselect, Hdoc. simpl.
    erewrite bind_run by apply download_run.
    simpl in Hfile |- *. rewrite Hfile. simpl.
    unfold extractTextFromPdf. rewrite Htext.
    fold (pages_of result).
    unfold mbind at 1, M_bind at 1, mret at 1, M_ret at 1.
    rewrite bool_decide_eq_false_2
      by (unfold pages_of; rewrite length_fmap; by destruct (TextResult.pages result)).
    erewrite bind_run by apply updateDocumentStatus_result.
    rewrite Hchunks. simpl.
    erewrite bind_run by apply updateDocumentStatus_result.
    reflexivity.
  - split_and!.
    + apply new_requests_app. rewrite !document_updated_log. simpl.
      by rewrite <- !app_assoc.
    + by rewrite !(proj1 (document_updated_chunks _ _ _ _)).
    + erewrite document_updated_accepted; [| apply Hdb |].
      2: { erewrite document_updated_accepted; [reflexivity | apply Hdb |].
           exact Hdoc. }
      done.
Qed.

(** *** Failures of the embedding *)

Lemma caught_run (documentId : string) (e : Exn) (w : World) :
  (Documents.updateDocumentStatus env documentId failed None
   ≫= λ _ : bool, mret (Failure (message_of e))) w
  = (Return (Failure (message_of e)),
     document_updated env documentId failed None w).
Proof. by erewrite bind_run by apply updateDocumentStatus_result. Qed.

(** X12.  Without the API key the text is extracted and the page count
    stored, then [processDocument] fails with the message of the missing
    key: no embedding request is made, no chunk is stored, and the status
    ends as [failed]. *)
Theorem processDocument_without_key (documentId : string) (w : World)
    (doc : Document.t) (file : list Byte.byte) (result : TextResult.t) :
  let fetched := logged (SelectDocument documentId) w in
  let total := TextResult.total result in
  db_error env (log w) (SelectDocument documentId) = None →
  documents w !! documentId = Some doc →
  storage_download env (log fetched) (Document.file_url doc) = inr file →
  getText env file = inr result →
  chunkText (pages_of result) ≠ [] →
  has_api_key env = false →
  (∀ seen status extraFields,
     db_error env seen (UpdateDocument documentId status extraFields) = None) →
  ∃ w',
    processDocument env documentId w
    = (Return (Failure "GEMINI_API_KEY environment variable is not set."), w')
    ∧ new_requests w w'
      = [SelectDocument documentId; Download (Document.file_url doc);
         UpdateDocument documentId processing (Some total);
         UpdateDocument documentId failed None]
    ∧ document_chunks w' = document_chunks w
    ∧ documents w' !! documentId
      = Some {| Document.file_url := Document.file_url doc;
                Document.total_pages := Some total;
                Document.status := failed |}.
Proof.
  cbv zeta. intros Hselect Hdoc Hfile Htext Hchunks Hkey Hdb.
  assert (Hpages : pages_of result ≠ []).
  { intros E. apply Hchunks. by rewrite E. }
  eexists. split.
  - rewrite (processDocument_after_extraction documentId w doc file result)
      by done.
    erewrite try_catch_throw;
      [| erewrite bind_throw; [reflexivity |];
         by apply generateEmbeddings_without_key].
    apply (caught_run documentId (Error NO_API_KEY)).
  - unfold extracted. split_and!.
    + apply new_requests_app. rewrite !document_updated_log. simpl.
      by rewrite <- !app_assoc.
    + by rewrite !(proj1 (document_updated_chunks _ _ _ _)).
    + erewrite document_updated_accepted; [| apply Hdb |].
      2: { erewrite document_updated_accepted; [reflexivity | apply Hdb |].
           exact Hdoc. }
      done.
Qed.

(** X13.  When the embedding endpoint answers batch [k] with a status that is
    not a success, after answering the batches before it, the run fails
    with the message built from that status and body.  The batches after
    [k] are not sent, and although [k] batches were embedded, no chunk is
    stored: rows are inserted only once every embedding has arrived. *)
Theorem processDocument_embedding_rejected (documentId : string) (w : World)
    (doc : Document.t) (file : list Byte.byte) (result : TextResult.t)
    (k status : nat) (body : string) :
  let fetched := logged (SelectDocument documentId) w in
  let total := TextResult.total result in
  let w3 := extracted env documentId doc total w in
  let bs := batches (content <$> chunkText (pages_of result)) in
  db_error env (log w) (SelectDocument documentId) = None →
  documents w !! documentId = Some doc →
  storage_download env (log fetched) (Document.file_url doc) = inr file →
  getText env file = inr result →
  has_api_key env = true →
  (k < length bs)%nat →
  (∀ j, (j < k)%nat → ∃ vs, reply_at env w3 RETRIEVAL_DOCUMENT bs j = EmbedOk vs) →
  reply_at env w3 RETRIEVAL_DOCUMENT bs k = EmbedStatus status body →
  ∃ w',
    processDocument env documentId w
    = (Return (Failure ("Gemini embedding API error (" +:+ pretty status
                        +:+ "): " +:+ body)), w')
    ∧ new_requests w w'
      = [SelectDocument documentId; Download (Document.file_url doc);
         UpdateDocument documentId processing (Some total)]
        ++ embed_requests RETRIEVAL_DOCUMENT (take (S k) bs)
        ++ [UpdateDocument documentId failed None]
    ∧ document_chunks w' = document_chunks w.
Proof.
  cbv zeta. intros Hselect Hdoc Hfile Htext Hkey Hk Hbefore Hstatus.
  assert (Hchunks : chunkText (pages_of result) ≠ []).
  { intros E. rewrite E in Hk. simpl in Hk. lia. }
  assert (Hpages : pages_of result ≠ []).
  { intros E. apply Hchunks. by rewrite E. }
  eexists. split.
  - rewrite (processDocument_after_extraction documentId w doc file result)
      by done.
    erewrite try_catch_throw.
    + apply (caught_run documentId (embedding_error status body)).
    + erewrite bind_throw; [reflexivity |].
      rewrite (generateEmbeddings_batches env RETRIEVAL_DOCUMENT _ _ Hkey).
      by apply embed_batches_status.
  - unfold extracted. split.
    + apply new_requests_app. rewrite !document_updated_log. simpl.
      rewrite document_updated_log. simpl.
      by rewrite <- !app_assoc.
    + rewrite !(proj1 (document_updated_chunks _ _ _ _)). simpl.
      by rewrite !(proj1 (document_updated_chunks _ _ _ _)).
Qed.

(** *** Storing the rows *)

(** Once every batch is embedded, the run is the run of the insertion
    loop, followed by the update to [ready] when the loop ends. *)
Lemma processDocument_insertion (documentId : string) (w : World)
    (doc : Document.t) (file : list Byte.byte) (result : TextResult.t)
    (vss : list (list (list number))) :
  let chunks := chunkText (pages_of result) in
  let w3 := extracted env documentId doc (TextResult.total result) w in
  let rows := chunk_rows documentId chunks (concat vss) in
  db_error env (log w) (SelectDocument documentId) = None →
  documents w !! documentId = Some doc →
  storage_download env (log w ++ [SelectDocument documentId])
    (Document.file_url doc) = inr file →
  getText env file = inr result →
  chunks ≠ [] →
  has_api_key env = true →
  all_answered env RETRIEVAL_DOCUMENT (log w3) (batches (content <$> chunks)) vss →
  processDocument env documentId w
  = match insert_batches env documentId (row_batches rows)
            (embedded (content <$> chunks) w3) with
    | (Return (Some r), w5) => (Return r, w5)
    | (Return None, w5) =>
        (Return Success, document_updated env documentId ready None w5)
    | (Throw e, w5) =>
        (Return (Failure (message_of e)),
         document_updated env documentId failed None w5)
    end.
Proof.
  cbv zeta. intros Hselect Hdoc Hfile Htext Hchunks Hkey Hall.
  assert (Hpages : pages_of result ≠ []).
  { intros E. apply Hchunks. by rewrite E. }
  rewrite (processDocument_after_extraction documentId w doc file result)
    by done.
  unfold try_catch.
  erewrite bind_run; cycle 1.
  { rewrite (generateEmbeddings_batches env RETRIEVAL_DOCUMENT _ _ Hkey).
    by apply embed_batches_ok. }
  cbv zeta. simpl app.
  fold (embedded (content <$> chunkText (pages_of result))
          (extracted env documentId doc (TextResult.total result) w)).
  set (rows := chunk_rows _ _ _). set (w4 := embedded _ _).
  unfold mbind at 1, M_bind at 1. rewrite insert_loop_row_batches.
  destruct (insert_batches env documentId (row_batches rows) w4)
    as [[[r |] | e] w5]; [done | | apply caught_run].
  by erewrite bind_run by apply updateDocumentStatus_result.
Qed.

Lemma chunk_rows_lookup (documentId : string) (chunks : list TextChunk)
    (embeddings : list (list number)) (i : nat) (row : ChunkRow.t) :
  chunk_rows documentId chunks embeddings !! i = Some row ↔
  ∃ chunk, chunks !! i = Some chunk
           ∧ row = {| ChunkRow.document_id := documentId;
                      ChunkRow.chunk_index := i;
                      ChunkRow.content := content chunk;
                      ChunkRow.page_start := page_start chunk;
                      ChunkRow.page_end := page_end chunk;
                      ChunkRow.token_count := token_count chunk;
                      ChunkRow.embedding := embeddings !! i |}.
Proof.
  unfold chunk_rows. rewrite list_lookup_imap.
  destruct (chunks !! i) as [chunk |]; simpl.
  - split; [intros [= <-]; by exists chunk | by intros (? & [= <-] & ->)].
  - split; [done | by intros (? & ? & _)].
Qed.

Lemma all_answered_pointwise (vector : string → list number) (seen : list Request)
    (bs : list (list string)) :
  (∀ seen (texts : list string),
     batchEmbedContents env seen texts RETRIEVAL_DOCUMENT = EmbedOk (vector <$> texts)) →
  all_answered env RETRIEVAL_DOCUMENT seen bs (fmap (M := list) vector <$> bs).
Proof.
  intros H. revert seen. induction bs as [| b bs IH]; intros seen; [done |].
  simpl. split; [apply H | apply IH].
Qed.

Lemma all_accepted_always (seen : list Request) (bs : list (list ChunkRow.t)) :
  (∀ seen b, db_error env seen (InsertChunks b) = None) →
  all_accepted env seen bs.
Proof.
  intros H. revert seen. induction bs as [| b bs IH]; intros seen; [done |].
  simpl. split; [apply H | apply IH].
Qed.

Lemma concat_fmap_fmap {A B} (f : A → B) (ls : list (list A)) :
  concat (fmap (M := list) f <$> ls) = f <$> concat ls.
Proof.
  induction ls as [| l ls IH]; [done |].
  rewrite fmap_cons. simpl. by rewrite fmap_app, IH.
Qed.

(** X14.  With services that answer (the record and the file are there, the
    parser reads the file, the key is set, the endpoint returns the
    vector of each text, and the database accepts the writes), a document
    with at least one sentence is processed with success: exactly one row
    per chunk is appended to the chunk table, in chunk order, numbered
    from 0, each with the vector of its own content whatever the
    batching; the page count is stored and the status ends as [ready]. *)
Theorem processDocument_success (documentId : string) (w : World)
    (doc : Document.t) (file : list Byte.byte) (result : TextResult.t)
    (vector : string → list number) :
  let chunks := chunkText (pages_of result) in
  let total := TextResult.total result in
  let rows :=
    imap (λ i chunk,
            {| ChunkRow.document_id := documentId;
               ChunkRow.chunk_index := i;
               ChunkRow.content := content chunk;
               ChunkRow.page_start := page_start chunk;
               ChunkRow.page_end := page_end chunk;
               ChunkRow.token_count := token_count chunk;
               ChunkRow.embedding := Some (vector (content chunk)) |}) chunks in
  (∀ seen req, db_error env seen req = None) →
  documents w !! documentId = Some doc →
  (∀ seen, storage_download env seen (Document.file_url doc) = inr file) →
  getText env file = inr result →
  chunks ≠ [] →
  has_api_key env = true →
  (∀ seen (texts : list string),
     batchEmbedContents env seen texts RETRIEVAL_DOCUMENT = EmbedOk (vector <$> texts)) →
  ∃ w',
    processDocument env documentId w = (Return Success, w')
    ∧ document_chunks w' = document_chunks w ++ rows
    ∧ documents w' !! documentId
      = Some {| Document.file_url := Document.file_url doc;
                Document.total_pages := Some total;
                Document.status := ready |}
    ∧ (∀ id', id' ≠ documentId → documents w' !! id' = documents w !! id')
    ∧ document_insights w' = document_insights w
    ∧ new_requests w w'
      = [SelectDocument documentId; Download (Document.file_url doc);
         UpdateDocument documentId processing (Some total)]
        ++ embed_requests RETRIEVAL_DOCUMENT (batches (content <$> chunks))
        ++ insert_requests (row_batches rows)
        ++ [UpdateDocument documentId ready None].
Proof.
  cbv zeta. intros Hdb Hdoc Hfile Htext Hchunks Hkey Hembed.
  set (chunks := chunkText (pages_of result)) in *.
  set (vss := fmap (M := list) vector <$> batches (content <$> chunks)).
  assert (Hrows : chunk_rows documentId chunks (concat vss)
                  = imap (λ i chunk,
                            {| ChunkRow.document_id := documentId;
                               ChunkRow.chunk_index := i;
                               ChunkRow.content := content chunk;
                               ChunkRow.page_start := page_start chunk;
                               ChunkRow.page_end := page_end chunk;
                               ChunkRow.token_count := token_count chunk;
                               ChunkRow.embedding := Some (vector (content chunk)) |})
                         chunks).
  { unfold chunk_rows. apply list_eq. intros i. rewrite !list_lookup_imap.
    destruct (chunks !! i) as [chunk |] eqn:Hi; [| done]. simpl. do 2 f_equal.
    unfold vss. rewrite concat_fmap_fmap, concat_batches.
    rewrite <- list_fmap_compose, list_lookup_fmap, Hi. done. }
  rewrite <- Hrows. set (rows := chunk_rows documentId chunks (concat vss)).
  eexists. split.
  - rewrite (processDocument_insertion documentId w doc file result vss);
      [| done | done | apply Hfile | done | done | done
       | by apply all_answered_pointwise].
    rewrite insert_batches_accepted by (by apply all_accepted_always).
    reflexivity.
  - fold chunks. fold rows. unfold embedded, extracted. split_and!.
    + rewrite (proj1 (document_updated_chunks _ _ _ _)). simpl.
      rewrite (proj1 (document_updated_chunks _ _ _ _)). simpl.
      by rewrite concat_row_batches.
    + erewrite document_updated_accepted; [| apply Hdb |].
      2: { simpl. erewrite document_updated_accepted; [reflexivity | apply Hdb |].
           exact Hdoc. }
      done.
    + intros id' Hne. rewrite document_updated_others by done. simpl.
      by rewrite document_updated_others by done.
    + rewrite (proj2 (document_updated_chunks _ _ _ _)). simpl.
      by rewrite (proj2 (document_updated_chunks _ _ _ _)).
    + apply new_requests_app. rewrite document_updated_log. simpl.
      rewrite document_updated_log. simpl.
      by rewrite <- !app_assoc.
Qed.

Lemma all_answered_by (answer : list string → list (list number))
    (seen : list Request) (bs : list (list string)) :
  (∀ seen texts,
     batchEmbedContents env seen texts RETRIEVAL_DOCUMENT = EmbedOk (answer texts)) →
  all_answered env RETRIEVAL_DOCUMENT seen bs (answer <$> bs).
Proof.
  intros H. revert seen. induction bs as [| b bs IH]; intros seen; [done |].
  simpl. split; [apply H | apply IH].
Qed.

(** X15.  [processDocument] does not compare the number of vectors with the
    number of chunks.  Whatever the endpoint answers to the batches, the
    run succeeds when the database accepts the writes, with one row per
    chunk; row [i] carries vector [i] of the answers put end to end, so a
    batch answered with fewer vectors than texts shifts the vectors of
    every later chunk, and the last rows are stored without embedding. *)
Theorem processDocument_unchecked_vectors (documentId : string) (w : World)
    (doc : Document.t) (file : list Byte.byte) (result : TextResult.t)
    (answer : list string → list (list number)) :
  let chunks := chunkText (pages_of result) in
  let vectors := concat (answer <$> batches (content <$> chunks)) in
  (∀ seen req, db_error env seen req = None) →
  documents w !! documentId = Some doc →
  (∀ seen, storage_download env seen (Document.file_url doc) = inr file) →
  getText env file = inr result →
  chunks ≠ [] →
  has_api_key env = true →
  (∀ seen texts,
     batchEmbedContents env seen texts RETRIEVAL_DOCUMENT = EmbedOk (answer texts)) →
  ∃ w' rows,
    processDocument env documentId w = (Return Success, w')
    ∧ document_chunks w' = document_chunks w ++ rows
    ∧ length rows = length chunks
    ∧ (∀ i row, rows !! i = Some row →
         ChunkRow.chunk_index row = i
         ∧ Some (ChunkRow.content row) = content <$> chunks !! i
         ∧ ChunkRow.embedding row = vectors !! i)
    ∧ (∀ i row, rows !! i = Some row → (length vectors ≤ i)%nat →
         ChunkRow.embedding row = None).
Proof.
  cbv zeta. intros Hdb Hdoc Hfile Htext Hchunks Hkey Hembed.
  set (chunks := chunkText (pages_of result)) in *.
  set (vss := answer <$> batches (content <$> chunks)).
  exists (document_updated env documentId ready None
            (set_document_chunks
               (λ rows, rows ++ concat (row_batches (chunk_rows documentId chunks (concat vss))))
               (set_log (λ l, l ++ insert_requests
                                     (row_batches (chunk_rows documentId chunks (concat vss))))
                  (embedded (content <$> chunks)
                     (extracted env documentId doc (TextResult.total result) w))))),
         (chunk_rows documentId chunks (concat vss)).
  split; [| split_and!].
  - rewrite (processDocument_insertion documentId w doc file result vss);
      [| done | done | apply Hfile | done | done | done
       | by apply all_answered_by].
    fold chunks.
    by rewrite insert_batches_accepted by (by apply all_accepted_always).
  - rewrite (proj1 (document_updated_chunks _ _ _ _)). simpl.
    unfold extracted. rewrite (proj1 (document_updated_chunks _ _ _ _)). simpl.
    by rewrite concat_row_batches.
  - unfold chunk_rows. by rewrite length_imap.
  - intros i row (chunk & Hi & ->)%chunk_rows_lookup. simpl.
    by rewrite Hi.
  - intros i row (chunk & Hi & ->)%chunk_rows_lookup Hlen. simpl.
    by apply lookup_ge_None_2.
Qed.




End WithEnv.

(** *** The paths on concrete documents *)

Lemma updateDocumentStatus_witness :
  ∃ w',
    Documents.updateDocumentStatus Scenario.env "no-such-document" ready (Some 3)
      (Scenario.world 0)
    = (Return true, w')
    ∧ documents w' = documents (Scenario.world 0).
Proof.
  destruct (updateDocumentStatus_spec Scenario.env "no-such-document" ready
              (Some 3) (Scenario.world 0))
    as (w' & Hrun & _ & _ & _ & _ & _ & Hnone & _).
  exists w'. split; [exact Hrun | apply Hnone; reflexivity].
Defined.

Lemma processDocument_not_found_witness :
  processDocument Scenario.env "no-such-document" (Scenario.world 0)
  = (Return (Failure "Document not found."),
     logged (SelectDocument "no-such-document") (Scenario.world 0)).
Proof.
  apply (processDocument_not_found Scenario.env "no-such-document"
           (Scenario.world 0)).
  right. reflexivity.
Defined.

Lemma processDocument_download_failed_witness :
  ∃ w',
    processDocument Cases.env_missing_file Scenario.DOC (Scenario.world 0)
    = (Return (Failure "Failed to download PDF: Object not found"), w')
    ∧ document_chunks w' = []
    ∧ Document.status <$> documents w' !! Scenario.DOC = Some failed.
Proof.
  destruct (processDocument_download_failed Cases.env_missing_file Scenario.DOC
              (Scenario.world 0) Scenario.document "Object not found")
    as (w' & Hrun & _ & _ & Hchunks & Hstatus);
    [reflexivity | reflexivity | reflexivity |].
  exists w'. split_and!; [exact Hrun | exact Hchunks |].
  by rewrite Hstatus.
Defined.

Lemma processDocument_unreadable_pdf_witness :
  ∃ w',
    processDocument Cases.env_corrupt_pdf Scenario.DOC (Scenario.world 0)
    = (Return (Failure "Invalid PDF structure."), w')
    ∧ document_chunks w' = []
    ∧ Document.status <$> documents w' !! Scenario.DOC = Some failed.
Proof.
  destruct (processDocument_unreadable_pdf Cases.env_corrupt_pdf Scenario.DOC
              (Scenario.world 0) Scenario.document Cases.PDF
              (Error "Invalid PDF structure."))
    as (w' & Hrun & _ & _ & Hchunks & Hstatus);
    [reflexivity | reflexivity | reflexivity | reflexivity |].
  exists w'. split_and!; [exact Hrun | exact Hchunks |].
  by rewrite Hstatus.
Defined.

Lemma processDocument_no_chunks_witness :
  ∃ w',
    processDocument Cases.env_blank_pages Scenario.DOC (Scenario.world 0)
    = (Return (Failure "No text chunks could be generated."), w')
    ∧ documents w' !! Scenario.DOC
      = Some {| Document.file_url := Document.file_url Scenario.document;
                Document.total_pages := Some 2;
                Document.status := failed |}.
Proof.
  destruct (processDocument_no_chunks Cases.env_blank_pages Scenario.DOC
              (Scenario.world 0) Scenario.document Cases.PDF Cases.blank_pages)
    as (w' & Hrun & _ & _ & Hdoc);
    [reflexivity | reflexivity | reflexivity | reflexivity | done
     | by vm_compute | reflexivity |].
  exists w'. split; [exact Hrun | exact Hdoc].
Defined.

Lemma processDocument_without_key_witness :
  ∃ w',
    processDocument Scenario.env_without_key Scenario.DOC (Scenario.world 0)
    = (Return (Failure "GEMINI_API_KEY environment variable is not set."), w')
    ∧ document_chunks w' = []
    ∧ documents w' !! Scenario.DOC
      = Some {| Document.file_url := Document.file_url Scenario.document;
                Document.total_pages := Some 2;
                Document.status := failed |}.
Proof.
  destruct (processDocument_without_key Scenario.env_without_key Scenario.DOC
              (Scenario.world 0) Scenario.document Cases.PDF Scenario.two_pages)
    as (w' & Hrun & _ & Hchunks & Hdoc);
    [reflexivity | reflexivity | reflexivity | reflexivity | by vm_compute
     | reflexivity | reflexivity |].
  exists w'. split_and!; [exact Hrun | exact Hchunks | exact Hdoc].
Defined.

Lemma processDocument_embedding_rejected_witness :
  ∃ w',
    processDocument (Scenario.rate_limited Scenario.env) Scenario.DOC
      (Scenario.world 0)
    = (Return (Failure "Gemini embedding API error (429): RESOURCE_EXHAUSTED"), w')
    ∧ document_chunks w' = [].
Proof.
  destruct (processDocument_embedding_rejected (Scenario.rate_limited Scenario.env)
              Scenario.DOC (Scenario.world 0) Scenario.document Cases.PDF
              Scenario.two_pages 0 429 "RESOURCE_EXHAUSTED")
    as (w' & Hrun & _ & Hchunks);
    [reflexivity | reflexivity | reflexivity | reflexivity | reflexivity
     | vm_compute; lia | intros j Hj; lia | by vm_compute |].
  exists w'. split; [exact Hrun | exact Hchunks].
Defined.

Lemma processDocument_success_witness :
  ∃ w',
    processDocument Scenario.env Scenario.DOC (Scenario.world 0) = (Return Success, w')
    ∧ ChunkRow.content <$> document_chunks w'
      = ["First page. It has two sentences. Second page!"]
    ∧ documents w' !! Scenario.DOC
      = Some {| Document.file_url := Document.file_url Scenario.document;
                Document.total_pages := Some 2;
                Document.status := ready |}.
Proof.
  destruct (processDocument_success Scenario.env Scenario.DOC (Scenario.world 0)
              Scenario.document Cases.PDF Scenario.two_pages Cases.vector)
    as (w' & Hrun & Hchunks & Hdoc & _);
    [reflexivity | reflexivity | reflexivity | reflexivity | by vm_compute
     | reflexivity | reflexivity |].
  exists w'. split_and!; [exact Hrun | | exact Hdoc].
  rewrite Hchunks. by vm_compute.
Defined.

Lemma processDocument_unchecked_vectors_witness :
  ∃ w',
    processDocument Cases.env_no_vectors Scenario.DOC (Scenario.world 0)
    = (Return Success, w')
    ∧ ChunkRow.embedding <$> document_chunks w' = [None].
Proof.
  destruct (processDocument_unchecked_vectors Cases.env_no_vectors Scenario.DOC
              (Scenario.world 0) Scenario.document Cases.PDF Scenario.two_pages
              (λ _, []))
    as (w' & rows & Hrun & Hchunks & Hlen & _ & Hnone);
    [reflexivity | reflexivity | reflexivity | reflexivity | by vm_compute
     | reflexivity | reflexivity |].
  exists w'. split; [exact Hrun |].
  rewrite Hchunks. simpl.
  destruct rows as [| row [| row' rows]]; [done | | done].
  simpl. by rewrite (Hnone 0%nat row eq_refl ltac:(simpl; lia)).
Defined.


End PipelineFacts.

(** ** The insights module: ids, cache and plan *)

Module InsightRunFacts.
Import Schema Effects Supabase Insights RunFacts InsightsFacts Vocabulary.

(** *** Decimal numerals *)

Lemma pretty_N_char_digit (x : N) :
  pretty_N_char x ≠ "-"%char ∧ pretty_N_char x ≠ "g"%char.
Proof. unfold pretty_N_char. by repeat case_match. Qed.

(** A numeral is not empty, and neither it nor any of its suffixes
    starts with a character that is not a digit. *)
Lemma pretty_N_go_split (x : N) (s : string) (c : ascii) :
  (∀ d, c ≠ pretty_N_char d) →
  ∀ before after,
    pretty_N_go x s = before +:+ String c after →
    ∃ before', s = before' +:+ String c after.
Proof.
  intros Hc. revert s. induction (N.lt_wf_0 x) as [x _ IH]; intros s before after.
  assert (x = 0 ∨ 0 < x)%N as [-> | Hpos] by lia.
  - rewrite pretty_N_go_0. intros ->. by exists before.
  - rewrite pretty_N_go_step by done. intros H.
    destruct (IH (x `div` 10)%N ltac:(by apply N.div_lt) _ _ _ H) as [before' E].
    destruct before' as [| c' before'].
    + simpl in E. injection E as E _. by destruct (Hc (x `mod` 10)%N).
    + simpl in E. injection E as _ E. by exists before'.
Qed.

Lemma pretty_nat_without (n : nat) (c : ascii) (before after : string) :
  (∀ d, c ≠ pretty_N_char d) →
  pretty n ≠ before +:+ String c after.
Proof.
  intros Hc E. unfold pretty, pretty_nat, pretty, pretty_N in E.
  destruct (decide (N.of_nat n = 0%N)) as [Hn | Hn].
  - destruct before as [| c' before]; simpl in E.
    + injection E as E _. apply (Hc 0%N). by rewrite <- E.
    + injection E as _ E. by destruct before.
  - destruct (pretty_N_go_split _ _ c Hc _ _ E) as [[| ? ?] ?]; done.
Qed.

Lemma not_digit_dash (d : N) : "-"%char ≠ pretty_N_char d.
Proof. intros E. by destruct (pretty_N_char_digit d) as [H _]. Qed.

Lemma not_digit_g (d : N) : "g"%char ≠ pretty_N_char d.
Proof. intros E. by destruct (pretty_N_char_digit d) as [_ H]. Qed.

(** Two texts without the character [c] that agree when followed by [c]
    and a rest are equal, and so are the rests. *)
Lemma split_at_first (c : ascii) (s s' t t' : string) :
  (∀ before after, s ≠ before +:+ String c after) →
  (∀ before after, s' ≠ before +:+ String c after) →
  s +:+ String c t = s' +:+ String c t' → s = s' ∧ t = t'.
Proof.
  revert s'. induction s as [| a s IH]; intros [| a' s'] Hs Hs' E; simpl in E.
  - by simplify_eq.
  - injection E as -> _. by destruct (Hs' "" s').
  - injection E as -> _. by destruct (Hs "" s).
  - injection E as -> E.
    destruct (IH s') as [-> ->]; [| | done | done].
    + intros before after ->. by apply (Hs (String a' before) after).
    + intros before after ->. by apply (Hs' (String a' before) after).
Qed.

(** *** Ids *)

Lemma final_id_inj (documentId : string) (i j : nat) :
  final_id documentId i = final_id documentId j → i = j.
Proof.
  unfold final_id. intros E.
  do 3 apply (inj (String.app _)) in E. by apply (inj pretty) in E.
Qed.

Lemma group_id_inj (documentId : string) (g g' i i' : nat) :
  group_id documentId g i = group_id documentId g' i' → g = g' ∧ i = i'.
Proof.
  unfold group_id. intros E.
  do 3 apply (inj (String.app _)) in E.
  change ("-" +:+ pretty i) with (String "-" (pretty i)) in E.
  change ("-" +:+ pretty i') with (String "-" (pretty i')) in E.
  apply split_at_first in E as [Eg Ei].
  - split; by apply (inj pretty).
  - intros before after. apply pretty_nat_without, not_digit_dash.
  - intros before after. apply pretty_nat_without, not_digit_dash.
Qed.

Lemma final_id_not_group_id (documentId : string) (i g j : nat) :
  final_id documentId i ≠ group_id documentId g j.
Proof.
  unfold final_id, group_id. intros E.
  do 2 apply (inj (String.app _)) in E.
  change ("-" +:+ pretty i) with (String "-" (pretty i)) in E.
  change ("-g" +:+ pretty g +:+ "-" +:+ pretty j)
    with (String "-" (String "g" (pretty g +:+ "-" +:+ pretty j))) in E.
  injection E as E.
  by apply (pretty_nat_without i "g" "" (pretty g +:+ "-" +:+ pretty j)
              not_digit_g).
Qed.

Lemma NoDup_imap_inj {A B} (f : nat → A → B) (l : list A) :
  (∀ i j x y, f i x = f j y → i = j) → NoDup (imap f l).
Proof.
  intros Hf. apply NoDup_alt. intros i j b Hi Hj.
  rewrite list_lookup_imap in Hi, Hj.
  destruct (l !! i) as [x |]; [| done]. destruct (l !! j) as [y |]; [| done].
  simpl in *. simplify_eq. by eapply Hf.
Qed.

(** X17.  The ids that the module assigns never collide.  The ids of a final
    list are pairwise distinct, an id of group [g] at position [i] differs
    from every id of another group or position, and no final id is a group
    id. *)
Theorem insight_ids_distinct (documentId : string) :
  (∀ i j, final_id documentId i = final_id documentId j → i = j)
  ∧ (∀ g i g' i',
       group_id documentId g i = group_id documentId g' i' → g = g' ∧ i = i')
  ∧ (∀ i g j, final_id documentId i ≠ group_id documentId g j)
  ∧ (∀ raw, NoDup (Insight.id <$> assignIds raw documentId))
  ∧ (∀ allInsights, NoDup (Insight.id <$> reassign_ids documentId allInsights)).
Proof.
  split_and!.
  - apply final_id_inj.
  - intros g i g' i'. apply group_id_inj.
  - apply final_id_not_group_id.
  - intros raw. unfold assignIds. rewrite fmap_imap.
    apply NoDup_imap_inj. intros i j x y. apply final_id_inj.
  - intros l. unfold reassign_ids. rewrite fmap_imap.
    apply NoDup_imap_inj. intros i j x y. apply final_id_inj.
Qed.

Section WithEnv.
Context (env : Env).

(** *** Running the cache and the plan *)

Lemma getCachedInsights_run (documentId : string) (w : World) :
  getCachedInsights env documentId w
  = (Return match db_error env (log w) (SelectInsights documentId) with
            | Some _ => None
            | None =>
                match document_insights w !! documentId with
                | Some insights =>
                    if bool_decide (0 < length insights)%nat then Some insights
                    else None
                | None => None
                end
            end,
     logged (SelectInsights documentId) w).
Proof.
  unfold getCachedInsights, select_insights, send, mbind, M_bind, mret, M_ret,
    get_world. simpl.
  destruct (db_error env (log w) _); [done |].
  destruct (document_insights w !! documentId) as [l |]; [| done]. simpl.
  by case_bool_decide.
Qed.

Lemma getInsightPlan_run (documentId : string) (w : World) :
  getInsightPlan env documentId w
  = (Return match db_error env (log w) (CountChunks documentId) with
            | Some _ => None
            | None =>
                let count := length (rows_of documentId (document_chunks w)) in
                if bool_decide (count = 0%nat) then None
                else Some {| InsightPlan.totalChunks := Z.of_nat count;
                             InsightPlan.totalGroups :=
                               JS.ceil_div (Z.of_nat count)
                                 (Z.of_nat CHUNKS_PER_GROUP) |}
            end,
     logged (CountChunks documentId) w).
Proof.
  unfold getInsightPlan. erewrite bind_run by apply (count_chunks_run env).
  destruct (db_error env (log w) _); [done |]. simpl.
  by case_bool_decide.
Qed.

Lemma delete_insights_run (documentId : string) (w : World) :
  delete_insights env documentId w
  = match db_error env (log w) (DeleteInsights documentId) with
    | Some e => (Return (fail e), logged (DeleteInsights documentId) w)
    | None => (Return (succeed ()),
               set_document_insights (delete documentId)
                 (logged (DeleteInsights documentId) w))
    end.
Proof.
  unfold delete_insights, send, mbind, M_bind, mret, M_ret, modify_world. simpl.
  by destruct (db_error env (log w) _).
Qed.

(** X18.  What is cached is what is read back, except that an empty list reads
    back as no cache: when the database accepts the upsert and the
    following select, [getCachedInsights] after [cacheInsights] returns
    the list that was cached, whatever the cache held before, and [null]
    when that list is empty. *)
Theorem cache_round_trip (documentId : string) (insights : list Insight.t)
    (w : World) :
  db_error env (log w) (UpsertInsights documentId insights) = None →
  db_error env (log w ++ [UpsertInsights documentId insights])
    (SelectInsights documentId) = None →
  ∃ w',
    (cacheInsights env documentId insights
     ≫= λ _, getCachedInsights env documentId) w
    = (Return (if bool_decide (insights = []) then None else Some insights), w')
    ∧ new_requests w w'
      = [UpsertInsights documentId insights; SelectInsights documentId].
Proof.
  intros Hupsert Hselect.
  exists (logged (SelectInsights documentId) (cached env documentId insights w)).
  split.
  - erewrite bind_run by apply cacheInsights_run.
    rewrite getCachedInsights_run.
    rewrite (cached_log env documentId insights w), Hselect.
    f_equal. f_equal.
    unfold cached. rewrite Hupsert. simpl. rewrite lookup_insert_eq.
    destruct insights; [done |].
    rewrite bool_decide_eq_true_2 by (simpl; lia).
    by rewrite bool_decide_eq_false_2.
  - apply new_requests_app. simpl. rewrite cached_log.
    by rewrite <- app_assoc.
Qed.

Lemma generateInsights_hit_run (documentId : string)
    (insights : list Insight.t) (w : World) :
  db_error env (log w) (SelectInsights documentId) = None →
  document_insights w !! documentId = Some insights →
  insights ≠ [] →
  generateInsights env documentId w
  = (Return insights, logged (SelectInsights documentId) w).
Proof.
  intros Hselect Hrow Hne. unfold generateInsights.
  erewrite bind_run by apply getCachedInsights_run.
  rewrite Hselect, Hrow.
  rewrite bool_decide_eq_true_2; [done |].
  destruct insights; [done | simpl; lia].
Qed.

(** X19.  A cached list that is not empty is returned as it is: the only
    request of [generateInsights] is the select of the cache row, so
    neither the chunk table nor the model is consulted, with or without
    the API key, and no table changes. *)
Theorem generateInsights_cache_hit (documentId : string)
    (insights : list Insight.t) (w : World) :
  db_error env (log w) (SelectInsights documentId) = None →
  document_insights w !! documentId = Some insights →
  insights ≠ [] →
  ∃ w',
    generateInsights env documentId w = (Return insights, w')
    ∧ new_requests w w' = [SelectInsights documentId]
    ∧ same_tables w w'.
Proof.
  intros Hselect Hrow Hne. eexists.
  split; [by apply generateInsights_hit_run |].
  split; [by apply new_requests_app | by split_and!].
Qed.

(** Whether the cache misses. *)
Lemma cache_miss (documentId : string) (w : World) :
  is_Some (db_error env (log w) (SelectInsights documentId))
  ∨ document_insights w !! documentId = None
  ∨ document_insights w !! documentId = Some [] →
  getCachedInsights env documentId w
  = (Return None, logged (SelectInsights documentId) w).
Proof.
  intros H. rewrite getCachedInsights_run. f_equal. f_equal.
  destruct H as [[e ->] | [-> | ->]]; [done | ..];
    by destruct (db_error env _ _).
Qed.

Lemma generateInsights_empty_run (documentId : string) (w : World) :
  is_Some (db_error env (log w) (SelectInsights documentId))
  ∨ document_insights w !! documentId = None
  ∨ document_insights w !! documentId = Some [] →
  is_Some (db_error env (log w ++ [SelectInsights documentId])
             (CountChunks documentId))
  ∨ rows_of documentId (document_chunks w) = [] →
  generateInsights env documentId w
  = (Return [],
     logged (CountChunks documentId) (logged (SelectInsights documentId) w)).
Proof.
  intros Hmiss Hplan. unfold generateInsights.
  erewrite bind_run by (by apply cache_miss).
  cbv beta iota.
  erewrite bind_run by apply getInsightPlan_run.
  assert (Hnone : match db_error env (log (logged (SelectInsights documentId) w))
                          (CountChunks documentId) with
                  | Some _ => None
                  | None =>
                      let count :=
                        length (rows_of documentId
                                  (document_chunks (logged (SelectInsights documentId) w))) in
                      if bool_decide (count = 0%nat) then None
                      else Some {| InsightPlan.totalChunks := Z.of_nat count;
                                   InsightPlan.totalGroups :=
                                     JS.ceil_div (Z.of_nat count)
                                       (Z.of_nat CHUNKS_PER_GROUP) |}
                  end = None).
  { destruct Hplan as [[e He] | Hrows].
    - simpl in He |- *. by rewrite He.
    - destruct (db_error env (log (logged (SelectInsights documentId) w))
                  (CountChunks documentId)); [done |].
      change (document_chunks (logged (SelectInsights documentId) w))
        with (document_chunks w).
      by rewrite Hrows. }
  by rewrite Hnone.
Qed.

(** X20.  When the cache misses (the select fails, finds no row, or finds an
    empty list) and there is no plan (the count fails or the document has
    no chunk row), [generateInsights] returns the empty list after these
    two requests; it caches nothing, so the next call asks again. *)
Theorem generateInsights_nothing_to_extract (documentId : string) (w : World) :
  is_Some (db_error env (log w) (SelectInsights documentId))
  ∨ document_insights w !! documentId = None
  ∨ document_insights w !! documentId = Some [] →
  is_Some (db_error env (log w ++ [SelectInsights documentId])
             (CountChunks documentId))
  ∨ rows_of documentId (document_chunks w) = [] →
  ∃ w',
    generateInsights env documentId w = (Return [], w')
    ∧ new_requests w w' = [SelectInsights documentId; CountChunks documentId]
    ∧ same_tables w w'.
Proof.
  intros Hmiss Hplan. eexists.
  split; [by apply generateInsights_empty_run |]. split.
  - apply new_requests_app. simpl. by rewrite <- app_assoc.
  - by split_and!.
Qed.

(** X21.  [regenerateInsights] does not look at the outcome of the delete.
    When the database rejects it and the cache row holds a list that is
    not empty, the old list is returned as if it were fresh, and the model
    is never called.  When the delete is applied and the document has no
    chunk row, the result is the empty list and the cache row is gone. *)
Theorem regenerateInsights_ignores_delete_error (documentId : string) (w : World) :
  let deleting := log w ++ [DeleteInsights documentId] in
  (∀ insights,
     is_Some (db_error env (log w) (DeleteInsights documentId)) →
     db_error env deleting (SelectInsights documentId) = None →
     document_insights w !! documentId = Some insights →
     insights ≠ [] →
     ∃ w',
       regenerateInsights env documentId w = (Return insights, w')
       ∧ new_requests w w' = [DeleteInsights documentId; SelectInsights documentId]
       ∧ same_tables w w')
  ∧ (db_error env (log w) (DeleteInsights documentId) = None →
     rows_of documentId (document_chunks w) = [] →
     ∃ w',
       regenerateInsights env documentId w = (Return [], w')
       ∧ new_requests w w'
         = [DeleteInsights documentId; SelectInsights documentId;
            CountChunks documentId]
       ∧ document_insights w' !! documentId = None).
Proof.
  cbv zeta. split.
  - intros insights [e He] Hselect Hrow Hne.
    exists (logged (SelectInsights documentId) (logged (DeleteInsights documentId) w)).
    split; [| split].
    + unfold regenerateInsights.
      erewrite bind_run by (rewrite delete_insights_run, He; reflexivity).
      by apply generateInsights_hit_run.
    + apply new_requests_app. simpl. by rewrite <- app_assoc.
    + by split_and!.
  - intros Hdelete Hrows.
    exists (logged (CountChunks documentId)
              (logged (SelectInsights documentId)
                 (set_document_insights (delete documentId)
                    (logged (DeleteInsights documentId) w)))).
    split; [| split].
    + unfold regenerateInsights.
      erewrite bind_run by (rewrite delete_insights_run, Hdelete; reflexivity).
      apply generateInsights_empty_run.
      * right. left. apply lookup_delete_eq.
      * by right.
    + apply new_requests_app. simpl. by rewrite <- !app_assoc.
    + apply lookup_delete_eq.
Qed.

(** *** The plan and the groups *)

Lemma group_rows_slice (documentId : string) (i : nat) (w : World) :
  group_rows documentId i w
  = take 10 (drop (i * 10) (ordered_rows_of documentId (document_chunks w))).
Proof.
  unfold group_rows, range. f_equal. lia.
Qed.

(** X22.  The groups of a plan cover the chunk rows of the document exactly
    once, in index order: put end to end, the ranges that
    [extractGroupInsights] fetches for the groups [0 .. totalGroups - 1]
    are the rows of the document, each group has between 1 and 10 rows,
    and a group index beyond the plan has none. *)
Theorem plan_groups_cover_rows (documentId : string) (w : World)
    (plan : InsightPlan.t) :
  let rows := ordered_rows_of documentId (document_chunks w) in
  let groups := Z.to_nat (InsightPlan.totalGroups plan) in
  (getInsightPlan env documentId w).1 = Return (Some plan) →
  InsightPlan.totalChunks plan = Z.of_nat (length rows)
  ∧ concat ((λ i, group_rows documentId i w) <$> seq 0 groups) = rows
  ∧ (∀ i, (i < groups)%nat → (0 < length (group_rows documentId i w) ≤ 10)%nat)
  ∧ (∀ i, (groups ≤ i)%nat → group_rows documentId i w = []).
Proof.
  cbv zeta. rewrite getInsightPlan_run. simpl.
  destruct (db_error env (log w) (CountChunks documentId)); [done |].
  case_bool_decide as Hcount; [done |]. intros [= <-]. simpl.
  rewrite <- (ordered_rows_of_length documentId (document_chunks w)) in *.
  set (rows := ordered_rows_of documentId (document_chunks w)) in *.
  assert (Hgroups : Z.to_nat (JS.ceil_div (Z.of_nat (length rows))
                                (Z.of_nat CHUNKS_PER_GROUP))
                    = ((length rows + (10 - 1)) / 10)%nat).
  { rewrite RagFacts.ceil_div_closed_form by (unfold CHUNKS_PER_GROUP; lia).
    unfold CHUNKS_PER_GROUP.
    replace (Z.of_nat (length rows) + Z.of_nat 10 - 1)
      with (Z.of_nat (length rows + (10 - 1))) by lia.
    change (Z.of_nat 10) with (Z.of_nat 10%nat).
    by rewrite <- Nat2Z.inj_div, Nat2Z.id. }
  rewrite Hgroups. split_and!.
  - done.
  - etransitivity; [| apply (PipelineFacts.concat_slices 10 rows
                               ((length rows + (10 - 1)) / 10)); [lia |]].
    + f_equal. apply list_fmap_ext. intros _ i _. apply group_rows_slice.
    + pose proof (Nat.div_mod_eq (length rows + (10 - 1)) 10).
      pose proof (Nat.mod_upper_bound (length rows + (10 - 1)) 10). lia.
  - intros i Hi. apply (PipelineFacts.slice_count_lt 10) in Hi; [| lia].
    rewrite group_rows_slice. fold rows.
    rewrite length_take, length_drop. lia.
  - intros i Hi. rewrite group_rows_slice. fold rows.
    assert (¬ (i * 10 < length rows)%nat).
    { intros H. apply (PipelineFacts.slice_count_lt 10) in H; lia. }
    rewrite drop_ge by lia. done.
Qed.

(** *** Extraction and merge with an answer *)

Lemma typed_lookup (f : nat → string) (raw : list RawInsight.t) (i : nat)
    (item : RawInsight.t) :
  raw !! i = Some item →
  imap (λ i item, typed (f i) item) raw !! i = Some (typed (f i) item).
Proof. intros H. by rewrite list_lookup_imap, H. Qed.

(** X23.  With the key set, the chunks of the group fetched and an answer from
    the model: an answer that is blank once trimmed gives the empty list;
    an answer that parses gives one insight per parsed item, in order,
    with the group-scoped id of its position, the title and description
    of the item, and its sources and research directions, or empty lists
    where the item has none.  The ids of the result are pairwise
    distinct.  The requests are the fetch and the model call, and no
    table changes. *)
Theorem extractGroupInsights_with_answer (documentId : string)
    (groupIndex totalGroups : nat) (w : World) (text : string) :
  let fetch := group_request documentId groupIndex in
  let chunks := group_rows documentId groupIndex w in
  let req := extract_request groupIndex totalGroups chunks in
  let w' := logged (GenerateContent req) (logged fetch w) in
  has_api_key env = true →
  db_error env (log w) fetch = None →
  chunks ≠ [] →
  generateContent env (log w ++ [fetch]) req = inr text →
  (JS.trim text = "" →
   extractGroupInsights env documentId groupIndex totalGroups w = (Return [], w'))
  ∧ (∀ raw,
       JS.trim text ≠ "" →
       JSON_parse env (JS.trim text) = inr raw →
       ∃ insights,
         extractGroupInsights env documentId groupIndex totalGroups w
         = (Return insights, w')
         ∧ length insights = length raw
         ∧ (∀ i item, raw !! i = Some item →
              insights !! i
              = Some {| Insight.id := group_id documentId groupIndex i;
                        Insight.title := RawInsight.title item;
                        Insight.description := RawInsight.description item;
                        Insight.sources := default [] (RawInsight.sources item);
                        Insight.researchDirections :=
                          default [] (RawInsight.researchDirections item) |})
         ∧ NoDup (Insight.id <$> insights)).
Proof.
  cbv zeta. intros Hkey Hdb Hrows Hgen.
  unfold extractGroupInsights.
  erewrite bind_run by (rewrite getGeminiClient_run, Hkey; reflexivity).
  unfold CHUNKS_PER_GROUP.
  replace (groupIndex * 10 + 10 - 1)%nat with (groupIndex * 10 + 9)%nat by lia.
  erewrite bind_run by apply (range_chunks_run env).
  fold (group_request documentId groupIndex). rewrite Hdb. simpl.
  fold (group_rows documentId groupIndex w).
  rewrite bool_decide_eq_false_2 by (by intros ?%nil_length_inv).
  erewrite bind_run by (rewrite generate_run; simpl; rewrite Hgen; reflexivity).
  split.
  - intros Hblank. by rewrite bool_decide_eq_true_2.
  - intros raw Hne Hparse. rewrite bool_decide_eq_false_2 by done.
    unfold parse. rewrite Hparse.
    eexists. split; [reflexivity |]. split_and!.
    + by rewrite length_imap.
    + intros i item Hi. rewrite (typed_lookup _ _ _ _ Hi). unfold typed.
      f_equal. f_equal.
      * destruct (RawInsight.sources item) as [l |]; [| done]. simpl.
        rewrite <- (list_fmap_id l) at 2. apply list_fmap_ext.
        by intros _ [] _.
      * destruct (RawInsight.researchDirections item) as [l |]; [| done]. simpl.
        rewrite <- (list_fmap_id l) at 2. apply list_fmap_ext.
        by intros _ [] _.
    + rewrite fmap_imap. apply NoDup_imap_inj. intros i j x y E. simpl in E.
      by apply group_id_inj in E as [_ ?].
Qed.

Lemma typed_strip_id (newId : string) (item : Insight.t) :
  typed newId (strip_id item) = Insight.with_id item newId.
Proof.
  unfold typed, strip_id, Insight.with_id. simpl. f_equal.
  - rewrite <- (list_fmap_id (Insight.sources item)) at 2.
    apply list_fmap_ext. by intros _ [] _.
  - rewrite <- (list_fmap_id (Insight.researchDirections item)) at 2.
    apply list_fmap_ext. by intros _ [] _.
Qed.

Lemma assignIds_strip_id (documentId : string) (allInsights : list Insight.t) :
  assignIds (strip_id <$> allInsights) documentId
  = reassign_ids documentId allInsights.
Proof.
  unfold assignIds, reassign_ids. apply list_eq. intros i.
  rewrite !list_lookup_imap, list_lookup_fmap.
  destruct (allInsights !! i) as [item |]; [| done]. simpl.
  by rewrite typed_strip_id.
Qed.

(** X24.  With more than 6 candidates the merge needs the model.  Without the
    API key it throws before any request and caches nothing, although a
    smaller set would have been cached without the key.  With the key and
    an answer that parses, the result is the parsed list with ids
    [insight-{prefix}-{index}] in the order of the answer, whatever its
    length; it is upserted into the cache and returned.  An answer that
    repeats the candidates as they were sent gives the same list as the
    fallback for an empty answer. *)
Theorem mergeAndCacheInsights_with_model (documentId : string)
    (allInsights : list Insight.t) (w : World) :
  let req := merge_request (JSON_stringify env (strip_id <$> allInsights)) in
  (6 < length allInsights)%nat →
  (has_api_key env = false →
   mergeAndCacheInsights env documentId allInsights w
   = (Throw (Error "GEMINI_API_KEY environment variable is not set."), w))
  ∧ (∀ text merged,
       has_api_key env = true →
       generateContent env (log w) req = inr text →
       JS.trim text ≠ "" →
       JSON_parse env (JS.trim text) = inr merged →
       let final := assignIds merged documentId in
       ∃ w',
         mergeAndCacheInsights env documentId allInsights w = (Return final, w')
         ∧ length final = length merged
         ∧ (∀ i item, merged !! i = Some item →
              Insight.id <$> final !! i = Some (final_id documentId i)
              ∧ Insight.title <$> final !! i = Some (RawInsight.title item))
         ∧ new_requests w w' = [GenerateContent req; UpsertInsights documentId final]
         ∧ (db_error env (log w ++ [GenerateContent req])
              (UpsertInsights documentId final) = None →
            document_insights w' !! documentId = Some final)
         ∧ (merged = strip_id <$> allInsights →
            final = reassign_ids documentId allInsights)).
Proof.
  cbv zeta. intros Hlen. unfold mergeAndCacheInsights.
  rewrite bool_decide_eq_false_2 by lia. split.
  - intros Hkey.
    by erewrite bind_throw by (rewrite getGeminiClient_run, Hkey; reflexivity).
  - intros text merged Hkey Hgen Hne Hparse.
    erewrite bind_run by (rewrite getGeminiClient_run, Hkey; reflexivity).
    erewrite bind_run by (rewrite generate_run, Hgen; reflexivity).
    rewrite bool_decide_eq_false_2 by done.
    unfold parse. rewrite Hparse.
    unfold mbind at 1, M_bind at 1, mret at 1, M_ret at 1.
    eexists. split; [erewrite bind_run by apply cacheInsights_run; reflexivity |].
    split_and!.
    + unfold assignIds. by rewrite length_imap.
    + intros i item Hi. unfold assignIds.
      by rewrite (typed_lookup _ _ _ _ Hi).
    + apply new_requests_app. rewrite cached_log. simpl.
      by rewrite <- app_assoc.
    + unfold cached. simpl. intros ->. simpl. apply lookup_insert_eq.
    + intros ->. apply assignIds_strip_id.
Qed.

(** *** What the insight functions may write *)

Lemma only_cache_row_refl (documentId : string) (w : World) :
  only_cache_row documentId w w.
Proof. by split_and!. Qed.

Lemma only_cache_row_trans (documentId : string) (w1 w2 w3 : World) :
  only_cache_row documentId w1 w2 → only_cache_row documentId w2 w3 →
  only_cache_row documentId w1 w3.
Proof.
  intros (H1 & H2 & H3) (H4 & H5 & H6). split_and!; [congruence | congruence |].
  intros id Hne. by rewrite H6, H3.
Qed.

Lemma only_cache_row_same (documentId : string) (w w' : World) :
  same_tables w w' → only_cache_row documentId w w'.
Proof. intros (H1 & H2 & H3). split_and!; [done | done |]. by rewrite H3. Qed.

Lemma writes_bind {A B} (documentId : string) (m : M A) (f : A → M B) :
  writes_only_cache_row documentId m →
  (∀ a, writes_only_cache_row documentId (f a)) →
  writes_only_cache_row documentId (m ≫= f).
Proof.
  intros Hm Hf w. specialize (Hm w). unfold mbind, M_bind.
  destruct (m w) as [[a | e] w1]; simpl in *; [| done].
  eapply only_cache_row_trans; [done | apply Hf].
Qed.

Lemma writes_of_preserves {A} (documentId : string) (m : M A) :
  preserves_tables m → writes_only_cache_row documentId m.
Proof. intros H w. apply only_cache_row_same, H. Qed.

Lemma writes_cacheInsights (documentId : string) (insights : list Insight.t) :
  writes_only_cache_row documentId (cacheInsights env documentId insights).
Proof.
  intros w. rewrite cacheInsights_run. unfold cached. simpl.
  destruct (db_error env _ _); simpl; [by split_and! |].
  split_and!; [done | done |]. intros id Hne. simpl.
  by rewrite lookup_insert_ne.
Qed.

Lemma writes_mergeAndCacheInsights (documentId : string)
    (allInsights : list Insight.t) :
  writes_only_cache_row documentId (mergeAndCacheInsights env documentId allInsights).
Proof.
  unfold mergeAndCacheInsights.
  assert (Hcache : ∀ final,
            writes_only_cache_row documentId
              (cacheInsights env documentId final ≫= λ _, mret final)).
  { intros final. apply writes_bind; [apply writes_cacheInsights |].
    intros _. apply writes_of_preserves, preserves_ret. }
  case_bool_decide; [apply Hcache |].
  apply writes_bind; [apply writes_of_preserves, preserves_getGeminiClient |].
  intros _. apply writes_bind.
  { apply writes_of_preserves. unfold generate. tables. }
  intros text. case_bool_decide; [apply Hcache |].
  apply writes_bind; [| intros merged; apply Hcache].
  apply writes_of_preserves. unfold parse. tables.
Qed.

Lemma writes_generateInsights (documentId : string) :
  writes_only_cache_row documentId (generateInsights env documentId).
Proof.
  unfold generateInsights.
  apply writes_bind;
    [apply writes_of_preserves, preserves_getCachedInsights |].
  intros [insights |]; [apply writes_of_preserves, preserves_ret |].
  apply writes_bind; [apply writes_of_preserves, preserves_getInsightPlan |].
  intros [plan |]; [| apply writes_of_preserves, preserves_ret].
  apply writes_bind.
  - intros w. apply only_cache_row_same. unfold Promise_all.
    pose proof (settle_all_tables
                  ((λ i, extractGroupInsights env documentId i
                           (Z.to_nat (InsightPlan.totalGroups plan)))
                     <$> seq 0 (Z.to_nat (InsightPlan.totalGroups plan))) w) as H.
    destruct (settle_all _ w) as [os w']. simpl in *. apply H.
    apply Forall_fmap, Forall_forall. intros i _.
    exact (preserves_extractGroupInsights env documentId i _).
  - intros groupResults. case_bool_decide;
      [apply writes_of_preserves, preserves_ret |].
    apply writes_mergeAndCacheInsights.
Qed.

(** X25.  The insight functions never write to the documents or to the chunk
    rows, and of the insight cache they write at most the row of the
    document they are called for.  The plan, the cache lookup and the
    extraction of a group write nothing at all. *)
Theorem insights_write_only_their_cache_row (documentId : string) (w : World) :
  only_cache_row documentId w (generateInsights env documentId w).2
  ∧ only_cache_row documentId w (regenerateInsights env documentId w).2
  ∧ (∀ allInsights,
       only_cache_row documentId w
         (mergeAndCacheInsights env documentId allInsights w).2)
  ∧ (∀ groupIndex totalGroups,
       same_tables w (extractGroupInsights env documentId groupIndex totalGroups w).2)
  ∧ same_tables w (getInsightPlan env documentId w).2
  ∧ same_tables w (getCachedDocumentInsights env documentId w).2.
Proof.
  split_and!.
  - apply writes_generateInsights.
  - unfold regenerateInsights. apply writes_bind.
    + intros w0. rewrite delete_insights_run.
      destruct (db_error env _ _); simpl; [by split_and! |].
      split_and!; [done | done |]. intros id Hne. simpl.
      by rewrite lookup_delete_ne.
    + intros _. apply writes_generateInsights.
  - intros allInsights. apply writes_mergeAndCacheInsights.
  - intros groupIndex totalGroups. apply preserves_extractGroupInsights.
  - apply preserves_getInsightPlan.
  - apply preserves_getCachedInsights.
Qed.

End WithEnv.

(** *** Concrete runs *)

Lemma cache_round_trip_witness :
  ∃ w',
    (cacheInsights Scenario.env Scenario.DOC (Scenario.candidates 2)
     ≫= λ _, getCachedInsights Scenario.env Scenario.DOC) (Scenario.world 0)
    = (Return (Some (Scenario.candidates 2)), w').
Proof.
  destruct (cache_round_trip Scenario.env Scenario.DOC (Scenario.candidates 2)
              (Scenario.world 0) eq_refl eq_refl) as (w' & Hrun & _).
  exists w'. exact Hrun.
Defined.

Lemma generateInsights_cache_hit_witness :
  ∃ w',
    generateInsights Scenario.env_without_key Scenario.DOC
      (Cases.world_with_cache 25 (Scenario.candidates 2))
    = (Return (Scenario.candidates 2), w')
    ∧ new_requests (Cases.world_with_cache 25 (Scenario.candidates 2)) w'
      = [SelectInsights Scenario.DOC].
Proof.
  destruct (generateInsights_cache_hit Scenario.env_without_key Scenario.DOC
              (Scenario.candidates 2)
              (Cases.world_with_cache 25 (Scenario.candidates 2)))
    as (w' & Hrun & Hreqs & _); [reflexivity | by vm_compute | done |].
  exists w'. split; [exact Hrun | exact Hreqs].
Defined.

Lemma generateInsights_nothing_to_extract_witness :
  ∃ w',
    generateInsights Scenario.env Scenario.DOC (Scenario.world 0) = (Return [], w')
    ∧ same_tables (Scenario.world 0) w'.
Proof.
  destruct (generateInsights_nothing_to_extract Scenario.env Scenario.DOC
              (Scenario.world 0))
    as (w' & Hrun & _ & Htables);
    [right; left; reflexivity | right; reflexivity |].
  exists w'. split; [exact Hrun | exact Htables].
Defined.

Lemma regenerateInsights_stale_witness :
  ∃ w',
    regenerateInsights Cases.env_no_delete Scenario.DOC
      (Cases.world_with_cache 25 (Scenario.candidates 2))
    = (Return (Scenario.candidates 2), w').
Proof.
  destruct (regenerateInsights_ignores_delete_error Cases.env_no_delete Scenario.DOC
              (Cases.world_with_cache 25 (Scenario.candidates 2))) as [Hstale _].
  destruct (Hstale (Scenario.candidates 2)) as (w' & Hrun & _);
    [by eexists | reflexivity | by vm_compute | done |].
  exists w'. exact Hrun.
Defined.

Lemma plan_groups_cover_rows_witness :
  length <$> ((λ i, group_rows Scenario.DOC i (Scenario.world 25)) <$> seq 0 3)
  = [10; 10; 5]%nat
  ∧ concat ((λ i, group_rows Scenario.DOC i (Scenario.world 25)) <$> seq 0 3)
    = ordered_rows_of Scenario.DOC (document_chunks (Scenario.world 25)).
Proof.
  destruct (plan_groups_cover_rows Scenario.env Scenario.DOC (Scenario.world 25)
              {| InsightPlan.totalChunks := 25; InsightPlan.totalGroups := 3 |})
    as (_ & Hconcat & _); [by vm_compute |].
  split; [by vm_compute | exact Hconcat].
Defined.

Lemma extractGroupInsights_with_answer_witness :
  ∃ insights w',
    extractGroupInsights Scenario.env Scenario.DOC 1 3 (Scenario.world 25)
    = (Return insights, w')
    ∧ Insight.id <$> insights = ["insight-3f2a9c1e-g1-0"; "insight-3f2a9c1e-g1-1"].
Proof.
  destruct (extractGroupInsights_with_answer Scenario.env Scenario.DOC 1 3
              (Scenario.world 25) (Json.stringify [Scenario.raw 0; Scenario.raw 1]))
    as [_ Hparsed]; [reflexivity | reflexivity | by vm_compute | reflexivity |].
  destruct (Hparsed [Scenario.raw 0; Scenario.raw 1])
    as (insights & Hrun & Hlen & Hitems & _); [by vm_compute | by vm_compute |].
  exists insights. eexists. split; [exact Hrun |].
  destruct insights as [| a [| b [| c rest]]]; try done.
  pose proof (Hitems 0%nat _ eq_refl) as H0.
  pose proof (Hitems 1%nat _ eq_refl) as H1.
  simpl in H0, H1. injection H0 as ->. injection H1 as ->. by vm_compute.
Defined.

Lemma mergeAndCacheInsights_with_model_witness :
  ∃ w',
    mergeAndCacheInsights Scenario.env Scenario.DOC (Scenario.candidates 7)
      (Scenario.world 25)
    = (Return (assignIds [Scenario.raw 0; Scenario.raw 1; Scenario.raw 2] Scenario.DOC),
       w')
    ∧ document_insights w' !! Scenario.DOC
      = Some (assignIds [Scenario.raw 0; Scenario.raw 1; Scenario.raw 2] Scenario.DOC).
Proof.
  destruct (mergeAndCacheInsights_with_model Scenario.env Scenario.DOC
              (Scenario.candidates 7) (Scenario.world 25))
    as [_ Hmerged]; [vm_compute; lia |].
  destruct (Hmerged (Json.stringify [Scenario.raw 0; Scenario.raw 1; Scenario.raw 2])
              [Scenario.raw 0; Scenario.raw 1; Scenario.raw 2])
    as (w' & Hrun & _ & _ & _ & Hcache & _);
    [reflexivity | reflexivity | by vm_compute | by vm_compute |].
  exists w'. split; [exact Hrun | by apply Hcache].
Defined.

End InsightRunFacts.

(** ** The insights panel *)

Module ChatPageFacts.
Import Schema Effects Supabase Insights RunFacts InsightsFacts Vocabulary
  InsightRunFacts ChatPage.

Lemma page_bind_run {A B} (m : Page A) (f : A → Page B) (v v' : View)
    (w w' : World) (a : A) :
  m v w = (Return a, v', w') → (m ≫= f) v w = f a v' w'.
Proof. unfold mbind, Page_bind. by intros ->. Qed.

Lemma page_bind_throw {A B} (m : Page A) (f : A → Page B) (v v' : View)
    (w w' : World) (e : Exn) :
  m v w = (Throw e, v', w') → (m ≫= f) v w = (Throw e, v', w').
Proof. unfold mbind, Page_bind. by intros ->. Qed.

Lemma call_run {A} (action : M A) (v : View) (w : World) :
  call action v w = ((action w).1, v, (action w).2).
Proof. unfold call. by destruct (action w). Qed.

Lemma call_returns {A} (action : M A) (v : View) (w w' : World) (o : Outcome A) :
  action w = (o, w') → call action v w = (o, v, w').
Proof. unfold call. by intros ->. Qed.

Lemma update_run (f : View → View) (v : View) (w : World) :
  update f v w = (Return (), f v, w).
Proof. reflexivity. Qed.

(** *** The ids of a group *)

Section WithEnv.
Context (env : Env).

Lemma extractGroupInsights_ids (documentId : string) (groupIndex totalGroups : nat)
    (w : World) (result : list Insight.t) :
  (extractGroupInsights env documentId groupIndex totalGroups w).1 = Return result →
  ∀ j x, result !! j = Some x → Insight.id x = group_id documentId groupIndex j.
Proof.
  unfold extractGroupInsights. unfold mbind at 1, M_bind at 1.
  rewrite getGeminiClient_run. destruct (has_api_key env); [| done].
  erewrite bind_run by apply (range_chunks_run env).
  destruct (db_error env _ _); simpl; [by intros [= <-] |].
  case_bool_decide; [by intros [= <-] |].
  unfold mbind at 1, M_bind at 1. rewrite generate_run.
  destruct (generateContent env _ _) as [e | text]; [done |].
  case_bool_decide; [by intros [= <-] |].
  unfold parse. destruct (JSON_parse env _) as [message | raw]; [done |].
  simpl. intros [= <-] j x Hx. rewrite list_lookup_imap in Hx.
  destruct (raw !! j); [| done]. simpl in Hx. by simplify_eq.
Qed.

(** *** Appending the cards of a group *)

Lemma append_new_fresh (groupInsights prev : list Insight.t) :
  (∀ x, x ∈ groupInsights → Insight.id x ∉ Insight.id <$> prev) →
  append_new groupInsights prev = prev ++ groupInsights.
Proof.
  intros Hfresh. unfold append_new. f_equal.
  induction groupInsights as [| x l IH]; [done |].
  rewrite filter_cons_True by (apply Hfresh; left).
  f_equal. apply IH. intros y Hy. apply Hfresh. by right.
Qed.

Lemma append_new_group (documentId : string) (k : nat)
    (groupInsights prev : list Insight.t) :
  (∀ x, x ∈ prev →
     ∃ g j, (g < k)%nat ∧ Insight.id x = group_id documentId g j) →
  (∀ j x, groupInsights !! j = Some x → Insight.id x = group_id documentId k j) →
  append_new groupInsights prev = prev ++ groupInsights
  ∧ ∀ x, x ∈ prev ++ groupInsights →
      ∃ g j, (g < S k)%nat ∧ Insight.id x = group_id documentId g j.
Proof.
  intros Hprev Hnew. split.
  - apply append_new_fresh. intros x (j & Hj)%list_elem_of_lookup_1.
    intros (y & Hid & Hy)%list_elem_of_fmap.
    destruct (Hprev y Hy) as (g & j' & Hg & Hy').
    rewrite (Hnew j x Hj), Hy' in Hid.
    apply group_id_inj in Hid as [-> _]. lia.
  - intros x [Hx | (j & Hj)%list_elem_of_lookup_1]%elem_of_app.
    + destruct (Hprev x Hx) as (g & j & Hg & Hid). exists g, j. split; [lia | done].
    + exists k, j. split; [lia | by apply Hnew].
Qed.

(** *** The loop over the groups *)

Section Loop.
Context (aborted : list Request → bool).
Hypothesis never_aborted : ∀ seen, aborted seen = false.

Lemma abortRef_current_false (v : View) (w : World) :
  abortRef_current aborted v w = (Return false, v, w).
Proof. unfold abortRef_current. by rewrite never_aborted. Qed.

(** While no group throws, the loop shows the cards of the groups in
    order and collects them. *)
Lemma group_loop_returns (fuel : nat) (documentId : string) (g k : nat)
    (acc : list Insight.t) (v : View) (w w' : World)
    (results : list (list Insight.t)) :
  (g ≤ k + fuel)%nat →
  (∀ x, x ∈ insights v →
     ∃ g' j, (g' < k)%nat ∧ Insight.id x = group_id documentId g' j) →
  settle_all ((λ i, extractGroupInsights env documentId i g) <$> seq k (g - k)) w
  = (Return <$> results, w') →
  ∃ v',
    group_loop env aborted fuel documentId (Z.of_nat g) k acc v w
    = (Return (Some (acc ++ concat results)), v', w')
    ∧ insights v' = insights v ++ concat results
    ∧ insightsLoading v' = insightsLoading v
    ∧ insightsError v' = insightsError v
    ∧ isMerging v' = isMerging v.
Proof.
  revert k acc v w results.
  induction fuel as [| fuel IH]; intros k acc v w results Hfuel Hshown Hall.
  - replace (g - k)%nat with 0%nat in Hall by lia. simpl in Hall.
    destruct results; [| done]. simplify_eq. exists v. simpl.
    by rewrite !app_nil_r.
  - simpl. case_bool_decide as Hk.
    + replace (g - k)%nat with (S (g - S k)) in Hall by lia.
      simpl in Hall.
      destruct (extractGroupInsights env documentId k g w) as [o w1] eqn:Hrun.
      destruct (settle_all _ w1) as [os w2] eqn:Hrest.
      destruct results as [| r results]; [done |].
      injection Hall as -> Hos ->.
      erewrite page_bind_run by apply abortRef_current_false.
      unfold mbind at 1, Page_bind at 1. simpl.
      erewrite page_bind_run
        by (rewrite call_run, Nat2Z.id, Hrun; reflexivity).
      erewrite page_bind_run by apply abortRef_current_false.
      unfold mbind at 1, Page_bind at 1. simpl.
      destruct (append_new_group documentId k r (insights v) Hshown) as [Happ Hshown'].
      { apply (extractGroupInsights_ids documentId k g w). by rewrite Hrun. }
      destruct (IH (S k) (acc ++ r)
                  (setInsights (append_new r)
                     (setLoadingProgress (Some (Z.of_nat k + 1, Z.of_nat g)) v))
                  w1 results) as (v' & Hloop & Hi & Hl & He & Hm).
      * lia.
      * simpl. by rewrite Happ.
      * subst os. exact Hrest.
      * exists v'. rewrite Hloop. simpl in *.
        rewrite Hi, Happ, <- !app_assoc. done.
    + replace (g - k)%nat with 0%nat in Hall by lia. simpl in Hall.
      destruct results; [| done]. simplify_eq. exists v. simpl.
      by rewrite !app_nil_r.
Qed.


End Loop.

(** *** The callback *)

Lemma getCachedDocumentInsights_miss (documentId : string) (w : World) :
  is_Some (db_error env (log w) (SelectInsights documentId))
  ∨ document_insights w !! documentId = None
  ∨ document_insights w !! documentId = Some [] →
  getCachedDocumentInsights env documentId w
  = (Return None, logged (SelectInsights documentId) w).
Proof. apply cache_miss. Qed.

Lemma getInsightPlan_planned (documentId : string) (w : World) (plan : InsightPlan.t) :
  (getInsightPlan env documentId w).1 = Return (Some plan) →
  getInsightPlan env documentId w
  = (Return (Some plan), logged (CountChunks documentId) w).
Proof. rewrite getInsightPlan_run. simpl. by intros ->. Qed.

(** The run up to the loop, on a cache miss with a plan. *)
Lemma loadInsights_planned (aborted : list Request → bool) (documentId : string)
    (v : View) (w : World) (plan : InsightPlan.t) :
  let w2 := logged (CountChunks documentId) (logged (SelectInsights documentId) w) in
  let total := InsightPlan.totalGroups plan in
  documentId ≠ "" →
  is_Some (db_error env (log w) (SelectInsights documentId))
  ∨ document_insights w !! documentId = None
  ∨ document_insights w !! documentId = Some [] →
  (getInsightPlan env documentId (logged (SelectInsights documentId) w)).1
  = Return (Some plan) →
  loadInsights env aborted (Some documentId) v w
  = page_try_catch
      (looped ← group_loop env aborted (Z.to_nat total) documentId total 0 [];
       match looped with
       | None => mret ()
       | Some allGroupInsights =>
           stop ← abortRef_current aborted;
           if stop : bool then mret ()
           else
             update (λ v, setLoadingProgress None (setInsightsLoading false v));;
             merge_step env aborted documentId allGroupInsights
       end)
      (λ err,
         stop ← abortRef_current aborted;
         if stop : bool then mret ()
         else update (λ v, setLoadingProgress None
                             (setInsightsLoading false (setInsightsError true v))))
      {| insights := [];
         insightsLoading := true;
         insightsError := false;
         loadingProgress := Some (0, total);
         isMerging := false |}
      w2.
Proof.
  cbv zeta. intros Hid Hmiss Hplan. unfold loadInsights.
  rewrite bool_decide_eq_false_2 by done.
  erewrite page_bind_run by apply update_run.
  unfold page_try_catch.
  erewrite page_bind_run
    by (by apply call_returns, getCachedDocumentInsights_miss).
  cbv beta iota.
  erewrite page_bind_run
    by (by apply call_returns, getInsightPlan_planned).
  cbv beta iota zeta.
  erewrite page_bind_run by apply update_run.
  reflexivity.
Qed.

(** X26.  On a cache hit the cached cards are shown and the loading flag is
    cleared, after the single request that reads the cache; this path
    does not read [abortRef]. *)
Theorem loadInsights_cache_hit (aborted : list Request → bool)
    (documentId : string) (cards : list Insight.t) (v : View) (w : World) :
  documentId ≠ "" →
  db_error env (log w) (SelectInsights documentId) = None →
  document_insights w !! documentId = Some cards →
  cards ≠ [] →
  loadInsights env aborted (Some documentId) v w
  = (Return (),
     {| insights := cards;
        insightsLoading := false;
        insightsError := false;
        loadingProgress := None;
        isMerging := false |},
     logged (SelectInsights documentId) w).
Proof.
  intros Hid Hselect Hrow Hne. unfold loadInsights.
  rewrite bool_decide_eq_false_2 by done.
  erewrite page_bind_run by apply update_run.
  unfold page_try_catch.
  erewrite page_bind_run; cycle 1.
  { rewrite call_run. unfold getCachedDocumentInsights.
    rewrite getCachedInsights_run, Hselect, Hrow.
    rewrite bool_decide_eq_true_2 by (destruct cards; [done | simpl; lia]).
    reflexivity. }
  by destruct cards.
Qed.

(** X27.  A run that finds [abortRef] set at the first check of the loop
    stops there: no group is extracted, and the view keeps the reset
    state with the loading flag still set and no error. *)
Theorem loadInsights_aborted_before_loop (aborted : list Request → bool)
    (documentId : string) (v : View) (w : World) (plan : InsightPlan.t) :
  let w2 := logged (CountChunks documentId) (logged (SelectInsights documentId) w) in
  documentId ≠ "" →
  is_Some (db_error env (log w) (SelectInsights documentId))
  ∨ document_insights w !! documentId = None
  ∨ document_insights w !! documentId = Some [] →
  (getInsightPlan env documentId (logged (SelectInsights documentId) w)).1
  = Return (Some plan) →
  aborted (log w2) = true →
  loadInsights env aborted (Some documentId) v w
  = (Return (),
     {| insights := [];
        insightsLoading := true;
        insightsError := false;
        loadingProgress := Some (0, InsightPlan.totalGroups plan);
        isMerging := false |},
     w2).
Proof.
  cbv zeta. intros Hid Hmiss Hplan Habort.
  rewrite (loadInsights_planned aborted documentId v w plan) by done.
  unfold page_try_catch.
  assert (Hloop : ∀ v0,
            group_loop env aborted (Z.to_nat (InsightPlan.totalGroups plan))
              documentId (InsightPlan.totalGroups plan) 0 [] v0
              (logged (CountChunks documentId) (logged (SelectInsights documentId) w))
            = (Return (if bool_decide (0 < InsightPlan.totalGroups plan)
                       then None else Some []),
               v0,
               logged (CountChunks documentId) (logged (SelectInsights documentId) w))).
  { intros v0. destruct (Z.to_nat (InsightPlan.totalGroups plan)) eqn:E.
    - simpl. rewrite bool_decide_eq_false_2 by lia. done.
    - simpl. rewrite bool_decide_eq_true_2 by lia.
      unfold mbind, Page_bind, abortRef_current. simpl in Habort |- *.
      rewrite Habort. by rewrite bool_decide_eq_true_2 by lia. }
  erewrite page_bind_run by apply Hloop.
  case_bool_decide; [done |].
  unfold mbind, Page_bind, abortRef_current. by rewrite Habort.
Qed.

Lemma plan_groups_nat (documentId : string) (w : World) (plan : InsightPlan.t) :
  (getInsightPlan env documentId w).1 = Return (Some plan) →
  InsightPlan.totalGroups plan = Z.of_nat (Z.to_nat (InsightPlan.totalGroups plan)).
Proof.
  rewrite getInsightPlan_run. simpl.
  destruct (db_error env _ _); [done |]. case_bool_decide; [done |].
  intros [= <-]. simpl.
  pose proof (RagFacts.ceil_div_bounds
                (Z.of_nat (length (rows_of documentId (document_chunks w))))
                (Z.of_nat CHUNKS_PER_GROUP) ltac:(unfold CHUNKS_PER_GROUP; lia)).
  unfold CHUNKS_PER_GROUP in *. lia.
Qed.

(** X28.  In a run that is not aborted, on a cache miss with a plan whose
    groups all return: the cards of the groups are shown in group order,
    none dropped by the filter on ids, and the loading flag is cleared
    before the merge.  When the merge returns, its result replaces the
    cards.  When it throws, the error is swallowed: the unmerged cards
    stay, the error flag stays clear and the merging flag is cleared. *)
Theorem loadInsights_merge_outcomes (aborted : list Request → bool)
    (documentId : string) (v : View) (w w3 : World) (plan : InsightPlan.t)
    (results : list (list Insight.t)) :
  let w2 := logged (CountChunks documentId) (logged (SelectInsights documentId) w) in
  let shown cards :=
    {| insights := cards;
       insightsLoading := false;
       insightsError := false;
       loadingProgress := None;
       isMerging := false |} in
  documentId ≠ "" →
  (∀ seen, aborted seen = false) →
  is_Some (db_error env (log w) (SelectInsights documentId))
  ∨ document_insights w !! documentId = None
  ∨ document_insights w !! documentId = Some [] →
  (getInsightPlan env documentId (logged (SelectInsights documentId) w)).1
  = Return (Some plan) →
  settle_all (group_runs env documentId plan) w2 = (Return <$> results, w3) →
  (concat results = [] →
   loadInsights env aborted (Some documentId) v w = (Return (), shown [], w3))
  ∧ (∀ merged w4,
       concat results ≠ [] →
       mergeAndCacheInsights env documentId (concat results) w3 = (Return merged, w4) →
       loadInsights env aborted (Some documentId) v w = (Return (), shown merged, w4))
  ∧ (∀ e w4,
       concat results ≠ [] →
       mergeAndCacheInsights env documentId (concat results) w3 = (Throw e, w4) →
       loadInsights env aborted (Some documentId) v w
       = (Return (), shown (concat results), w4)).
Proof.
  cbv zeta. intros Hid Hnever Hmiss Hplan Hgroups.
  rewrite (loadInsights_planned aborted documentId v w plan) by done.
  unfold page_try_catch.
  pose proof (plan_groups_nat documentId _ plan Hplan) as Htotal.
  set (g := Z.to_nat (InsightPlan.totalGroups plan)) in *.
  destruct (group_loop_returns aborted Hnever g documentId g 0 []
              {| insights := [];
                 insightsLoading := true;
                 insightsError := false;
                 loadingProgress := Some (0, Z.of_nat g);
                 isMerging := false |}
              (logged (CountChunks documentId) (logged (SelectInsights documentId) w))
              w3 results) as (v' & Hloop & Hi & Hl & He & Hm).
  { lia. }
  { by intros x ?%elem_of_nil. }
  { rewrite Nat.sub_0_r. exact Hgroups. }
  rewrite Htotal. rewrite (page_bind_run _ _ _ _ _ _ _ Hloop).
  cbv beta iota.
  erewrite page_bind_run by apply (abortRef_current_false aborted Hnever).
  cbv beta iota.
  erewrite page_bind_run by apply update_run.
  simpl in Hi, Hl, He, Hm.
  unfold merge_step. split_and!.
  - intros Hnil. rewrite Hnil. simpl. destruct v'. simpl in *. subst.
    unfold setLoadingProgress, setInsightsLoading. simpl. by rewrite Hnil.
  - intros merged w4 Hne Hmerge.
    rewrite bool_decide_eq_true_2
      by (destruct (concat results); [done | simpl; lia]).
    erewrite page_bind_run by apply update_run.
    erewrite page_bind_run; cycle 1.
    { unfold page_try_catch.
      erewrite page_bind_run by (by apply call_returns).
      erewrite page_bind_run by apply (abortRef_current_false aborted Hnever).
      cbv beta iota. rewrite update_run. reflexivity. }
    erewrite page_bind_run by apply (abortRef_current_false aborted Hnever).
    cbv beta iota. rewrite update_run.
    destruct v'. simpl in *. by subst.
  - intros e w4 Hne Hmerge.
    rewrite bool_decide_eq_true_2
      by (destruct (concat results); [done | simpl; lia]).
    erewrite page_bind_run by apply update_run.
    erewrite page_bind_run; cycle 1.
    { unfold page_try_catch.
      erewrite page_bind_throw by (by apply call_returns).
      reflexivity. }
    erewrite page_bind_run by apply (abortRef_current_false aborted Hnever).
    cbv beta iota. rewrite update_run.
    destruct v'. simpl in *. by subst.
Qed.


End WithEnv.

(** *** Concrete runs *)

Lemma loadInsights_cache_hit_witness :
  ∃ view w',
    loadInsights Scenario.env_without_key (λ _, true) (Some Scenario.DOC)
      {| insights := []; insightsLoading := true; insightsError := true;
         loadingProgress := None; isMerging := true |}
      (Cases.world_with_cache 25 (Scenario.candidates 2))
    = (Return (), view, w')
    ∧ insights view = Scenario.candidates 2
    ∧ insightsLoading view = false.
Proof.
  eexists _, _. split.
  - apply (loadInsights_cache_hit Scenario.env_without_key (λ _, true) Scenario.DOC
             (Scenario.candidates 2)); [done | reflexivity | by vm_compute | done].
  - done.
Defined.

Lemma loadInsights_aborted_witness :
  ∃ view w',
    loadInsights Scenario.env (λ _, true) (Some Scenario.DOC)
      {| insights := []; insightsLoading := false; insightsError := false;
         loadingProgress := None; isMerging := false |}
      (Scenario.world 25)
    = (Return (), view, w')
    ∧ insightsLoading view = true
    ∧ new_requests (Scenario.world 25) w'
      = [SelectInsights Scenario.DOC; CountChunks Scenario.DOC].
Proof.
  eexists _, _. split.
  - apply (loadInsights_aborted_before_loop Scenario.env (λ _, true) Scenario.DOC _
             (Scenario.world 25)
             {| InsightPlan.totalChunks := 25; InsightPlan.totalGroups := 3 |});
      [done | right; left; reflexivity | by vm_compute | reflexivity].
  - done.
Defined.

Lemma loadInsights_merge_failure_witness :
  ∃ view w',
    loadInsights Cases.env_merge_fails (λ _, false) (Some Scenario.DOC)
      {| insights := []; insightsLoading := false; insightsError := false;
         loadingProgress := None; isMerging := false |}
      (Scenario.world 35)
    = (Return (), view, w')
    ∧ length (insights view) = 8%nat
    ∧ insightsError view = false
    ∧ isMerging view = false
    ∧ document_insights w' = ∅.
Proof.
  set (plan := {| InsightPlan.totalChunks := 35; InsightPlan.totalGroups := 4 |}).
  set (w2 := logged (CountChunks Scenario.DOC)
               (logged (SelectInsights Scenario.DOC) (Scenario.world 35))).
  set (settled := settle_all (group_runs Cases.env_merge_fails Scenario.DOC plan) w2).
  set (results := Cases.returned settled.1).
  set (merge := mergeAndCacheInsights Cases.env_merge_fails Scenario.DOC
                  (concat results) settled.2).
  destruct (loadInsights_merge_outcomes Cases.env_merge_fails (λ _, false)
              Scenario.DOC
              {| insights := []; insightsLoading := false; insightsError := false;
                 loadingProgress := None; isMerging := false |}
              (Scenario.world 35) settled.2 plan results)
    as (_ & _ & Hthrow);
    [done | done | right; left; reflexivity | by vm_compute | by vm_compute |].
  eexists _, _. split.
  - apply (Hthrow (Cases.thrown merge.1) merge.2); by vm_compute.
  - split_and!; by vm_compute.
Defined.


End ChatPageFacts.

(** ** The sentence stream *)

Module SentenceFacts.
Import Schema Effects Supabase Rag RunFacts RagFacts Vocabulary ChunkerFacts.















End SentenceFacts.
